(** * Teeko player: board model, terminal test, successors, search

    A shallow embedding of [game.py] (class [TeekoPlayer]).

    - A board is the Python list of five lists of five one-character
      strings: [list (list ascii)], cells being [" "], ["b"] or ["r"].
    - Indexing is total here: a read outside a list yields ["?"], which is
      no cell value, where Python raises [IndexError]; an update outside a
      list leaves it unchanged.  On 5x5 boards every index the program
      computes is in range, and the theorems assume that shape.
    - Python floats enter the search only through comparisons; there they
      are modelled by exact rationals, extended with the two infinities.
      Where the value of a float itself is stated, the float is a binary64
      float ([Binary64]). *)

From Stdlib Require Import ZArith QArith Qabs Lqa List Ascii Bool Lia.
From Stdlib Require Import Floats.
From Stdlib Require Import Orders OrdersTac.
From stdpp Require Import base option list gmap sorting.

Local Open Scope char_scope.
Set Warnings "-inexact-float".

(** ** Data model *)

(** A cell is a one-character string, a state a list of rows. *)
Abbreviation cell := ascii (only parsing).
Abbreviation state := (list (list ascii)) (only parsing).

Record TeekoPlayer := {
  board : state;
  my_piece : cell;
  opp : cell;
  max_depth : nat
}.

Definition pieces : list cell := ["b"; "r"].

(** The board made by [__init__]. *)
Definition empty_board : state := replicate 5 (replicate 5 " ").

(** [row[j]] and [state[i][j]]. *)
Definition row_at (row : list cell) (j : nat) : cell := default "?" (row !! j).
Definition cell_at (st : state) (i j : nat) : cell :=
  row_at (default [] (st !! i)) j.

(** [state[i][j] = v] on a list of lists. *)
Definition set_cell (st : state) (i j : nat) (v : cell) : state :=
  alter (λ row, <[j := v]> row) i st.

(** The shape every caller passes in: five rows of five cells. *)
Definition is_board (st : state) : bool :=
  (length st =? 5)%nat && forallb (λ row, (length row =? 5)%nat) st.

(** [range(n)] *)
Definition range (n : nat) : list nat := seq 0 n.

(** A [for] loop whose body may [return]: the first returned value, if any. *)
Fixpoint for_return {A R : Type} (xs : list A) (body : A → option R) : option R :=
  match xs with
  | [] => None
  | x :: xs' =>
      match body x with
      | Some r => Some r
      | None => for_return xs' body
      end
  end.

(** Statement sequencing for such loops: the second runs only if the first
    fell through. *)
Definition or_else {R : Type} (a b : option R) : option R :=
  match a with Some r => Some r | None => b end.

Infix ";;;" := or_else (at level 61, left associativity).

(** ** [game_value] *)

(** [all(f(k) == p for k in range(4))] *)
Definition all4 (f : nat → cell) (p : cell) : bool :=
  forallb (λ k, Ascii.eqb (f k) p) (range 4).

Definition opponent_of (me : cell) : cell :=
  if Ascii.eqb me "b" then "r" else "b".

(** The pair of tests made on every line window: own piece first. *)
Definition line_verdict (me opponent_piece : cell) (f : nat → cell) : option Z :=
  if all4 f me then Some 1%Z
  else if all4 f opponent_piece then Some (-1)%Z
  else None.

Definition square_verdict (me opponent_piece : cell) (st : state) (i j : nat)
  : option Z :=
  if Ascii.eqb (cell_at st i j) (cell_at st i (j + 1))
     && Ascii.eqb (cell_at st i (j + 1)) (cell_at st (i + 1) j)
     && Ascii.eqb (cell_at st (i + 1) j) (cell_at st (i + 1) (j + 1))
  then
    if Ascii.eqb (cell_at st i j) me then Some 1%Z
    else if Ascii.eqb (cell_at st i j) opponent_piece then Some (-1)%Z
    else None
  else None.

Definition horizontal_scan (me o : cell) (st : state) : option Z :=
  for_return st (λ row,
    for_return (range 2) (λ j, line_verdict me o (λ k, row_at row (j + k)))).

Definition vertical_scan (me o : cell) (st : state) : option Z :=
  for_return (range 2) (λ i,
    for_return (range 5) (λ j, line_verdict me o (λ k, cell_at st (i + k) j))).

Definition down_right_scan (me o : cell) (st : state) : option Z :=
  for_return (range 2) (λ i,
    for_return (range 2) (λ j,
      line_verdict me o (λ k, cell_at st (i + k) (j + k)))).

(** [range(4, 2, -1)] is [4, 3]. *)
Definition down_left_scan (me o : cell) (st : state) : option Z :=
  for_return (range 2) (λ i,
    for_return [4; 3] (λ j,
      line_verdict me o (λ k, cell_at st (i + k) (j - k)))).

Definition square_scan (me o : cell) (st : state) : option Z :=
  for_return (range 4) (λ i,
    for_return (range 4) (λ j, square_verdict me o st i j)).

Definition game_value (self : TeekoPlayer) (st : state) : Z :=
  let me := my_piece self in
  let opponent_piece := opponent_of me in
  default 0%Z
    (horizontal_scan me opponent_piece st
     ;;; vertical_scan me opponent_piece st
     ;;; down_right_scan me opponent_piece st
     ;;; down_left_scan me opponent_piece st
     ;;; square_scan me opponent_piece st).

(** ** Phase and depth *)

(** [sum(1 for row in state for cell in row if cell != ' ')] *)
Definition total_pieces (st : state) : nat :=
  length (List.filter (λ c, negb (Ascii.eqb c " ")) (concat st)).

Definition drop_phase (st : state) : bool := (total_pieces st <? 8)%nat.

(** The depth [make_move] stores in [self.max_depth] for its search. *)
Definition search_depth (st : state) : nat :=
  if drop_phase st then
    if (total_pieces st <=? 4)%nat then 3
    else if (total_pieces st <=? 6)%nat then 4
    else 5
  else 5.

(** ** [succ] *)

Definition directions : list (Z * Z) :=
  [(-1, -1); (-1, 0); (-1, 1); (0, -1); (0, 1); (1, -1); (1, 0); (1, 1)]%Z.

(** [len(state[0])] *)
Definition width (st : state) : nat := length (default [] (st !! 0%nat)).

(** The guard of the move phase:
    [0 <= new_x < len(state) and 0 <= new_y < len(state[0])
     and state[new_x][new_y] == ' ']. *)
Definition free_target (st : state) (new_x new_y : Z) : bool :=
  (0 <=? new_x)%Z && (new_x <? Z.of_nat (length st))%Z
  && (0 <=? new_y)%Z && (new_y <? Z.of_nat (width st))%Z
  && Ascii.eqb (cell_at st (Z.to_nat new_x) (Z.to_nat new_y)) " ".

(** [[(i, j) for i in range(5) for j in range(5) if state[i][j] == piece]] *)
Definition piece_locs (st : state) (piece : cell) : list (nat * nat) :=
  flat_map (λ i,
    flat_map (λ j, if Ascii.eqb (cell_at st i j) piece then [(i, j)] else [])
      (range 5)) (range 5).

Definition succ (st : state) (piece : cell) : list state :=
  if drop_phase st then
    flat_map (λ row_idx,
      flat_map (λ col_idx,
        if Ascii.eqb (cell_at st row_idx col_idx) " "
        then [set_cell st row_idx col_idx piece]
        else [])
        (range (width st)))
      (range (length st))
  else
    flat_map (λ '(x, y),
      flat_map (λ '(dx, dy),
        let new_x := (Z.of_nat x + dx)%Z in
        let new_y := (Z.of_nat y + dy)%Z in
        if free_target st new_x new_y
        then [set_cell
                (set_cell st (Z.to_nat new_x) (Z.to_nat new_y) piece)
                x y " "]
        else [])
        directions)
      (piece_locs st piece).

(** ** The heuristic *)

(** [line.count(p)] *)
Definition count (line : list cell) (p : cell) : nat :=
  count_occ ascii_dec line p.

Local Open Scope Q_scope.

Definition nQ (n : nat) : Q := inject_Z (Z.of_nat n).

Definition Qltb (a b : Q) : bool := negb (Qle_bool b a).

(** Python's two-argument [max] and [min]: the first argument wins ties. *)
Definition qmax (a b : Q) : Q := if Qltb a b then b else a.
Definition qmin (a b : Q) : Q := if Qltb b a then b else a.

(** [evaluate_line] with its floats read as the rationals their literals
    write; [Binary64.evaluate_line] below is the function in floats. *)
Definition evaluate_line (line : list cell) (my_piece opponent_piece : cell) : Q :=
  let my_count := count line my_piece in
  let opp_count := count line opponent_piece in
  let empty_count := count line " " in
  if (0 <? opp_count)%nat && (0 <? my_count)%nat then
    let block_bonus :=
      if (opp_count =? 3)%nat && (empty_count =? 1)%nat then 0.75 else 0.0 in
    block_bonus + 0.15 * nQ my_count - 0.25 * nQ opp_count
      + 0.05 * nQ empty_count
  else if (my_count =? 3)%nat && (empty_count =? 1)%nat then 0.75
  else if (my_count =? 2)%nat && (2 <=? empty_count)%nat then 0.50
  else if (my_count =? 1)%nat then 0.25
  else 0.0.

(** [a, b, c, d = square] fails on any other length; such a call scores 0
    here. *)
Definition evaluate_square (square : list cell) (my_piece opponent_piece : cell)
  : Q :=
  match square with
  | [a; b; c; d] =>
      let my_count := count square my_piece in
      let opp_count := count square opponent_piece in
      let empty_count := count square " " in
      if (0 <? my_count)%nat && (0 <? opp_count)%nat then
        let threat_penalty := 0.25 * nQ opp_count in
        let block_bonus := 0.15 * nQ my_count in
        let score := block_bonus - threat_penalty + 0.05 * nQ empty_count in
        qmax (qmin score 0.4) (-0.4)
      else
        let pair_bonus := 0.22 in
        let diag_bonus := 0.28 in
        let both (u v : cell) (bonus : Q) : Q :=
          if Ascii.eqb u my_piece && Ascii.eqb v my_piece then bonus else 0 in
        let score :=
          0.0 + both a b pair_bonus + both c d pair_bonus
          + both a c pair_bonus + both b d pair_bonus
          + both a d diag_bonus + both b c diag_bonus
          + 0.10 * nQ my_count + 0.05 * nQ empty_count in
        qmin score 0.9
  | _ => 0
  end.

(** [sorted(bucket_list)], as an insertion sort. *)
Fixpoint insert_sorted (x : Q) (l : list Q) : list Q :=
  match l with
  | [] => [x]
  | y :: l' => if Qle_bool x y then x :: l else y :: insert_sorted x l'
  end.

Definition sorted (l : list Q) : list Q := fold_right insert_sorted [] l.

Definition top_two_sum (bucket_list : list Q) : Q * Q :=
  match rev (sorted bucket_list) with
  | [] => (0.0, 0.0)
  | [top] => (top, 0.0)
  | top :: second :: _ => (top, second)
  end.

(** [sum(values)] *)
Definition qsum (values : list Q) : Q := fold_left Qplus values 0.

(** The line and square windows, in the order the loops visit them;
    [state[i][j:j+4]] is a slice. *)
Definition horizontal_windows (st : state) : list (list cell) :=
  flat_map (λ i, map (λ j, take 4 (drop j (default [] (st !! i)))) (range 2))
    (range 5).

Definition vertical_windows (st : state) : list (list cell) :=
  flat_map (λ i, map (λ j, map (λ k, cell_at st (i + k) j) (range 4)) (range 5))
    (range 2).

Definition diagonal_windows (st : state) : list (list cell) :=
  flat_map (λ i, map (λ j, map (λ k, cell_at st (i + k) (j + k)) (range 4))
                   (range 2)) (range 2)
  ++ flat_map (λ i, map (λ j, map (λ k, cell_at st (i + k) (j - k)) (range 4))
                      [4; 3]%nat) (range 2).

Definition square_windows (st : state) : list (list cell) :=
  flat_map (λ i, map (λ j, [cell_at st i j; cell_at st i (j + 1);
                            cell_at st (i + 1) j; cell_at st (i + 1) (j + 1)])
                   (range 4)) (range 4).

Definition side_heur (st : state) (subject other : cell) : Q :=
  let line_scores (ws : list (list cell)) :=
    map (λ w, evaluate_line w subject other) ws in
  let square_scores :=
    map (λ w, evaluate_square w subject other) (square_windows st) in
  qsum (flat_map (λ bucket, let '(t, s) := top_two_sum bucket in [t; 0.25 * s])
          [line_scores (horizontal_windows st);
           line_scores (vertical_windows st);
           line_scores (diagonal_windows st);
           square_scores]).

Definition center_bonus (st : state) (me opponent_piece : cell) : Q :=
  let owner (i j : nat) (w : Q) : Q :=
    if Ascii.eqb (cell_at st i j) me then w
    else if Ascii.eqb (cell_at st i j) opponent_piece then - w
    else 0 in
  fold_left Qplus
    ([owner 2%nat 2%nat 0.03]
     ++ map (λ '(i, j), owner i j 0.02) [(1, 2); (2, 1); (2, 3); (3, 2)]%nat
     ++ map (λ '(i, j), owner i j 0.015) [(1, 1); (1, 3); (3, 1); (3, 3)]%nat)
    0.0.

Definition heuristic_game_value (self : TeekoPlayer) (st : state) : Q :=
  let heuristic_val := game_value self st in
  if negb (heuristic_val =? 0)%Z then inject_Z heuristic_val
  else
    let opponent_piece := if Ascii.eqb (my_piece self) "b" then "r" else "b" in
    let my_heur := side_heur st (my_piece self) opponent_piece in
    let opp_heur := side_heur st opponent_piece (my_piece self) in
    my_heur - opp_heur + center_bonus st (my_piece self) opponent_piece.

Local Close Scope Q_scope.

(** ** The search *)

(** Search values: Python floats without NaN, as an ordered set. *)
Inductive value : Type :=
| NegInf
| Fin (q : Q)
| PosInf.

(** [a < b] on values. *)
Definition vlt (a b : value) : bool :=
  match a, b with
  | PosInf, _ => false
  | _, NegInf => false
  | NegInf, _ => true
  | _, PosInf => true
  | Fin x, Fin y => Qltb x y
  end.

(** [a >= b] on values. *)
Definition vge (a b : value) : bool := negb (vlt a b).

(** [max(a, b)] and [min(a, b)] as Python computes them. *)
Definition vmax (a b : value) : value := if vlt a b then b else a.
Definition vmin (a b : value) : value := if vlt b a then b else a.

(** [float(game_val)] *)
Definition float_of_int (z : Z) : value := Fin (inject_Z z).

Section Search.

(** The two methods the search calls on [self] besides [game_value]. *)
Variable heuristic : TeekoPlayer → state → Q.
Variable successors_of : state → cell → list state.

(** The loop of a maximising node.  [eval successor alpha beta] is the value
    of the recursive call; [best_state] starts as [None]. *)
Fixpoint max_loop (eval : state → value → value → value) (beta : value)
    (successors : list state) (best_value : value) (best_state : option state)
    (alpha : value) : value * option state :=
  match successors with
  | [] => (best_value, best_state)
  | successor :: rest =>
      let value := eval successor alpha beta in
      let '(best_value, best_state) :=
        if vlt best_value value then (value, Some successor)
        else (best_value, best_state) in
      let alpha := vmax alpha best_value in
      if vge alpha beta then (best_value, best_state)
      else max_loop eval beta rest best_value best_state alpha
  end.

(** The loop of a minimising node. *)
Fixpoint min_loop (eval : state → value → value → value) (alpha : value)
    (successors : list state) (best_value : value) (best_state : option state)
    (beta : value) : value * option state :=
  match successors with
  | [] => (best_value, best_state)
  | successor :: rest =>
      let value := eval successor alpha beta in
      let '(best_value, best_state) :=
        if vlt value best_value then (value, Some successor)
        else (best_value, best_state) in
      let beta := vmin beta best_value in
      if vge alpha beta then (best_value, best_state)
      else min_loop eval alpha rest best_value best_state beta
  end.

(** [minimax], by recursion on the plies left: [remaining] is
    [self.max_depth - depth], so that [depth >= self.max_depth] reads
    [remaining = 0] and the call at [depth + 1] has one ply less. *)
Fixpoint minimax_from (self : TeekoPlayer) (remaining : nat) (st : state)
    (depth : nat) (alpha beta : value) : value * option state :=
  let game_val := game_value self st in
  let opponent_piece := if Ascii.eqb (my_piece self) "b" then "r" else "b" in
  if negb (game_val =? 0)%Z then (float_of_int game_val, Some st)
  else
    match remaining with
    | O => (Fin (heuristic self st), Some st)
    | S remaining' =>
        let eval successor alpha beta :=
          fst (minimax_from self remaining' successor (depth + 1) alpha beta) in
        if (depth mod 2 =? 0)%nat then
          let successors := successors_of st (my_piece self) in
          match successors with
          | [] => (Fin (heuristic self st), Some st)
          | _ => max_loop eval beta successors NegInf None alpha
          end
        else
          let successors := successors_of st opponent_piece in
          match successors with
          | [] => (Fin (heuristic self st), Some st)
          | _ => min_loop eval alpha successors PosInf None beta
          end
    end.

Definition minimax (self : TeekoPlayer) (st : state) (depth : nat)
    (alpha beta : value) : value * option state :=
  minimax_from self (max_depth self - depth) st depth alpha beta.

(** *** The reference search: the same depth-limited minimax, every
    successor explored, no window.  A later successor replaces the best one
    only when its value is strictly better. *)

Fixpoint best_of (better : value → value → bool) (eval : state → value)
    (successors : list state) (best_value : value) (best_state : option state)
  : value * option state :=
  match successors with
  | [] => (best_value, best_state)
  | successor :: rest =>
      let value := eval successor in
      if better value best_value
      then best_of better eval rest value (Some successor)
      else best_of better eval rest best_value best_state
  end.

Fixpoint exhaustive_from (self : TeekoPlayer) (remaining : nat) (st : state)
    (depth : nat) : value * option state :=
  let game_val := game_value self st in
  if negb (game_val =? 0)%Z then (float_of_int game_val, Some st)
  else
    match remaining with
    | O => (Fin (heuristic self st), Some st)
    | S remaining' =>
        let eval successor :=
          fst (exhaustive_from self remaining' successor (depth + 1)) in
        let mover :=
          if (depth mod 2 =? 0)%nat then my_piece self
          else opponent_of (my_piece self) in
        match successors_of st mover with
        | [] => (Fin (heuristic self st), Some st)
        | successors =>
            if (depth mod 2 =? 0)%nat
            then best_of (λ v best, vlt best v) eval successors NegInf None
            else best_of (λ v best, vlt v best) eval successors PosInf None
        end
    end.

Definition exhaustive_minimax (self : TeekoPlayer) (st : state) (depth : nat)
  : value * option state :=
  exhaustive_from self (max_depth self - depth) st depth.

End Search.

(** ** [make_move] and [place_piece] *)

Definition with_max_depth (self : TeekoPlayer) (d : nat) : TeekoPlayer :=
  {| board := board self; my_piece := my_piece self; opp := opp self;
     max_depth := d |}.

Definition with_board (self : TeekoPlayer) (b : state) : TeekoPlayer :=
  {| board := b; my_piece := my_piece self; opp := opp self;
     max_depth := max_depth self |}.

(** A [for] loop whose body updates a loop state and which ends with
    [if stop: break]. *)
Fixpoint for_break {A S : Type} (xs : list A) (body : A → S → S)
    (stop : S → bool) (s : S) : S :=
  match xs with
  | [] => s
  | x :: xs' =>
      let s' := body x s in
      if stop s' then s' else for_break xs' body stop s'
  end.

Abbreviation move := (list (nat * nat)) (only parsing).

(** Lines 69-99 of [make_move]: the move that leads from [st] to
    [best_state]. *)
Definition translate (self : TeekoPlayer) (st best_state : state) : move :=
  if drop_phase st then
    default []
      (for_return (range 5) (λ i,
         for_return (range 5) (λ j,
           if negb (Ascii.eqb (cell_at st i j) (cell_at best_state i j))
           then Some [(i, j)]
           else None)))
  else
    let both (ds : option (nat * nat) * option (nat * nat)) : bool :=
      bool_decide (is_Some (fst ds)) && bool_decide (is_Some (snd ds)) in
    let scan_cell (i j : nat) (ds : option (nat * nat) * option (nat * nat)) :=
      let dest :=
        if Ascii.eqb (cell_at st i j) " "
           && Ascii.eqb (cell_at best_state i j) (my_piece self)
        then Some (i, j) else fst ds in
      let source :=
        if Ascii.eqb (cell_at st i j) (my_piece self)
           && Ascii.eqb (cell_at best_state i j) " "
        then Some (i, j) else snd ds in
      (dest, source) in
    match
      for_break (range 5)
        (λ i ds, for_break (range 5) (scan_cell i) both ds) both (None, None)
    with
    | (Some dest, Some source) => [dest; source]
    | _ => []
    end.

(** [make_move]: the depth is chosen, the search run with it from depth 0
    and window (-inf, +inf), [self.max_depth] restored, and the chosen state
    turned into a move.  A search result without a state makes Python fail
    at [best_state[i][j]]; it is the empty move here. *)
Definition make_move (self : TeekoPlayer) (st : state) : move :=
  let search_depth := search_depth st in
  let searching := with_max_depth self search_depth in
  let '(score, best_state) :=
    minimax heuristic_game_value succ searching st 0 NegInf PosInf in
  match best_state with
  | Some best_state => translate self st best_state
  | None => []
  end.

(** [place_piece]: the source cell, if the move has one, is cleared, then
    the destination receives the piece.  An empty move makes Python fail at
    [move[0]]; the board is left as it is here. *)
Definition place_piece (self : TeekoPlayer) (mv : move) (piece : cell)
  : TeekoPlayer :=
  match mv with
  | [] => self
  | (row, col) :: rest =>
      let b :=
        match rest with
        | (source_row, source_col) :: _ =>
            set_cell (board self) source_row source_col " "
        | [] => board self
        end in
      with_board self (set_cell b row col piece)
  end.

(** ** [__init__] and [opponent_move] *)

(** [__init__]: [choice] is the piece [random.choice(self.pieces)] returned. *)
Definition init (choice : cell) : TeekoPlayer :=
  {| board := replicate 5 (replicate 5 " ");
     my_piece := choice;
     opp := if Ascii.eqb choice (default "?" (pieces !! 1%nat))
            then default "?" (pieces !! 0%nat)
            else default "?" (pieces !! 1%nat);
     max_depth := 3 |}.

(** What [opponent_move] raises: its three messages, and the [IndexError] of
    a subscript outside the board or the move. *)
Inductive failure : Type :=
| NoPieceThere
| NotAdjacent
| IllegalMove
| IndexError.

(** Python's subscripts.  The coordinates of a move are [int]s: on a list of
    [len] items the subscripts from [-len] to [len - 1] are valid, and a
    negative one counts from the end. *)
Definition valid (len : nat) (i : Z) : bool :=
  (- Z.of_nat len <=? i)%Z && (i <? Z.of_nat len)%Z.

(** The position a valid subscript names. *)
Definition named (len : nat) (i : Z) : nat :=
  Z.to_nat (if (i <? 0)%Z then Z.of_nat len + i else i).

(** [l[i]]; [None] is the [IndexError]. *)
Definition subscript {A : Type} (l : list A) (i : Z) : option A :=
  if valid (length l) i then l !! named (length l) i else None.

(** [self.board[row][col]] *)
Definition board_get (b : state) (row col : Z) : option cell :=
  subscript b row ≫= (λ r, subscript r col).

(** The cell that [board[row][col]] is. *)
Definition cell_named (b : state) (rc : Z * Z) : nat * nat :=
  let i := named (length b) rc.1 in
  (i, named (length (default [] (b !! i))) rc.2).

(** [abs(a - b) > 1] *)
Definition far (a b : Z) : bool := (1 <? Z.abs (a - b))%Z.

(** The last test of [opponent_move] and the call of [place_piece], which
    writes the cells the subscripts of the move name. *)
Definition opponent_place (self : TeekoPlayer) (mv : list (Z * Z))
  : failure + TeekoPlayer :=
  match mv with
  | [] => inl IndexError
  | (row, col) :: _ =>
      match board_get (board self) row col with
      | None => inl IndexError
      | Some c =>
          if negb (Ascii.eqb c " ") then inl IllegalMove
          else inr (place_piece self (map (cell_named (board self)) mv)
                      (opp self))
      end
  end.

Definition opponent_move (self : TeekoPlayer) (mv : list (Z * Z))
  : failure + TeekoPlayer :=
  if (1 <? length mv)%nat then
    match mv with
    | (row, col) :: (source_row, source_col) :: _ =>
        match board_get (board self) source_row source_col with
        | None => inl IndexError
        | Some c =>
            if negb (Ascii.eqb c (opp self)) then inl NoPieceThere
            else if far source_row row || far source_col col
                 then inl NotAdjacent
                 else opponent_place self mv
        end
    | _ => inl IndexError
    end
  else opponent_place self mv.

(** The player seen from the other side of the board. *)
Definition swap_sides (self : TeekoPlayer) : TeekoPlayer :=
  {| board := board self; my_piece := opponent_of (my_piece self);
     opp := my_piece self; max_depth := max_depth self |}.

(** The order of search values as relations. *)
Inductive value_lt (a b : value) : Prop :=
| value_lt_intro (H : vlt a b = true).

Inductive value_le (a b : value) : Prop :=
| value_le_intro (H : vlt b a = false).

Inductive value_equiv (a b : value) : Prop :=
| value_equiv_intro (H : vlt a b = false) (H' : vlt b a = false).

(** ** Boards as Python objects

    [succ] takes a reference to a list of references to lists.  To speak of
    mutation and of copies being independent, the store is explicit here:
    an object is a row (a list of one-character strings, which are
    immutable) or a board (a list of references); [copy.deepcopy] allocates
    a new board and new rows, sharing a row in the copy where the original
    shares it (its memo). A reference that leads to no object of the
    expected kind reads as the empty list. *)

Module Heap.

Abbreviation loc := positive (only parsing).

Inductive obj : Type :=
| Row (cells : list cell)
| Board (rows : list loc).

Abbreviation heap := (gmap positive obj) (only parsing).

Definition row_of (h : heap) (l : loc) : list cell :=
  match h !! l with Some (Row cells) => cells | _ => [] end.

Definition board_of (h : heap) (l : loc) : list loc :=
  match h !! l with Some (Board rows) => rows | _ => [] end.

(** The value of the board at [st]: what a reader of [state[i][j]] sees. *)
Definition snapshot (h : heap) (st : loc) : state :=
  map (row_of h) (board_of h st).

(** [state[i][j]] *)
Definition read (h : heap) (st : loc) (i j : nat) : cell :=
  cell_at (snapshot h st) i j.

(** [state[i][j] = v]: the row object [state[i]] is updated in place. *)
Definition write (h : heap) (st : loc) (i j : nat) (v : cell) : heap :=
  match board_of h st !! i with
  | Some r => <[r := Row (<[j := v]> (row_of h r))]> h
  | None => h
  end.

(** The rows of a board being copied; [memo] maps the originals already
    copied to their copies. *)
Fixpoint copy_rows (h : heap) (memo : gmap loc loc) (ls : list loc)
  : heap * gmap loc loc * list loc :=
  match ls with
  | [] => (h, memo, [])
  | l :: ls' =>
      match memo !! l with
      | Some l' =>
          let '(h', memo', out) := copy_rows h memo ls' in
          (h', memo', l' :: out)
      | None =>
          let l' := fresh (dom h) in
          let '(h', memo', out) :=
            copy_rows (<[l' := Row (row_of h l)]> h) (<[l := l']> memo) ls' in
          (h', memo', l' :: out)
      end
  end.

(** [copy.deepcopy(state)] *)
Definition deepcopy (h : heap) (st : loc) : heap * loc :=
  let st' := fresh (dom h) in
  let '(h1, _, rows') :=
    copy_rows (<[st' := Board []]> h) {[st := st']} (board_of h st) in
  (<[st' := Board rows']> h1, st').

(** [succ] on the store: the new store and the references appended to
    [successor_states], in order. *)
Definition succ (h : heap) (st : loc) (piece : cell) : heap * list loc :=
  if (total_pieces (snapshot h st) <? 8)%nat then
    fold_left (λ acc row_idx,
      fold_left (λ '(h, successor_states) col_idx,
        if Ascii.eqb (read h st row_idx col_idx) " " then
          let '(h, state_copy) := deepcopy h st in
          let h := write h state_copy row_idx col_idx piece in
          (h, successor_states ++ [state_copy])
        else (h, successor_states))
        (range (width (snapshot (fst acc) st))) acc)
      (range (length (board_of h st))) (h, [])
  else
    fold_left (λ acc '(x, y),
      fold_left (λ '(h, successor_states) '(dx, dy),
        let new_x := (Z.of_nat x + dx)%Z in
        let new_y := (Z.of_nat y + dy)%Z in
        if free_target (snapshot h st) new_x new_y then
          let '(h, state_copy) := deepcopy h st in
          let h := write h state_copy (Z.to_nat new_x) (Z.to_nat new_y) piece in
          let h := write h state_copy x y " " in
          (h, successor_states ++ [state_copy])
        else (h, successor_states))
        directions acc)
      (piece_locs (snapshot h st) piece) (h, []).

(** The objects a board is made of: the board and its rows. *)
Definition owned (h : heap) (st : loc) : gset loc :=
  {[st]} ∪ list_to_set (board_of h st).

End Heap.

(** ** Reference definitions taken from the specification *)

Local Open Scope Q_scope.



Local Close Scope Q_scope.

(** ** [evaluate_line] in Python's floats *)

(** Python's [float] is the binary64 format, and so is Rocq's primitive
    [float]: the literals are read to the nearest value and [+], [-], [*]
    round each result to the nearest one. *)
Module Binary64.

(** A count, an [int], as the operand of a float operation. *)
Definition of_int (n : nat) : float :=
  PrimFloat.of_uint63 (Uint63.of_Z (Z.of_nat n)).

(** The rational number a finite float is; 0 for an infinity or a NaN. *)
Definition value (x : float) : Q :=
  match Prim2SF x with
  | S754_finite negative mantissa exponent =>
      (if negative then -1 else 1) * inject_Z (Z.pos mantissa)
      * Qpower 2 exponent
  | _ => 0
  end.

Local Open Scope float_scope.

Definition evaluate_line (line : list cell) (my_piece opponent_piece : cell)
  : float :=
  let my_count := count line my_piece in
  let opp_count := count line opponent_piece in
  let empty_count := count line " " in
  if (0 <? opp_count)%nat && (0 <? my_count)%nat then
    let block_bonus :=
      if (opp_count =? 3)%nat && (empty_count =? 1)%nat then 0.75 else 0.0 in
    block_bonus + 0.15 * of_int my_count - 0.25 * of_int opp_count
      + 0.05 * of_int empty_count
  else if (my_count =? 3)%nat && (empty_count =? 1)%nat then 0.75
  else if (my_count =? 2)%nat && (2 <=? empty_count)%nat then 0.50
  else if (my_count =? 1)%nat then 0.25
  else 0.0.

End Binary64.

(** Winning shapes as the specification describes them: four consecutive
    cells of one piece along a row, a column or a diagonal, all on the board,
    or a 2x2 block of one piece. *)

(** One step along a row, a column, the down-right and the down-left
    diagonal. *)
Definition line_steps : list (Z * Z) := [(0, 1); (1, 0); (1, 1); (1, -1)]%Z.

(** The [k]-th cell of the line that starts at [(r, c)] with step [d]. *)
Definition line_cell (r c : nat) (d : Z * Z) (k : nat) : Z * Z :=
  (Z.of_nat r + Z.of_nat k * d.1, Z.of_nat c + Z.of_nat k * d.2)%Z.

(** The cell [xy] is on the board and holds [p]. *)
Definition holds (st : state) (p : cell) (xy : Z * Z) : Prop :=
  ((0 ≤ xy.1 < 5)%Z ∧ (0 ≤ xy.2 < 5)%Z)
  ∧ cell_at st (Z.to_nat xy.1) (Z.to_nat xy.2) = p.

Definition four_in_line (st : state) (p : cell) : Prop :=
  ∃ (r c : nat) (d : Z * Z),
    d ∈ line_steps ∧ ∀ k : nat, (k < 4)%nat → holds st p (line_cell r c d k).

Definition block_2x2 (st : state) (p : cell) : Prop :=
  ∃ r c : nat,
    (r < 4)%nat ∧ (c < 4)%nat
    ∧ cell_at st r c = p ∧ cell_at st r (c + 1) = p
    ∧ cell_at st (r + 1) c = p ∧ cell_at st (r + 1) (c + 1) = p.

Definition has_winning_shape (st : state) (p : cell) : Prop :=
  four_in_line st p ∨ block_2x2 st p.

(** The windows in the order [game_value] visits them, as cell positions. *)
Definition scan_order : list (list (nat * nat)) :=
  flat_map (λ i, map (λ j, map (λ k, (i, j + k)) (range 4)) (range 2)) (range 5)
  ++ flat_map (λ i, map (λ j, map (λ k, (i + k, j)) (range 4)) (range 5))
       (range 2)
  ++ flat_map (λ i, map (λ j, map (λ k, (i + k, j + k)) (range 4)) (range 2))
       (range 2)
  ++ flat_map (λ i, map (λ j, map (λ k, (i + k, j - k)) (range 4)) [4; 3])
       (range 2)
  ++ flat_map (λ i, map (λ j, [(i, j); (i, j + 1); (i + 1, j); (i + 1, j + 1)])
                      (range 4)) (range 4).

(** Every cell of the window holds [p]. *)
Definition complete (st : state) (p : cell) (w : list (nat * nat)) : bool :=
  forallb (λ '(i, j), Ascii.eqb (cell_at st i j) p) w.

(** The verdict on one window, own piece first, and the first verdict in
    scan order. *)
Definition window_verdict (st : state) (me o : cell) (w : list (nat * nat))
  : option Z :=
  if complete st me w then Some 1%Z
  else if complete st o w then Some (-1)%Z
  else None.

Definition first_complete (st : state) (me o : cell) : option Z :=
  for_return scan_order (window_verdict st me o).

(** The piece a verdict stands for. *)
Definition winner (me : cell) (v : Z) : cell :=
  if (v =? 1)%Z then me else opponent_of me.

(** Successors as the specification counts them. *)

(** The 25 cell positions in row-major order. *)
Definition positions : list (nat * nat) :=
  flat_map (λ i, map (λ j, (i, j)) (range 5)) (range 5).

(** The empty cells, in row-major order. *)
Definition empty_cells (st : state) : list (nat * nat) :=
  List.filter (λ '(i, j), Ascii.eqb (cell_at st i j) " ") positions.

(** A relocation the rules allow: the source holds the mover's piece, the
    target is an empty cell of the board at Chebyshev distance 1. *)
Definition legal_relocation (st : state) (p : cell) (src dst : nat * nat)
  : Prop :=
  (src.1 < 5)%nat ∧ (src.2 < 5)%nat ∧ cell_at st src.1 src.2 = p
  ∧ (dst.1 < 5)%nat ∧ (dst.2 < 5)%nat ∧ cell_at st dst.1 dst.2 = " "
  ∧ Z.max (Z.abs (Z.of_nat dst.1 - Z.of_nat src.1))
          (Z.abs (Z.of_nat dst.2 - Z.of_nat src.2)) = 1%Z.

(** The (source, target) pairs in the order [succ] meets them. *)
Definition move_pairs (st : state) (p : cell)
  : list ((nat * nat) * (nat * nat)) :=
  flat_map (λ '(x, y),
    flat_map (λ '(dx, dy),
      let new_x := (Z.of_nat x + dx)%Z in
      let new_y := (Z.of_nat y + dy)%Z in
      if free_target st new_x new_y
      then [((x, y), (Z.to_nat new_x, Z.to_nat new_y))]
      else [])
      directions)
    (piece_locs st p).

(** The state after the piece on [src] has moved to [dst]. *)
Definition relocate (st : state) (p : cell) (src dst : nat * nat) : state :=
  set_cell (set_cell st dst.1 dst.2 p) src.1 src.2 " ".

(** ** Concrete players and boards *)

Definition black_player : TeekoPlayer :=
  {| board := empty_board; my_piece := "b"; opp := "r"; max_depth := 3 |}.

(** Row 0 holds four black pieces. *)
Definition black_row_board : state :=
  ["b"; "b"; "b"; "b"; " "] :: replicate 4 (replicate 5 " ").

(** The opponent's piece fills the 2x2 block anchored at (0, 0). *)
Definition block_board (o : cell) : state :=
  [o; o; " "; " "; " "] :: [o; o; " "; " "; " "]
  :: replicate 3 (replicate 5 " ").

(** A move-phase board with a black piece in the corner (0, 0). *)
Definition corner_board : state :=
  ["b"; " "; "r"; " "; "r"] :: [" "; " "; " "; " "; " "]
  :: ["b"; " "; "r"; " "; "b"] :: [" "; " "; " "; " "; " "]
  :: ["r"; " "; " "; " "; "b"] :: [].

(** Red has row 0 and black has row 1: four pieces each. *)
Definition both_rows_board : state :=
  ["r"; "r"; "r"; "r"; " "] :: ["b"; "b"; "b"; "b"; " "]
  :: replicate 3 (replicate 5 " ").

(** The mover at a depth of the search: the player at even depths. *)
Definition mover_at (self : TeekoPlayer) (depth : nat) : cell :=
  if (depth mod 2 =? 0)%nat then my_piece self else opponent_of (my_piece self).

(** The black player facing [corner_board], red to move. *)
Definition red_to_move : TeekoPlayer :=
  {| board := corner_board; my_piece := "b"; opp := "r"; max_depth := 3 |}.

(** Red has opened in the centre. *)
Definition black_start_board : state := set_cell empty_board 2 2 "r".

(** What a search with window [(a, b)] may return as [r] when the full
    search returns [v]: below the window an upper bound, above it a lower
    bound, inside it the value itself. *)
Definition window_sound (r v a b : value) : Prop :=
  (value_le r a → value_le v r)
  ∧ (value_le b r → value_le r v)
  ∧ (value_lt a r → value_lt r b → value_equiv r v).

(** ** Boards on the store *)

(** [h'] has every object of [h], unchanged. *)
Definition extends (h h' : gmap positive Heap.obj) : Prop :=
  ∀ l, l ∈ dom h → h' !! l = h !! l.

(** The board at [st] is a list of distinct live row objects. *)
Definition board_object (h : gmap positive Heap.obj) (st : positive) : Prop :=
  ∃ rows, h !! st = Some (Heap.Board rows)
          ∧ NoDup rows
          ∧ ∀ r, r ∈ rows → ∃ cells, h !! r = Some (Heap.Row cells).

(** Every row recorded in [memo] is live, and so is its copy, which holds
    the same cells. *)
Definition memo_ok (h : gmap positive Heap.obj) (memo : gmap positive positive)
  : Prop :=
  ∀ l l', memo !! l = Some l' →
          l ∈ dom h ∧ l' ∈ dom h ∧ Heap.row_of h l' = Heap.row_of h l.

(** The successors made so far: new board objects, disjoint from one
    another, that read as [vals]; nothing older than the call has changed. *)
Definition copies_ok (h0 h : gmap positive Heap.obj) (out : list positive)
    (vals : list (list (list ascii))) : Prop :=
  extends h0 h
  ∧ (∀ c, c ∈ out → board_object h c ∧ Heap.owned h c ⊆ dom h ∖ dom h0)
  ∧ (∀ k k' c c', out !! k = Some c → out !! k' = Some c' → k ≠ k' →
       Heap.owned h c ## Heap.owned h c')
  ∧ map (Heap.snapshot h) out = vals.

(** The empty board as [__init__] builds it: one list of five row lists. *)
Definition start_heap : gmap positive Heap.obj :=
  <[1%positive := Heap.Board [2; 3; 4; 5; 6]%positive]>
    (<[2%positive := Heap.Row (replicate 5 " ")]>
    (<[3%positive := Heap.Row (replicate 5 " ")]>
    (<[4%positive := Heap.Row (replicate 5 " ")]>
    (<[5%positive := Heap.Row (replicate 5 " ")]>
    (<[6%positive := Heap.Row (replicate 5 " ")]> ∅))))).

(** ** Neighbours on the board *)

(** [dst] is one step from [src], in any of the eight directions. *)
Definition adjacent (src dst : nat * nat) : bool :=
  (Z.max (Z.abs (Z.of_nat dst.1 - Z.of_nat src.1))
         (Z.abs (Z.of_nat dst.2 - Z.of_nat src.2)) =? 1)%Z.

(** The cells of the board next to a cell of [cells], outside [cells]. *)
Definition frontier (cells : list (nat * nat)) : list (nat * nat) :=
  List.filter (λ dst, negb (bool_decide (dst ∈ cells))
                      && existsb (λ src, adjacent src dst) cells) positions.

(** The sublists of [l] with [k] elements. *)
Fixpoint choose {A : Type} (k : nat) (l : list A) : list (list A) :=
  match k, l with
  | O, _ => [[]]
  | S _, [] => []
  | S k', x :: l' => map (cons x) (choose k' l') ++ choose k l'
  end.

(** The cells that hold a piece other than [p]. *)
Definition other_pieces (st : state) (p : cell) : list (nat * nat) :=
  List.filter (λ '(i, j), negb (Ascii.eqb (cell_at st i j) " ")
                          && negb (Ascii.eqb (cell_at st i j) p)) positions.

(** ** The sample game *)

(** [main], turn by turn.  What it prints is left out; what it reads is
    given as the list of the cells the human answers. *)

(** The variables of [main]. *)
Record game := {
  ai : TeekoPlayer;
  piece_count : nat;
  turn : nat;
}.

(** [ai.my_piece == ai.pieces[turn]] *)
Definition ai_to_move (g : game) : bool :=
  Ascii.eqb (my_piece (ai g)) (default "?" (pieces !! turn g)).

(** The end of a turn: [piece_count += 1] in the drop phase, and
    [turn += 1; turn %= 2]. *)
Definition end_turn (g : game) (self : TeekoPlayer) (placed : nat) : game :=
  {| ai := self; piece_count := piece_count g + placed;
     turn := (turn g + 1) mod 2 |}.

(** The AI's turn of the drop phase: [make_move], then [place_piece], which
    raises [IndexError] at [move[0]] on an empty move. *)
Definition ai_places (self : TeekoPlayer) : option TeekoPlayer :=
  match make_move self (board self) with
  | [] => None
  | dest :: more => Some (place_piece self (dest :: more) (my_piece self))
  end.

(** The AI's turn of the move phase: the report of the move reads
    [move[1]], and raises on a move without a source. *)
Definition ai_relocates (self : TeekoPlayer) : option TeekoPlayer :=
  match make_move self (board self) with
  | dest :: source :: more =>
      Some (place_piece self (dest :: source :: more) (my_piece self))
  | _ => None
  end.

(** The human's turn of the drop phase, the loop [while not move_made].
    [answers] are the cells (row, column) read from the well-formed lines
    of the input; a cell [opponent_move] raises on is followed by the next
    one, and the loop waits when there is none. *)

(** The cell of a line, [(int(line[1]), ord(line[0]) - ord("A"))]: two
    [int]s that are not negative. *)
Definition as_ints (c : nat * nat) : Z * Z := (Z.of_nat c.1, Z.of_nat c.2).

Fixpoint human_places (self : TeekoPlayer) (answers : list (nat * nat))
  : option (TeekoPlayer * list (nat * nat)) :=
  match answers with
  | [] => None
  | player_move :: rest =>
      match opponent_move self [as_ints player_move] with
      | inr self' => Some (self', rest)
      | inl _ => human_places self rest
      end
  end.

(** The human's turn of the move phase: two cells are read, [move_from]
    then [move_to]. *)
Fixpoint human_relocates (self : TeekoPlayer) (answers : list (nat * nat))
  : option (TeekoPlayer * list (nat * nat)) :=
  match answers with
  | move_from :: move_to :: rest =>
      match opponent_move self [as_ints move_to; as_ints move_from] with
      | inr self' => Some (self', rest)
      | inl _ => human_relocates self rest
      end
  | _ => None
  end.

(** Where a run of a loop stands: still in the loop after the turns asked
    for, out of the loop, at [input] with no answer left, or stopped by an
    exception of the AI's turn. *)
Inductive run : Type :=
| Continues (g : game) (answers : list (nat * nat))
| Leaves (g : game) (answers : list (nat * nat))
| Waits (g : game)
| Raises.

(** The loop of the drop phase, for [turns] turns at most. *)
Fixpoint drop_loop (turns : nat) (g : game) (answers : list (nat * nat))
  : run :=
  if (piece_count g <? 8)%nat && (game_value (ai g) (board (ai g)) =? 0)%Z
  then
    match turns with
    | O => Continues g answers
    | S turns' =>
        if ai_to_move g then
          match ai_places (ai g) with
          | Some self' => drop_loop turns' (end_turn g self' 1) answers
          | None => Raises
          end
        else
          match human_places (ai g) answers with
          | Some (self', rest) => drop_loop turns' (end_turn g self' 1) rest
          | None => Waits g
          end
    end
  else Leaves g answers.

(** The loop of the move phase. *)
Fixpoint move_loop (turns : nat) (g : game) (answers : list (nat * nat))
  : run :=
  if (game_value (ai g) (board (ai g)) =? 0)%Z then
    match turns with
    | O => Continues g answers
    | S turns' =>
        if ai_to_move g then
          match ai_relocates (ai g) with
          | Some self' => move_loop turns' (end_turn g self' 0) answers
          | None => Raises
          end
        else
          match human_relocates (ai g) answers with
          | Some (self', rest) => move_loop turns' (end_turn g self' 0) rest
          | None => Waits g
          end
    end
  else Leaves g answers.

(** [ai = TeekoPlayer()], [piece_count = 0], [turn = 0] *)
Definition start (choice : cell) : game :=
  {| ai := init choice; piece_count := 0; turn := 0 |}.

(** The two loops of [main], one after the other, from the position
    [g]. *)
Definition main_from (g : game) (turns : nat) (answers : list (nat * nat))
  : run :=
  match drop_loop turns g answers with
  | Leaves g' rest => move_loop turns g' rest
  | r => r
  end.

(** [main] up to its last report.  [choice] is the piece [random.choice]
    gives the AI. *)
Definition main (choice : cell) (turns : nat) (answers : list (nat * nat))
  : run :=
  main_from (start choice) turns answers.

(** The last report of [main]: "AI wins! Game over." when
    [ai.game_value(ai.board) == 1], "You win! Game over." otherwise. *)
Inductive report : Type :=
| AI_wins
| You_win.

Definition last_report (g : game) : report :=
  if (game_value (ai g) (board (ai g)) =? 1)%Z then AI_wins else You_win.

(** The state a run stands at. *)
Definition state_of (r : run) : option game :=
  match r with
  | Continues g _ | Leaves g _ | Waits g => Some g
  | Raises => None
  end.

(** A position of a game played by the rules: a 5x5 board with
    [piece_count] pieces, eight at most, black and red only, black with as
    many pieces as red or one more, and a winning shape for one side at
    most. *)
Definition fair (choice : cell) (g : game) : Prop :=
  my_piece (ai g) = choice ∧ opp (ai g) = opponent_of choice
  ∧ is_board (board (ai g)) = true
  ∧ total_pieces (board (ai g)) = piece_count g
  ∧ (piece_count g ≤ 8)%nat
  ∧ (count (concat (board (ai g))) "b" + count (concat (board (ai g))) "r"
     = piece_count g)%nat
  ∧ (count (concat (board (ai g))) "r" ≤ count (concat (board (ai g))) "b"
     ≤ count (concat (board (ai g))) "r" + 1)%nat
  ∧ (turn g < 2)%nat
  ∧ ¬ (has_winning_shape (board (ai g)) "b"
       ∧ has_winning_shape (board (ai g)) "r").

(** In the drop phase black is to move when the sides have as many
    pieces, red when black has one more. *)
Definition dropping (choice : cell) (g : game) : Prop :=
  fair choice g
  ∧ (count (concat (board (ai g))) "b"
     = count (concat (board (ai g))) "r" + turn g)%nat.

(** The move phase runs on eight pieces. *)
Definition moving (choice : cell) (g : game) : Prop :=
  fair choice g
  ∧ (game_value (ai g) (board (ai g)) = 0%Z → piece_count g = 8%nat).

(** A position of the move phase: the AI has red, black is to move and
    completes row 0 by moving (1, 3) to (0, 3). *)
Definition last_move_game : game :=
  {| ai := {| board := ["b"; "b"; "b"; " "; " "] :: [" "; " "; " "; "b"; " "]
                       :: [" "; " "; " "; " "; " "]
                       :: [" "; " "; " "; " "; "r"]
                       :: ["r"; "r"; " "; "r"; " "] :: [];
              my_piece := "r"; opp := "b"; max_depth := 3 |};
     piece_count := 8; turn := 0 |}.

(** * Properties *)

(** ** Depth selection *)

(** C6: the depth limit of the root search is determined by the number of
    pieces on the input board: at most 4 pieces give 3, 5 or 6 give 4, 7
    gives 5, 8 or more (move phase) give 5; the empty board gives 3; and
    [make_move] searches with that limit whatever [max_depth] held before. *)
Theorem search_depth_by_piece_count (st : state) :
  ((total_pieces st ≤ 4)%nat → search_depth st = 3%nat)
  ∧ ((4 < total_pieces st ≤ 6)%nat → search_depth st = 4%nat)
  ∧ (total_pieces st = 7%nat → search_depth st = 5%nat)
  ∧ ((8 ≤ total_pieces st)%nat → search_depth st = 5%nat)
  ∧ search_depth empty_board = 3%nat
  ∧ (∀ self d, make_move (with_max_depth self d) st = make_move self st)
  ∧ (∀ self, make_move self st =
       match snd (minimax heuristic_game_value succ
                    (with_max_depth self (search_depth st)) st 0 NegInf PosInf)
       with Some best_state => translate self st best_state | None => [] end).
Proof.
  unfold search_depth, drop_phase.
  repeat split; try reflexivity.
  - intros H.
    destruct (Nat.ltb_spec (total_pieces st) 8); [|lia].
    destruct (Nat.leb_spec (total_pieces st) 4); [reflexivity|lia].
  - intros [H1 H2].
    destruct (Nat.ltb_spec (total_pieces st) 8); [|lia].
    destruct (Nat.leb_spec (total_pieces st) 4); [lia|].
    destruct (Nat.leb_spec (total_pieces st) 6); [reflexivity|lia].
  - intros ->. reflexivity.
  - intros H.
    destruct (Nat.ltb_spec (total_pieces st) 8); [lia|reflexivity].
  - intros self. unfold make_move.
    destruct (minimax _ _ _ _ _ _ _) as [score best_state]. reflexivity.
Qed.

Lemma search_depth_by_piece_count_witness :
  (total_pieces black_row_board ≤ 4)%nat ∧ search_depth black_row_board = 3%nat.
Proof.
  split; [vm_compute; lia|].
  apply (proj1 (search_depth_by_piece_count black_row_board)).
  vm_compute; lia.
Defined.

(** ** Terminal states in the search *)

(** C4: at a state whose [game_value] is [v], not 0, the search returns
    [(float(v), state)] for every depth, depth limit and window; the result
    is the same whatever the heuristic and the successor generator are, so
    neither takes part in it. *)
Theorem terminal_state_returned_at_once
    (heuristic : TeekoPlayer → state → Q)
    (successors_of : state → cell → list state)
    (self : TeekoPlayer) (st : state) (v : Z) (depth : nat)
    (alpha beta : value) :
  game_value self st = v →
  v ≠ 0%Z →
  minimax heuristic successors_of self st depth alpha beta
  = (float_of_int v, Some st).
Proof.
  intros Hv Hnz. unfold minimax.
  destruct (max_depth self - depth)%nat; simpl; rewrite Hv;
    destruct (Z.eqb_spec v 0); try contradiction; reflexivity.
Qed.

Lemma terminal_state_returned_at_once_witness :
  minimax heuristic_game_value succ black_player black_row_board 0 NegInf PosInf
  = (float_of_int 1, Some black_row_board).
Proof.
  apply terminal_state_returned_at_once; [reflexivity | lia].
Defined.

(** ** Line scoring *)


(** Occurrences of three different values share the cells of the list. *)
Lemma count_three_distinct (window : list cell) (a b c : cell) :
  a ≠ b → a ≠ c → b ≠ c →
  (count window a + count window b + count window c ≤ length window)%nat.
Proof.
  intros Hab Hac Hbc. unfold count.
  induction window as [|x window IH]; simpl; [lia|].
  destruct (ascii_dec x a), (ascii_dec x b), (ascii_dec x c);
    subst; try congruence; lia.
Qed.

Ltac count_cases m :=
  destruct m as [|[|[|[|[|m]]]]]; [| | | | |lia].




(** C10: in a 4-cell window holding both pieces the opponent cannot have
    three cells beside an empty one, so the mixed branch of [evaluate_line]
    never adds its 0.75: the float returned is that of
    [0.15*my_count - 0.25*opp_count + 0.05*empty_count]. *)
Theorem mixed_window_bonus_unreachable
    (window : list cell) (subject other : cell) :
  length window = 4%nat →
  subject ≠ other → subject ≠ " " → other ≠ " " →
  (0 < count window subject)%nat →
  (0 < count window other)%nat →
  ¬ (count window other = 3%nat ∧ count window " " = 1%nat)
  ∧ Binary64.evaluate_line window subject other
    = (0.15 * Binary64.of_int (count window subject)
       - 0.25 * Binary64.of_int (count window other)
       + 0.05 * Binary64.of_int (count window " "))%float.
Proof.
  intros Hlen Hso Hs Ho Hsc Hoc.
  pose proof (count_three_distinct window subject other " " Hso Hs Ho) as Hsum.
  rewrite Hlen in Hsum.
  split; [lia|].
  unfold Binary64.evaluate_line.
  revert Hsum Hsc Hoc. generalize (count window subject) as m,
    (count window other) as o, (count window " ") as e.
  intros m o e Hsum Hsc Hoc.
  count_cases m; count_cases o; count_cases e;
    first [lia | vm_compute; reflexivity].
Qed.

Lemma mixed_window_bonus_unreachable_witness :
  Binary64.evaluate_line ["b"; "b"; "b"; "r"] "b" "r"
  = (0.15 * Binary64.of_int 3 - 0.25 * Binary64.of_int 1
     + 0.05 * Binary64.of_int 0)%float.
Proof.
  apply (mixed_window_bonus_unreachable ["b"; "b"; "b"; "r"] "b" "r");
    first [reflexivity | discriminate | vm_compute; lia].
Defined.

(** ** Loops with [return] *)

Lemma for_return_Some {A R : Type} (xs : list A) (body : A → option R) (r : R) :
  for_return xs body = Some r → ∃ x, x ∈ xs ∧ body x = Some r.
Proof.
  induction xs as [|x xs IH]; simpl; [discriminate|].
  destruct (body x) as [r'|] eqn:Hb.
  - intros [= ->]. exists x. split; [left|exact Hb].
  - intros H. destruct (IH H) as (y & Hy & Hby). exists y. split; [by right|exact Hby].
Qed.

Lemma or_else_Some {R : Type} (a b : option R) (r : R) :
  a ;;; b = Some r → a = Some r ∨ b = Some r.
Proof. destruct a; simpl; auto. Qed.

Lemma is_board_rows (st : state) :
  is_board st = true → ∃ r0 r1 r2 r3 r4, st = [r0; r1; r2; r3; r4].
Proof.
  unfold is_board. intros H. apply andb_prop in H as [H _].
  apply Nat.eqb_eq in H.
  destruct st as [|r0 [|r1 [|r2 [|r3 [|r4 [|]]]]]]; try discriminate.
  by exists r0, r1, r2, r3, r4.
Qed.

Lemma line_verdict_Some (me : cell) (f : nat → cell) (v : Z) :
  line_verdict me (opponent_of me) f = Some v →
  (v = 1 ∨ v = -1)%Z ∧ all4 f (winner me v) = true.
Proof.
  unfold line_verdict.
  destruct (all4 f me) eqn:Hme; [intros [= <-]; auto|].
  destruct (all4 f (opponent_of me)) eqn:Ho; [intros [= <-]; auto|discriminate].
Qed.

Lemma all4_cells (f : nat → cell) (p : cell) :
  all4 f p = true → f 0%nat = p ∧ f 1%nat = p ∧ f 2%nat = p ∧ f 3%nat = p.
Proof.
  unfold all4. simpl. rewrite !andb_true_iff.
  intros (H0 & H1 & H2 & H3 & _).
  repeat split; by apply Ascii.eqb_eq.
Qed.

Lemma square_verdict_Some (me : cell) (st : state) (i j : nat) (v : Z) :
  square_verdict me (opponent_of me) st i j = Some v →
  (v = 1 ∨ v = -1)%Z
  ∧ cell_at st i j = winner me v ∧ cell_at st i (j + 1) = winner me v
  ∧ cell_at st (i + 1) j = winner me v
  ∧ cell_at st (i + 1) (j + 1) = winner me v.
Proof.
  unfold square_verdict.
  destruct (Ascii.eqb_spec (cell_at st i j) (cell_at st i (j + 1))) as [E1|];
    [|discriminate].
  destruct (Ascii.eqb_spec (cell_at st i (j + 1)) (cell_at st (i + 1) j)) as [E2|];
    [|discriminate].
  destruct (Ascii.eqb_spec (cell_at st (i + 1) j) (cell_at st (i + 1) (j + 1)))
    as [E3|]; [|discriminate].
  simpl. rewrite <- E3, <- E2, <- E1.
  destruct (Ascii.eqb_spec (cell_at st i j) me) as [E|].
  - intros [= <-]. simpl. auto.
  - destruct (Ascii.eqb_spec (cell_at st i j) (opponent_of me)) as [E|];
      [|discriminate].
    intros [= <-]. simpl. auto.
Qed.

(** Turns a membership in an explicit list into one case per element. *)
Ltac pick_cases H :=
  repeat (apply elem_of_cons in H as [H|H]; [try subst|]);
  try (apply elem_of_nil in H; destruct H).

Lemma four_in_line_intro (st : state) (p : cell) (r c : nat) (d : Z * Z)
    (f : nat → cell) :
  d ∈ line_steps →
  (∀ k, (k < 4)%nat →
     (0 ≤ (line_cell r c d k).1 < 5)%Z ∧ (0 ≤ (line_cell r c d k).2 < 5)%Z) →
  (∀ k, (k < 4)%nat →
     cell_at st (Z.to_nat (line_cell r c d k).1) (Z.to_nat (line_cell r c d k).2)
     = f k) →
  all4 f p = true →
  four_in_line st p.
Proof.
  intros Hd Hin Hf Hall. exists r, c, d. split; [exact Hd|].
  intros k Hk. split; [by apply Hin|].
  rewrite (Hf k Hk).
  destruct (all4_cells f p Hall) as (H0 & H1 & H2 & H3).
  destruct k as [|[|[|[|k]]]]; auto; lia.
Qed.


Lemma range_lt (n j : nat) : j ∈ range n → (j < n)%nat.
Proof. unfold range. rewrite elem_of_seq. lia. Qed.

Lemma is_board_length (st : state) : is_board st = true → length st = 5%nat.
Proof.
  unfold is_board. intros H. apply andb_prop in H as [H _].
  by apply Nat.eqb_eq in H.
Qed.

Ltac in_steps := apply list_elem_of_In; simpl; tauto.

Ltac line_bounds :=
  let k := fresh "k" in let Hk := fresh "Hk" in
  intros k Hk; unfold line_cell; simpl; lia.

Ltac line_cells :=
  let k := fresh "k" in let Hk := fresh "Hk" in
  intros k Hk; unfold line_cell; simpl; f_equal; lia.

Lemma scans_sound (me : cell) (st : state) (v : Z) :
  is_board st = true →
  horizontal_scan me (opponent_of me) st
  ;;; vertical_scan me (opponent_of me) st
  ;;; down_right_scan me (opponent_of me) st
  ;;; down_left_scan me (opponent_of me) st
  ;;; square_scan me (opponent_of me) st = Some v →
  (v = 1 ∨ v = -1)%Z ∧ has_winning_shape st (winner me v).
Proof.
  intros Hb H. apply is_board_length in Hb.
  apply or_else_Some in H as [H|Hsq].
  apply or_else_Some in H as [H|Hdl].
  apply or_else_Some in H as [H|Hdr].
  apply or_else_Some in H as [Hh|Hv].
  - apply for_return_Some in Hh as (row & Hrow & H).
    apply for_return_Some in H as (j & Hj & H).
    apply line_verdict_Some in H as [Hpm Hall]. split; [exact Hpm|left].
    apply list_elem_of_lookup in Hrow as [i Hi].
    pose proof (lookup_lt_Some _ _ _ Hi) as Hlt. apply range_lt in Hj.
    apply (four_in_line_intro st _ i j (0, 1)%Z (λ k, row_at row (j + k)));
      [in_steps | line_bounds | | exact Hall].
    intros k Hk. unfold line_cell, cell_at; simpl.
    replace (Z.to_nat (Z.of_nat i + Z.of_nat k * 0)) with i by lia.
    rewrite Hi. simpl. f_equal. lia.
  - apply for_return_Some in Hv as (i & Hi & H).
    apply for_return_Some in H as (j & Hj & H).
    apply line_verdict_Some in H as [Hpm Hall]. split; [exact Hpm|left].
    apply range_lt in Hi, Hj.
    apply (four_in_line_intro st _ i j (1, 0)%Z (λ k, cell_at st (i + k) j));
      [in_steps | line_bounds | line_cells | exact Hall].
  - apply for_return_Some in Hdr as (i & Hi & H).
    apply for_return_Some in H as (j & Hj & H).
    apply line_verdict_Some in H as [Hpm Hall]. split; [exact Hpm|left].
    apply range_lt in Hi, Hj.
    apply (four_in_line_intro st _ i j (1, 1)%Z
             (λ k, cell_at st (i + k) (j + k)));
      [in_steps | line_bounds | line_cells | exact Hall].
  - apply for_return_Some in Hdl as (i & Hi & H).
    apply for_return_Some in H as (j & Hj & H).
    apply line_verdict_Some in H as [Hpm Hall]. split; [exact Hpm|left].
    apply range_lt in Hi.
    assert (3 ≤ j ≤ 4)%nat as Hj' by (pick_cases Hj; lia).
    apply (four_in_line_intro st _ i j (1, -1)%Z
             (λ k, cell_at st (i + k) (j - k)));
      [in_steps | line_bounds | line_cells | exact Hall].
  - apply for_return_Some in Hsq as (i & Hi & H).
    apply for_return_Some in H as (j & Hj & H).
    apply range_lt in Hi, Hj.
    apply square_verdict_Some in H as (Hpm & H).
    split; [exact Hpm|right]. exists i, j. auto.
Qed.

(** ** Terminal test *)

(** C2: on a 5x5 board [game_value] returns +1, 0 or -1; +1 only if the
    player's piece has four consecutive cells in a row, a column or a
    diagonal, or a 2x2 block; -1 only if the opponent's piece has; a row 0
    that starts with four own pieces gives +1, and the opponent's 2x2 block
    at anchor (0, 0) on an otherwise empty board gives -1. *)
Theorem game_value_sound (self : TeekoPlayer) (st : state) :
  is_board st = true →
  (game_value self st = 1 ∨ game_value self st = 0 ∨ game_value self st = -1)%Z
  ∧ (game_value self st = 1%Z → has_winning_shape st (my_piece self))
  ∧ (game_value self st = (-1)%Z →
     has_winning_shape st (opponent_of (my_piece self)))
  ∧ ((∀ k, (k < 4)%nat → cell_at st 0 k = my_piece self) →
     game_value self st = 1%Z)
  ∧ (my_piece self ∈ pieces →
     st = block_board (opponent_of (my_piece self)) →
     game_value self st = (-1)%Z).
Proof.
  intros Hb. unfold game_value.
  pose proof (scans_sound (my_piece self) st) as Hs.
  split; [|split; [|split; [|split]]].
  - destruct (_ ;;; _) as [v|]; simpl; [|auto].
    destruct (Hs v Hb eq_refl) as [[-> | ->] _]; auto.
  - destruct (_ ;;; _) as [v|]; simpl; [|discriminate].
    intros ->. exact (proj2 (Hs 1%Z Hb eq_refl)).
  - destruct (_ ;;; _) as [v|]; simpl; [|discriminate].
    intros ->. exact (proj2 (Hs (-1)%Z Hb eq_refl)).
  - intros Hrow.
    destruct (is_board_rows st Hb) as (r0 & r1 & r2 & r3 & r4 & ->).
    unfold horizontal_scan. simpl. unfold line_verdict, all4. simpl.
    pose proof (Hrow 0%nat ltac:(lia)) as H0.
    pose proof (Hrow 1%nat ltac:(lia)) as H1.
    pose proof (Hrow 2%nat ltac:(lia)) as H2.
    pose proof (Hrow 3%nat ltac:(lia)) as H3.
    unfold cell_at in H0, H1, H2, H3. simpl in H0, H1, H2, H3.
    rewrite H0, H1, H2, H3, Ascii.eqb_refl. reflexivity.
  - intros Hme ->. unfold pieces in Hme. pick_cases Hme.
    + destruct self as [b m o d]; simpl in *; subst m. reflexivity.
    + destruct self as [b m o d]; simpl in *; subst m. reflexivity.
Qed.

Lemma game_value_sound_witness :
  game_value black_player black_row_board = 1%Z
  ∧ has_winning_shape black_row_board "b".
Proof.
  pose proof (game_value_sound black_player black_row_board eq_refl)
    as (_ & Hshape & _ & Hrow & _).
  assert (game_value black_player black_row_board = 1%Z) as H.
  { apply Hrow. intros k Hk. destruct k as [|[|[|[|k]]]]; [reflexivity..|lia]. }
  split; [exact H | exact (Hshape H)].
Defined.

(** ** Scan order of [game_value] *)

Lemma for_return_app {A R : Type} (xs ys : list A) (body : A → option R) :
  for_return (xs ++ ys) body = for_return xs body ;;; for_return ys body.
Proof.
  induction xs as [|x xs IH]; simpl; [reflexivity|].
  destruct (body x); [reflexivity|exact IH].
Qed.

Lemma for_return_map {A B R : Type} (g : A → B) (xs : list A)
    (body : B → option R) :
  for_return (map g xs) body = for_return xs (λ x, body (g x)).
Proof.
  induction xs as [|x xs IH]; simpl; [reflexivity|].
  destruct (body (g x)); [reflexivity|exact IH].
Qed.

Lemma for_return_flat_map {A B R : Type} (g : A → list B) (xs : list A)
    (body : B → option R) :
  for_return (flat_map g xs) body = for_return xs (λ x, for_return (g x) body).
Proof.
  induction xs as [|x xs IH]; simpl; [reflexivity|].
  rewrite for_return_app, IH.
  destruct (for_return (g x) body); reflexivity.
Qed.

Lemma for_return_ext {A R : Type} (xs : list A) (f g : A → option R) :
  (∀ x, x ∈ xs → f x = g x) → for_return xs f = for_return xs g.
Proof.
  induction xs as [|x xs IH]; intros H; simpl; [reflexivity|].
  rewrite (H x) by left.
  destruct (g x); [reflexivity|]. apply IH. intros y Hy. apply H. by right.
Qed.

Lemma or_else_assoc {R : Type} (a b c : option R) :
  a ;;; (b ;;; c) = a ;;; b ;;; c.
Proof. destruct a; reflexivity. Qed.

Lemma square_window_verdict (st : state) (me o : cell) (i j : nat) :
  window_verdict st me o [(i, j); (i, j + 1); (i + 1, j); (i + 1, j + 1)]
  = square_verdict me o st i j.
Proof.
  unfold window_verdict, square_verdict, complete. simpl.
  destruct (Ascii.eqb_spec (cell_at st i j) (cell_at st i (j + 1))) as [<-|N1];
  destruct (Ascii.eqb_spec (cell_at st i j) (cell_at st (i + 1) j)) as [<-|N2];
  destruct (Ascii.eqb_spec (cell_at st i j) (cell_at st (i + 1) (j + 1)))
    as [<-|N3]; simpl;
  destruct (Ascii.eqb_spec (cell_at st i j) me) as [E1|M1];
  destruct (Ascii.eqb_spec (cell_at st i j) o) as [E2|M2]; simpl;
  try reflexivity.
  all: repeat match goal with
       | |- context [Ascii.eqb ?a ?b] =>
           destruct (Ascii.eqb_spec a b); simpl; try congruence
       end.
Qed.

(** [game_value] is the first verdict in scan order. *)
Lemma game_value_scan_order (self : TeekoPlayer) (st : state) :
  is_board st = true →
  game_value self st
  = default 0%Z (first_complete st (my_piece self) (opponent_of (my_piece self))).
Proof.
  intros Hb.
  destruct (is_board_rows st Hb) as (r0 & r1 & r2 & r3 & r4 & ->).
  unfold game_value, first_complete, scan_order. f_equal.
  rewrite !for_return_app, !or_else_assoc, !for_return_flat_map.
  repeat apply (f_equal2 or_else); try reflexivity.
  all: symmetry; apply square_window_verdict.
Qed.

(** The first element on which the body returns decides the loop. *)
Lemma for_return_first {A R : Type} (xs : list A) (body : A → option R) (x : A) :
  x ∈ xs → body x ≠ None →
  ∃ (n : nat) (y : A) (r : R),
    xs !! n = Some y ∧ body y = Some r
    ∧ (∀ m z, (m < n)%nat → xs !! m = Some z → body z = None)
    ∧ for_return xs body = Some r.
Proof.
  induction xs as [|a xs IH]; intros Hx Hbx; [by apply elem_of_nil in Hx|].
  destruct (body a) as [r|] eqn:Ha.
  - exists 0%nat, a, r. repeat split; [exact Ha| |simpl; by rewrite Ha].
    intros m z Hm. lia.
  - apply elem_of_cons in Hx as [->|Hx]; [congruence|].
    destruct (IH Hx Hbx) as (n & y & r & Hn & Hy & Hbefore & Hret).
    exists (S n), y, r. repeat split; [exact Hn|exact Hy| |simpl; by rewrite Ha].
    intros [|m] z Hm Hz; [by injection Hz as <-|].
    apply (Hbefore m z); [lia|exact Hz].
Qed.

Lemma window_in_grid {B : Type} (W : nat → nat → B) (rs cs : list nat)
    (i j : nat) :
  i ∈ rs → j ∈ cs → W i j ∈ flat_map (λ i, map (λ j, W i j) cs) rs.
Proof.
  intros Hi Hj. apply list_elem_of_In, in_flat_map. exists i.
  split; [by apply list_elem_of_In|].
  apply in_map. by apply list_elem_of_In.
Qed.

Lemma lt_range (n j : nat) : (j < n)%nat → j ∈ range n.
Proof. unfold range. rewrite elem_of_seq. lia. Qed.

Lemma complete_four (st : state) (p : cell) (a b c d : nat * nat) :
  cell_at st a.1 a.2 = p → cell_at st b.1 b.2 = p →
  cell_at st c.1 c.2 = p → cell_at st d.1 d.2 = p →
  complete st p [a; b; c; d] = true.
Proof.
  destruct a, b, c, d. simpl. intros -> -> -> ->.
  by rewrite Ascii.eqb_refl.
Qed.

(** A line cell that holds [p], read at its natural-number position. *)
Lemma holds_cell_at (st : state) (p : cell) (xy : Z * Z) (a b : nat) :
  holds st p xy → xy.1 = Z.of_nat a → xy.2 = Z.of_nat b → cell_at st a b = p.
Proof.
  intros [_ H] Ha Hb. rewrite Ha, Hb, !Nat2Z.id in H. exact H.
Qed.

(** Every winning shape is a window of the scan. *)
Lemma shape_in_scan_order (st : state) (p : cell) :
  has_winning_shape st p → ∃ w, w ∈ scan_order ∧ complete st p w = true.
Proof.
  intros [(r & c & d & Hd & H) | (r & c & Hr & Hc & H0 & H1 & H2 & H3)].
  - pose proof (H 0%nat ltac:(lia)) as H0.
    pose proof (H 1%nat ltac:(lia)) as H1.
    pose proof (H 2%nat ltac:(lia)) as H2.
    pose proof (H 3%nat ltac:(lia)) as H3.
    pose proof (proj1 H0) as B0. pose proof (proj1 H3) as B3.
    unfold line_steps in Hd.
    pick_cases Hd; unfold line_cell in *; simpl in H0, H1, H2, H3, B0, B3;
      unfold scan_order.
    + exists (map (λ k, (r, c + k)%nat) (range 4)). split.
      * apply elem_of_app; left.
        apply (window_in_grid (λ i j, map (λ k, (i, j + k)%nat) (range 4)));
          apply lt_range; lia.
      * apply complete_four; simpl;
          [ apply (holds_cell_at _ _ _ _ _ H0)
          | apply (holds_cell_at _ _ _ _ _ H1)
          | apply (holds_cell_at _ _ _ _ _ H2)
          | apply (holds_cell_at _ _ _ _ _ H3) ]; simpl; lia.
    + exists (map (λ k, (r + k, c)%nat) (range 4)). split.
      * apply elem_of_app; right. apply elem_of_app; left.
        apply (window_in_grid (λ i j, map (λ k, (i + k, j)%nat) (range 4)));
          apply lt_range; lia.
      * apply complete_four; simpl;
          [ apply (holds_cell_at _ _ _ _ _ H0)
          | apply (holds_cell_at _ _ _ _ _ H1)
          | apply (holds_cell_at _ _ _ _ _ H2)
          | apply (holds_cell_at _ _ _ _ _ H3) ]; simpl; lia.
    + exists (map (λ k, (r + k, c + k)%nat) (range 4)). split.
      * do 2 (apply elem_of_app; right). apply elem_of_app; left.
        apply (window_in_grid (λ i j, map (λ k, (i + k, j + k)%nat) (range 4)));
          apply lt_range; lia.
      * apply complete_four; simpl;
          [ apply (holds_cell_at _ _ _ _ _ H0)
          | apply (holds_cell_at _ _ _ _ _ H1)
          | apply (holds_cell_at _ _ _ _ _ H2)
          | apply (holds_cell_at _ _ _ _ _ H3) ]; simpl; lia.
    + exists (map (λ k, (r + k, c - k)%nat) (range 4)). split.
      * do 3 (apply elem_of_app; right). apply elem_of_app; left.
        apply (window_in_grid (λ i j, map (λ k, (i + k, j - k)%nat) (range 4)));
          [apply lt_range; lia|].
        assert (c = 4 ∨ c = 3)%nat as [-> | ->] by lia;
          apply list_elem_of_In; simpl; tauto.
      * apply complete_four; simpl;
          [ apply (holds_cell_at _ _ _ _ _ H0)
          | apply (holds_cell_at _ _ _ _ _ H1)
          | apply (holds_cell_at _ _ _ _ _ H2)
          | apply (holds_cell_at _ _ _ _ _ H3) ]; simpl; lia.
  - exists [(r, c); (r, c + 1); (r + 1, c); (r + 1, c + 1)]%nat. split.
    + unfold scan_order. do 4 (apply elem_of_app; right).
      apply (window_in_grid
               (λ i j, [(i, j); (i, j + 1); (i + 1, j); (i + 1, j + 1)]%nat));
        apply lt_range; lia.
    + by apply complete_four.
Qed.

Lemma window_verdict_Some (st : state) (me o : cell) (w : list (nat * nat))
    (v : Z) :
  window_verdict st me o w = Some v →
  (complete st me w = true ∧ v = 1%Z)
  ∨ (complete st me w = false ∧ complete st o w = true ∧ v = (-1)%Z).
Proof.
  unfold window_verdict.
  destruct (complete st me w); [intros [= <-]; auto|].
  destruct (complete st o w); [intros [= <-]; auto|discriminate].
Qed.

Lemma window_verdict_None (st : state) (me o : cell) (w : list (nat * nat)) :
  window_verdict st me o w = None →
  complete st me w = false ∧ complete st o w = false.
Proof.
  unfold window_verdict.
  destruct (complete st me w); [discriminate|].
  destruct (complete st o w); [discriminate|auto].
Qed.

(** C3, amended: when both pieces complete a winning shape, [game_value]
    returns the verdict of the first completed window in scan order (rows
    top to bottom, then columns, then down-right and down-left diagonals,
    then 2x2 blocks): +1 if that window is the player's, -1 if it is the
    opponent's.  The player's test comes first only within one window. *)
Theorem game_value_first_completed_shape (self : TeekoPlayer) (st : state) :
  is_board st = true →
  has_winning_shape st (my_piece self) →
  has_winning_shape st (opponent_of (my_piece self)) →
  ∃ (n : nat) (w : list (nat * nat)),
    scan_order !! n = Some w
    ∧ (∀ m w', (m < n)%nat → scan_order !! m = Some w' →
         complete st (my_piece self) w' = false
         ∧ complete st (opponent_of (my_piece self)) w' = false)
    ∧ ((complete st (my_piece self) w = true ∧ game_value self st = 1%Z)
       ∨ (complete st (opponent_of (my_piece self)) w = true
          ∧ game_value self st = (-1)%Z)).
Proof.
  intros Hb Hme _.
  destruct (shape_in_scan_order st _ Hme) as (w0 & Hw0 & Hc0).
  destruct (for_return_first scan_order
              (window_verdict st (my_piece self) (opponent_of (my_piece self)))
              w0 Hw0) as (n & w & v & Hn & Hv & Hbefore & Hret).
  { unfold window_verdict. rewrite Hc0. discriminate. }
  exists n, w. split; [exact Hn|]. split.
  - intros m w' Hm Hw'. apply window_verdict_None. by apply (Hbefore m).
  - rewrite (game_value_scan_order self st Hb). unfold first_complete.
    rewrite Hret. simpl.
    apply window_verdict_Some in Hv as [[Hc ->] | (_ & Hc & ->)]; auto.
Qed.


Lemma both_rows_black_shape : has_winning_shape both_rows_board "b".
Proof.
  left. exists 1%nat, 0%nat, (0, 1)%Z. split; [in_steps|].
  intros k Hk. destruct k as [|[|[|[|k]]]]; [..|lia];
    (split; [vm_compute; intuition discriminate|reflexivity]).
Qed.

Lemma both_rows_red_shape : has_winning_shape both_rows_board "r".
Proof.
  left. exists 0%nat, 0%nat, (0, 1)%Z. split; [in_steps|].
  intros k Hk. destruct k as [|[|[|[|k]]]]; [..|lia];
    (split; [vm_compute; intuition discriminate|reflexivity]).
Qed.

Lemma game_value_first_completed_shape_witness :
  ∃ (n : nat) (w : list (nat * nat)),
    scan_order !! n = Some w
    ∧ (∀ m w', (m < n)%nat → scan_order !! m = Some w' →
         complete both_rows_board "b" w' = false
         ∧ complete both_rows_board "r" w' = false)
    ∧ ((complete both_rows_board "b" w = true
        ∧ game_value black_player both_rows_board = 1%Z)
       ∨ (complete both_rows_board "r" w = true
          ∧ game_value black_player both_rows_board = (-1)%Z)).
Proof.
  apply (game_value_first_completed_shape black_player both_rows_board).
  - reflexivity.
  - exact both_rows_black_shape.
  - exact both_rows_red_shape.
Defined.

(** On [both_rows_board] both pieces have a row of four, each piece is on
    four cells, and the black player's [game_value] is -1: the opponent's
    row is scanned first. *)
Lemma self_precedence_counterexample :
  ¬ (∀ (self : TeekoPlayer) (st : state),
       is_board st = true →
       my_piece self ∈ pieces →
       has_winning_shape st (my_piece self) →
       has_winning_shape st (opponent_of (my_piece self)) →
       game_value self st = 1%Z).
Proof.
  intros H.
  specialize (H black_player both_rows_board eq_refl).
  assert (game_value black_player both_rows_board = (-1)%Z) as Hv
    by reflexivity.
  rewrite Hv in H. 
  assert ((-1)%Z = 1%Z) as Habs; [|discriminate Habs].
  apply H.
  - apply list_elem_of_In; simpl; tauto.
  - exact both_rows_black_shape.
  - exact both_rows_red_shape.
Qed.

(** ** Successor generation *)

Lemma map_flat_map {A B C : Type} (f : B → C) (g : A → list B) (l : list A) :
  map f (flat_map g l) = flat_map (λ x, map f (g x)) l.
Proof.
  induction l as [|x l IH]; simpl; [reflexivity|].
  by rewrite map_app, IH.
Qed.

Lemma flat_map_bind {A B : Type} (g : A → list B) (l : list A) :
  flat_map g l = l ≫= g.
Proof. induction l as [|x l IH]; simpl; [reflexivity|]. by rewrite IH. Qed.

Lemma is_board_cells (st : state) :
  is_board st = true →
  ∃ c00 c01 c02 c03 c04 c10 c11 c12 c13 c14 c20 c21 c22 c23 c24
    c30 c31 c32 c33 c34 c40 c41 c42 c43 c44,
    st = [[c00; c01; c02; c03; c04]; [c10; c11; c12; c13; c14];
          [c20; c21; c22; c23; c24]; [c30; c31; c32; c33; c34];
          [c40; c41; c42; c43; c44]].
Proof.
  intros H.
  destruct (is_board_rows st H) as (r0 & r1 & r2 & r3 & r4 & ->).
  unfold is_board in H. simpl in H.
  repeat (apply andb_prop in H as [? H]).
  repeat match goal with
         | E : (length ?r =? 5)%nat = true |- _ =>
             apply Nat.eqb_eq in E;
             destruct r as [|? [|? [|? [|? [|? [|]]]]]]; try discriminate E;
             clear E
         end.
  repeat eexists.
Qed.

Lemma is_board_width (st : state) : is_board st = true → width st = 5%nat.
Proof.
  intros H. destruct (is_board_cells st H) as (?&?&?&?&?&?&?&?&?&?&?&?&?&?&?&?&?&?&?&?&?&?&?&?&?&->).
  reflexivity.
Qed.

Lemma board_cells_concat (st : state) :
  is_board st = true → map (λ '(i, j), cell_at st i j) positions = concat st.
Proof.
  intros H. destruct (is_board_cells st H) as (?&?&?&?&?&?&?&?&?&?&?&?&?&?&?&?&?&?&?&?&?&?&?&?&?&->).
  reflexivity.
Qed.

Lemma count_filter (l : list ascii) (p : ascii) :
  count l p = length (List.filter (λ c, Ascii.eqb c p) l).
Proof.
  unfold count. induction l as [|c l IH]; simpl; [reflexivity|].
  destruct (ascii_dec c p) as [->|Hne].
  - rewrite Ascii.eqb_refl. simpl. by rewrite IH.
  - destruct (Ascii.eqb_spec c p); [congruence|exact IH].
Qed.

Lemma empty_filter_cells (st : state) (l : list (nat * nat)) :
  length (List.filter (λ '(i, j), Ascii.eqb (cell_at st i j) " ") l)
  = length (List.filter (λ c, Ascii.eqb c " ")
              (map (λ '(i, j), cell_at st i j) l)).
Proof.
  induction l as [|[i j] l IH]; simpl; [reflexivity|].
  destruct (Ascii.eqb (cell_at st i j) " "); simpl; by rewrite IH.
Qed.

Lemma drop_successors (st : state) (p : cell) (rows cols : list nat) :
  flat_map (λ row_idx,
    flat_map (λ col_idx,
      if Ascii.eqb (cell_at st row_idx col_idx) " "
      then [set_cell st row_idx col_idx p] else []) cols) rows
  = map (λ '(i, j), set_cell st i j p)
      (List.filter (λ '(i, j), Ascii.eqb (cell_at st i j) " ")
         (flat_map (λ i, map (λ j, (i, j)) cols) rows)).
Proof.
  induction rows as [|i rows IH]; simpl; [reflexivity|].
  rewrite List.filter_app, map_app, <- IH. f_equal.
  clear. induction cols as [|j cols IH]; simpl; [reflexivity|].
  destruct (Ascii.eqb (cell_at st i j) " "); simpl; by rewrite IH.
Qed.

(** The drop phase: one successor per empty cell, in row-major order. *)
Lemma succ_drop (st : state) (p : cell) :
  is_board st = true → drop_phase st = true →
  succ st p = map (λ '(i, j), set_cell st i j p) (empty_cells st).
Proof.
  intros Hb Hd. unfold succ. rewrite Hd.
  rewrite (is_board_length st Hb), (is_board_width st Hb).
  apply drop_successors.
Qed.

Lemma empty_cells_count (st : state) :
  is_board st = true → length (empty_cells st) = count (concat st) " ".
Proof.
  intros Hb. unfold empty_cells.
  rewrite empty_filter_cells, (board_cells_concat st Hb).
  symmetry. apply count_filter.
Qed.

(** The move phase: one successor per pair of [move_pairs]. *)
Lemma succ_move (st : state) (p : cell) :
  drop_phase st = false →
  succ st p = map (λ '(src, dst), relocate st p src dst) (move_pairs st p).
Proof.
  intros Hd. unfold succ, move_pairs. rewrite Hd.
  rewrite map_flat_map. apply flat_map_ext. intros [x y].
  rewrite map_flat_map. apply flat_map_ext. intros [dx dy].
  destruct (free_target st _ _); reflexivity.
Qed.

Lemma piece_locs_spec (st : state) (p : cell) (x y : nat) :
  (x, y) ∈ piece_locs st p ↔ (x < 5)%nat ∧ (y < 5)%nat ∧ cell_at st x y = p.
Proof.
  unfold piece_locs. rewrite list_elem_of_In, in_flat_map. split.
  - intros (i & Hi & H). apply in_flat_map in H as (j & Hj & H).
    apply list_elem_of_In, range_lt in Hi, Hj.
    destruct (Ascii.eqb_spec (cell_at st i j) p) as [E|]; [|destruct H].
    destruct H as [[= <- <-]|[]]. auto.
  - intros (Hx & Hy & E). exists x. split; [by apply list_elem_of_In, lt_range|].
    apply in_flat_map. exists y. split; [by apply list_elem_of_In, lt_range|].
    rewrite E, Ascii.eqb_refl. by left.
Qed.

Lemma free_target_spec (st : state) (new_x new_y : Z) :
  is_board st = true →
  free_target st new_x new_y = true
  ↔ (0 ≤ new_x < 5)%Z ∧ (0 ≤ new_y < 5)%Z
    ∧ cell_at st (Z.to_nat new_x) (Z.to_nat new_y) = " ".
Proof.
  intros Hb. unfold free_target.
  rewrite (is_board_length st Hb), (is_board_width st Hb).
  rewrite !andb_true_iff, Ascii.eqb_eq, !Z.leb_le, !Z.ltb_lt. simpl. tauto.
Qed.

Lemma directions_spec (dx dy : Z) :
  (dx, dy) ∈ directions ↔ Z.max (Z.abs dx) (Z.abs dy) = 1%Z.
Proof.
  unfold directions. split.
  - intros H. pick_cases H; injection H as -> ->; reflexivity.
  - intros H.
    assert ((dx = -1 ∨ dx = 0 ∨ dx = 1) ∧ (dy = -1 ∨ dy = 0 ∨ dy = 1))%Z
      as [Hx Hy] by lia.
    apply list_elem_of_In. simpl.
    destruct Hx as [-> | [-> | ->]], Hy as [-> | [-> | ->]];
      first [discriminate H | tauto].
Qed.

Lemma move_pairs_spec (st : state) (p : cell) (src dst : nat * nat) :
  is_board st = true →
  (src, dst) ∈ move_pairs st p ↔ legal_relocation st p src dst.
Proof.
  intros Hb. destruct src as [x y], dst as [nx ny].
  unfold move_pairs, legal_relocation.
  remember directions as dirs eqn:Hdirs. simpl.
  rewrite list_elem_of_In, in_flat_map. split.
  - intros ([x' y'] & Hloc & H).
    apply in_flat_map in H as ([dx dy] & Hdir & H).
    apply list_elem_of_In in Hloc, Hdir. rewrite Hdirs in Hdir.
    apply piece_locs_spec in Hloc as (Hx & Hy & Hp).
    apply directions_spec in Hdir.
    destruct (free_target st _ _) eqn:Hfree; [|destruct H].
    apply (free_target_spec st _ _ Hb) in Hfree as (Bx & By & He).
    destruct H as [[= <- <- <- <-]|[]].
    repeat split; try assumption; lia.
  - intros (Hx & Hy & Hp & Hnx & Hny & He & Hdist).
    exists (x, y). split; [by apply list_elem_of_In, piece_locs_spec|].
    apply in_flat_map.
    exists ((Z.of_nat nx - Z.of_nat x)%Z, (Z.of_nat ny - Z.of_nat y)%Z).
    split; [rewrite Hdirs; by apply list_elem_of_In, directions_spec|].
    replace (Z.of_nat x + (Z.of_nat nx - Z.of_nat x))%Z with (Z.of_nat nx) by lia.
    replace (Z.of_nat y + (Z.of_nat ny - Z.of_nat y))%Z with (Z.of_nat ny) by lia.
    rewrite (proj2 (free_target_spec st _ _ Hb)), !Nat2Z.id; [by left|].
    rewrite !Nat2Z.id. repeat split; try assumption; lia.
Qed.

Lemma NoDup_positions : NoDup positions.
Proof. apply NoDup_ListNoDup. unfold positions. vm_compute.
  repeat (constructor; [simpl; intuition discriminate|]). constructor.
Qed.

Lemma NoDup_directions : NoDup directions.
Proof. apply NoDup_ListNoDup. unfold directions.
  repeat (constructor; [simpl; intuition discriminate|]). constructor.
Qed.

Lemma piece_locs_filter (st : state) (p : cell) :
  piece_locs st p
  = List.filter (λ '(i, j), Ascii.eqb (cell_at st i j) p) positions.
Proof.
  unfold piece_locs, positions.
  generalize (range 5) at 1 3 as cols. intros cols.
  induction (range 5) as [|i rows IH]; simpl; [reflexivity|].
  rewrite List.filter_app, <- IH. f_equal.
  clear. induction cols as [|j cols IH]; simpl; [reflexivity|].
  destruct (Ascii.eqb (cell_at st i j) p); simpl; by rewrite IH.
Qed.

Lemma NoDup_piece_locs (st : state) (p : cell) : NoDup (piece_locs st p).
Proof.
  rewrite piece_locs_filter. apply NoDup_ListNoDup, List.NoDup_filter.
  apply NoDup_ListNoDup, NoDup_positions.
Qed.

Lemma NoDup_empty_cells (st : state) : NoDup (empty_cells st).
Proof.
  apply NoDup_ListNoDup, List.NoDup_filter. apply NoDup_ListNoDup, NoDup_positions.
Qed.

Lemma NoDup_move_pairs (st : state) (p : cell) : NoDup (move_pairs st p).
Proof.
  unfold move_pairs. rewrite flat_map_bind.
  apply NoDup_bind; [| |apply NoDup_piece_locs].
  - intros [x1 y1] [x2 y2] pr _ _ H1 H2.
    rewrite <- flat_map_bind in H1, H2 || idtac.
    apply list_elem_of_In, in_flat_map in H1 as ([dx1 dy1] & _ & H1).
    apply list_elem_of_In, in_flat_map in H2 as ([dx2 dy2] & _ & H2).
    destruct (free_target st _ _); [|destruct H1].
    destruct (free_target st _ _); [|destruct H2].
    destruct H1 as [<-|[]]. destruct H2 as [[= -> ->]|[]]. reflexivity.
  - intros [x y] _. rewrite flat_map_bind.
    apply NoDup_bind; [| |apply NoDup_directions].
    + intros [dx1 dy1] [dx2 dy2] pr _ _ H1 H2.
      destruct (free_target st _ _) eqn:F1; [|by apply elem_of_nil in H1].
      destruct (free_target st _ _) eqn:F2 in H2; [|by apply elem_of_nil in H2].
      apply list_elem_of_singleton in H1, H2. subst pr.
      injection H2 as Hx Hy.
      unfold free_target in F1, F2.
      rewrite !andb_true_iff, !Z.leb_le in F1, F2.
      f_equal; lia.
    + intros [dx dy] _. destruct (free_target st _ _);
        [apply NoDup_singleton|apply NoDup_nil_2].
Qed.

(** C5, X12: on a 5x5 board [succ] returns, with fewer than 8 pieces, one
    successor per empty cell in row-major order (as many as the board has
    empty cells), and otherwise one successor per pair of a cell of the
    mover's piece and an empty cell of the board at Chebyshev distance 1;
    a piece on the corner (0, 0) can only go to (0, 1), (1, 0) or (1, 1):
    nothing leaves the board or wraps to row 4 or column 4. *)
Theorem succ_one_per_legal_move (st : state) (p : cell) :
  is_board st = true →
  ((total_pieces st < 8)%nat →
     succ st p = map (λ '(i, j), set_cell st i j p) (empty_cells st)
     ∧ length (succ st p) = count (concat st) " ")
  ∧ ((8 ≤ total_pieces st)%nat →
     succ st p = map (λ '(src, dst), relocate st p src dst) (move_pairs st p)
     ∧ length (succ st p) = length (move_pairs st p))
  ∧ NoDup (empty_cells st)
  ∧ NoDup (move_pairs st p)
  ∧ (∀ src dst, (src, dst) ∈ move_pairs st p ↔ legal_relocation st p src dst)
  ∧ (∀ dst, ((0, 0)%nat, dst) ∈ move_pairs st p →
       dst ∈ [(0, 1); (1, 0); (1, 1)]%nat).
Proof.
  intros Hb.
  split; [|split; [|split; [|split; [|split]]]].
  - intros Hlt.
    assert (drop_phase st = true) as Hd
      by (unfold drop_phase; by apply Nat.ltb_lt).
    split; [by apply succ_drop|].
    rewrite succ_drop, length_map by assumption. by apply empty_cells_count.
  - intros Hge.
    assert (drop_phase st = false) as Hd
      by (unfold drop_phase; apply Nat.ltb_ge; lia).
    split; [by apply succ_move|].
    rewrite succ_move, length_map by assumption. reflexivity.
  - apply NoDup_empty_cells.
  - apply NoDup_move_pairs.
  - intros src dst. by apply move_pairs_spec.
  - intros [nx ny] H. apply (move_pairs_spec st p _ _ Hb) in H.
    destruct H as (_ & _ & _ & Hnx & Hny & _ & Hd). simpl in *.
    assert ((nx = 0 ∨ nx = 1) ∧ (ny = 0 ∨ ny = 1) ∧ ¬ (nx = 0 ∧ ny = 0))%nat
      as ([-> | ->] & [-> | ->] & Hne) by lia;
      apply list_elem_of_In; simpl; tauto.
Qed.

Lemma succ_one_per_legal_move_witness :
  (8 ≤ total_pieces corner_board)%nat
  ∧ length (succ corner_board "b") = length (move_pairs corner_board "b")
  ∧ (∀ dst, ((0, 0)%nat, dst) ∈ move_pairs corner_board "b" →
       dst ∈ [(0, 1); (1, 0); (1, 1)]%nat).
Proof.
  pose proof (succ_one_per_legal_move corner_board "b" eq_refl)
    as (_ & Hmove & _ & _ & _ & Hcorner).
  assert (8 ≤ total_pieces corner_board)%nat as Hge by (vm_compute; lia).
  split; [exact Hge|]. split; [exact (proj2 (Hmove Hge))|exact Hcorner].
Defined.

(** ** Cell updates *)

Lemma is_board_row (st : state) (i : nat) :
  is_board st = true → (i < 5)%nat →
  ∃ row, st !! i = Some row ∧ length row = 5%nat.
Proof.
  intros Hb Hi. pose proof (is_board_length st Hb) as Hlen.
  destruct (lookup_lt_is_Some_2 st i ltac:(lia)) as [row Hrow].
  exists row. split; [exact Hrow|].
  unfold is_board in Hb. apply andb_prop in Hb as [_ Hb].
  rewrite forallb_forall in Hb. apply Nat.eqb_eq, Hb.
  apply list_elem_of_In, list_elem_of_lookup. by exists i.
Qed.

Lemma cell_at_set_cell_same (st : state) (i j : nat) (v : cell) :
  is_board st = true → (i < 5)%nat → (j < 5)%nat →
  cell_at (set_cell st i j v) i j = v.
Proof.
  intros Hb Hi Hj. destruct (is_board_row st i Hb Hi) as (row & Hrow & Hlen).
  unfold cell_at, set_cell, row_at.
  rewrite list_lookup_alter_eq, Hrow. simpl.
  rewrite list_lookup_insert_eq by lia. reflexivity.
Qed.

Lemma cell_at_set_cell_other (st : state) (i j i' j' : nat) (v : cell) :
  (i, j) ≠ (i', j') →
  cell_at (set_cell st i j v) i' j' = cell_at st i' j'.
Proof.
  intros Hne. unfold cell_at, set_cell, row_at.
  destruct (decide (i = i')) as [<-|Hi].
  - rewrite list_lookup_alter_eq. destruct (st !! i) as [row|]; simpl; [|reflexivity].
    rewrite list_lookup_insert_ne; [reflexivity|]. congruence.
  - rewrite list_lookup_alter_ne by exact Hi. reflexivity.
Qed.

Lemma is_board_set_cell (st : state) (i j : nat) (v : cell) :
  is_board st = true → is_board (set_cell st i j v) = true.
Proof.
  unfold is_board, set_cell. intros Hb. apply andb_prop in Hb as [Hlen Hrows].
  rewrite length_alter, Hlen. simpl.
  rewrite forallb_forall in *. intros row Hin.
  apply list_elem_of_In, list_elem_of_lookup in Hin as [k Hk].
  rewrite list_lookup_alter in Hk. destruct (decide (i = k)) as [<-|].
  - destruct (st !! i) as [row0|] eqn:E; simpl in Hk; [|discriminate].
    injection Hk as <-. rewrite length_insert. apply Hrows.
    apply list_elem_of_In, list_elem_of_lookup. by exists i.
  - apply Hrows. apply list_elem_of_In, list_elem_of_lookup. by exists k.
Qed.

Lemma set_cell_comm (st : state) (i j i' j' : nat) (v w : cell) :
  (i, j) ≠ (i', j') →
  set_cell (set_cell st i j v) i' j' w = set_cell (set_cell st i' j' w) i j v.
Proof.
  intros Hne. unfold set_cell. destruct (decide (i = i')) as [<-|Hi].
  - rewrite !list_alter_alter_eq. apply list_alter_ext; [|reflexivity].
    intros row _. simpl. apply list_insert_insert_ne. congruence.
  - apply list_alter_alter_ne. congruence.
Qed.

(** ** Loops with [break] *)

Lemma for_return_unique {A R : Type} (xs : list A) (body : A → option R)
    (x : A) (r : R) :
  x ∈ xs → body x = Some r → (∀ y, y ∈ xs → body y ≠ None → y = x) →
  for_return xs body = Some r.
Proof.
  induction xs as [|a xs IH]; intros Hx Hbx Hothers; [by apply elem_of_nil in Hx|].
  simpl. destruct (body a) as [r'|] eqn:Ha.
  - rewrite (Hothers a) in Ha; [congruence|by left|congruence].
  - apply elem_of_cons in Hx as [->|Hx]; [congruence|].
    apply IH; [exact Hx|exact Hbx|]. intros y Hy. apply Hothers. by right.
Qed.

(** After at least one iteration, a loop state that satisfies [stop] is the
    state of a loop that has ended. *)
Lemma for_break_app {A S : Type} (xs ys : list A) (body : A → S → S)
    (stop : S → bool) (s : S) :
  xs ≠ [] →
  for_break (xs ++ ys) body stop s
  = let s' := for_break xs body stop s in
    if stop s' then s' else for_break ys body stop s'.
Proof.
  revert s. induction xs as [|x xs IH]; intros s Hne; [done|].
  simpl. destruct (stop (body x s)) eqn:Hstop.
  - by rewrite Hstop.
  - destruct xs as [|x' xs]; [simpl; by rewrite Hstop|].
    by apply IH.
Qed.

(** Nested loops that both end with the same [break] test visit the cells
    in row-major order and stop together. *)
Lemma for_break_nested {S : Type} (rows cols : list nat)
    (body : nat → nat → S → S) (stop : S → bool) (s : S) :
  cols ≠ [] →
  for_break rows (λ i s, for_break cols (body i) stop s) stop s
  = for_break (flat_map (λ i, map (λ j, (i, j)) cols) rows)
      (λ '(i, j), body i j) stop s.
Proof.
  intros Hcols. revert s. induction rows as [|i rows IH]; intros s; [reflexivity|].
  simpl. rewrite for_break_app by (destruct cols; [done|discriminate]).
  assert (∀ s0, for_break (map (λ j, (i, j)) cols) (λ '(i, j), body i j) stop s0
                = for_break cols (body i) stop s0) as Hrow.
  { clear. induction cols as [|j cols IH]; intros s0; [reflexivity|].
    simpl. destruct (stop (body i j s0)); [reflexivity|apply IH]. }
  simpl. rewrite Hrow.
  destruct (stop (for_break cols (body i) stop s)); [reflexivity|apply IH].
Qed.

(** The scan of the move phase: [dest] and [source] end on the only cells
    that pass their tests. *)
Lemma for_break_tracks (l : list (nat * nat)) (D S : nat * nat → bool)
    (dst src : nat * nat) (ds : option (nat * nat) * option (nat * nat)) :
  (∀ x, x ∈ l → D x = true → x = dst) →
  (∀ x, x ∈ l → S x = true → x = src) →
  (ds.1 = None ∨ ds.1 = Some dst) →
  (ds.2 = None ∨ ds.2 = Some src) →
  let r :=
    for_break l
      (λ x ds, (if D x then Some x else ds.1, if S x then Some x else ds.2))
      (λ ds, bool_decide (is_Some ds.1) && bool_decide (is_Some ds.2)) ds in
  ((ds.1 = Some dst ∨ ∃ x, x ∈ l ∧ D x = true) → r.1 = Some dst)
  ∧ ((ds.2 = Some src ∨ ∃ x, x ∈ l ∧ S x = true) → r.2 = Some src).
Proof.
  revert ds. induction l as [|x l IH]; intros [d s] HD HS Hd Hs; simpl in *.
  - split; intros [H|(x & Hx & _)]; first [exact H | by apply elem_of_nil in Hx].
  - set (d1 := if D x then Some x else d).
    set (s1 := if S x then Some x else s).
    assert (d1 = None ∨ d1 = Some dst) as Hd1.
    { subst d1. destruct (D x) eqn:E; [right; f_equal; apply HD; [by left|exact E]|exact Hd]. }
    assert (s1 = None ∨ s1 = Some src) as Hs1.
    { subst s1. destruct (S x) eqn:E; [right; f_equal; apply HS; [by left|exact E]|exact Hs]. }
    assert ((d = Some dst ∨ ∃ y, y ∈ x :: l ∧ D y = true) →
            d1 = Some dst ∨ ∃ y, y ∈ l ∧ D y = true) as Hdstep.
    { intros [->|(y & Hy & Ey)].
      - left. subst d1. destruct (D x) eqn:E; [f_equal; apply HD; [by left|exact E]|reflexivity].
      - apply elem_of_cons in Hy as [->|Hy]; [|right; eauto].
        left. subst d1. rewrite Ey. f_equal. apply HD; [by left|exact Ey]. }
    assert ((s = Some src ∨ ∃ y, y ∈ x :: l ∧ S y = true) →
            s1 = Some src ∨ ∃ y, y ∈ l ∧ S y = true) as Hsstep.
    { intros [->|(y & Hy & Ey)].
      - left. subst s1. destruct (S x) eqn:E; [f_equal; apply HS; [by left|exact E]|reflexivity].
      - apply elem_of_cons in Hy as [->|Hy]; [|right; eauto].
        left. subst s1. rewrite Ey. f_equal. apply HS; [by left|exact Ey]. }
    destruct (bool_decide (is_Some d1) && bool_decide (is_Some s1)) eqn:Hboth.
    + apply andb_prop in Hboth as [B1 B2].
      apply bool_decide_eq_true in B1 as [? B1], B2 as [? B2]. simpl.
      split; intros _.
      * destruct Hd1 as [E|E]; [congruence|exact E].
      * destruct Hs1 as [E|E]; [congruence|exact E].
    + destruct (IH (d1, s1)) as [IHd IHs]; simpl; auto.
      * intros y Hy. apply HD. by right.
      * intros y Hy. apply HS. by right.
Qed.

Lemma for_break_ext {A S : Type} (xs : list A) (f g : A → S → S)
    (stop : S → bool) (s : S) :
  (∀ x s, f x s = g x s) → for_break xs f stop s = for_break xs g stop s.
Proof.
  intros H. revert s. induction xs as [|x xs IH]; intros s; simpl; [reflexivity|].
  rewrite H. destruct (stop (g x s)); [reflexivity|apply IH].
Qed.

Lemma for_return_nested {R : Type} (rows cols : list nat)
    (body : nat → nat → option R) :
  for_return rows (λ i, for_return cols (body i))
  = for_return (flat_map (λ i, map (λ j, (i, j)) cols) rows)
      (λ '(i, j), body i j).
Proof.
  rewrite for_return_flat_map. apply for_return_ext. intros i _.
  by rewrite for_return_map.
Qed.

Lemma positions_spec (i j : nat) :
  (i, j) ∈ positions ↔ (i < 5)%nat ∧ (j < 5)%nat.
Proof.
  unfold positions. rewrite list_elem_of_In, in_flat_map. split.
  - intros (i' & Hi & H). apply in_map_iff in H as (j' & [= <- <-] & Hj).
    apply list_elem_of_In, range_lt in Hi, Hj. auto.
  - intros [Hi Hj]. exists i. split; [by apply list_elem_of_In, lt_range|].
    apply in_map. by apply list_elem_of_In, lt_range.
Qed.

Lemma piece_not_empty (p : cell) : p ∈ pieces → p ≠ " ".
Proof. unfold pieces. intros H. pick_cases H; discriminate. Qed.

(** The drop phase: the first cell that differs is the cell of the drop. *)
Lemma translate_drop (self : TeekoPlayer) (st : state) (i j : nat) :
  is_board st = true → drop_phase st = true →
  my_piece self ≠ " " →
  (i < 5)%nat → (j < 5)%nat → cell_at st i j = " " →
  translate self st (set_cell st i j (my_piece self)) = [(i, j)].
Proof.
  intros Hb Hd Hp Hi Hj He. unfold translate. rewrite Hd.
  rewrite (for_return_nested (range 5) (range 5)
             (λ i0 j0,
                if negb (Ascii.eqb (cell_at st i0 j0)
                           (cell_at (set_cell st i j (my_piece self)) i0 j0))
                then Some [(i0, j0)] else None)).
  fold positions.
  rewrite (for_return_unique positions _ (i, j) [(i, j)]); [reflexivity| | |].
  - by apply positions_spec.
  - rewrite cell_at_set_cell_same, He by assumption.
    destruct (Ascii.eqb_spec " " (my_piece self)); [congruence|reflexivity].
  - intros [i' j'] _ H.
    destruct (decide ((i, j) = (i', j'))) as [E|Hne]; [by symmetry|].
    rewrite cell_at_set_cell_other, Ascii.eqb_refl in H by exact Hne.
    by destruct H.
Qed.

(** The move phase: [dest] is the cell that received the piece, [source]
    the cell that lost it. *)
Lemma translate_move (self : TeekoPlayer) (st : state) (src dst : nat * nat) :
  is_board st = true → drop_phase st = false →
  my_piece self ≠ " " →
  legal_relocation st (my_piece self) src dst →
  translate self st (relocate st (my_piece self) src dst) = [dst; src].
Proof.
  intros Hb Hd Hp (Hsx & Hsy & Hs & Hdx & Hdy & Hde & Hdist).
  destruct src as [x y], dst as [nx ny]. simpl in *.
  assert ((nx, ny) ≠ (x, y)) as Hne by (intros [= -> ->]; lia).
  set (chosen := relocate st (my_piece self) (x, y) (nx, ny)).
  assert (cell_at chosen nx ny = my_piece self) as Cdst.
  { unfold chosen, relocate. simpl.
    rewrite cell_at_set_cell_other by congruence.
    by apply cell_at_set_cell_same. }
  assert (cell_at chosen x y = " ") as Csrc.
  { unfold chosen, relocate. simpl.
    apply cell_at_set_cell_same; [by apply is_board_set_cell|assumption..]. }
  assert (∀ i j, (i, j) ≠ (nx, ny) → (i, j) ≠ (x, y) →
                 cell_at chosen i j = cell_at st i j) as Cother.
  { intros i j H1 H2. unfold chosen, relocate. simpl.
    rewrite !cell_at_set_cell_other by congruence. reflexivity. }
  unfold translate. rewrite Hd. fold chosen.
  rewrite for_break_nested by discriminate. fold positions.
  set (D := λ xy : nat * nat,
              let '(i, j) := xy in
              Ascii.eqb (cell_at st i j) " "
              && Ascii.eqb (cell_at chosen i j) (my_piece self)).
  set (S := λ xy : nat * nat,
              let '(i, j) := xy in
              Ascii.eqb (cell_at st i j) (my_piece self)
              && Ascii.eqb (cell_at chosen i j) " ").
  rewrite (for_break_ext positions _
             (λ xy ds, (if D xy then Some xy else ds.1,
                        if S xy then Some xy else ds.2)))
    by (by intros [i j] ds).
  pose proof (for_break_tracks positions D S (nx, ny) (x, y) (None, None))
    as Htr.
  cbv zeta in Htr. destruct Htr as [Hdest Hsource].
  - intros [i j] _ H. unfold D in H. apply andb_prop in H as [H1 H2].
    apply Ascii.eqb_eq in H1, H2.
    destruct (decide ((i, j) = (nx, ny))) as [E|N1]; [exact E|].
    destruct (decide ((i, j) = (x, y))) as [[= -> ->]|N2]; [congruence|].
    rewrite Cother in H2 by assumption. congruence.
  - intros [i j] _ H. unfold S in H. apply andb_prop in H as [H1 H2].
    apply Ascii.eqb_eq in H1, H2.
    destruct (decide ((i, j) = (x, y))) as [E|N2]; [exact E|].
    destruct (decide ((i, j) = (nx, ny))) as [[= -> ->]|N1]; [congruence|].
    rewrite Cother in H2 by assumption. congruence.
  - by left.
  - by left.
  - assert (∃ xy, xy ∈ positions ∧ S xy = true) as HS.
    { exists (x, y). split; [by apply positions_spec|].
      unfold S. by rewrite Hs, Csrc, !Ascii.eqb_refl. }
    assert (∃ xy, xy ∈ positions ∧ D xy = true) as HD.
    { exists (nx, ny). split; [by apply positions_spec|].
      unfold D. by rewrite Hde, Cdst, !Ascii.eqb_refl. }
    specialize (Hdest (or_intror HD)). specialize (Hsource (or_intror HS)).
    revert Hdest Hsource.
    destruct (for_break positions _ _ _) as [d s]. simpl.
    by intros -> ->.
Qed.


(** ** Move translation *)

(** C8, X13: for a 5x5 state and any successor of it for the player's piece (a
    drop on an empty cell with fewer than 8 pieces, a one-step relocation
    otherwise), [place_piece] applied to the original board with the move
    that [make_move] derives from the chosen state gives the chosen state,
    cell for cell. *)
Theorem translate_place_piece_roundtrip
    (self : TeekoPlayer) (st chosen : state) :
  is_board st = true →
  my_piece self ∈ pieces →
  chosen ∈ succ st (my_piece self) →
  board (place_piece (with_board self st) (translate self st chosen)
           (my_piece self))
  = chosen.
Proof.
  intros Hb Hme Hchosen. pose proof (piece_not_empty _ Hme) as Hp.
  destruct (drop_phase st) eqn:Hd.
  - rewrite succ_drop in Hchosen by assumption.
    apply list_elem_of_In, in_map_iff in Hchosen as ([i j] & <- & Hin).
    apply filter_In in Hin as [Hin He].
    apply list_elem_of_In, positions_spec in Hin as [Hi Hj].
    apply Ascii.eqb_eq in He.
    rewrite translate_drop by assumption. reflexivity.
  - rewrite succ_move in Hchosen by assumption.
    apply list_elem_of_In, in_map_iff in Hchosen as ([src dst] & <- & Hin).
    apply list_elem_of_In, (move_pairs_spec st _ _ _ Hb) in Hin.
    rewrite translate_move by assumption.
    destruct Hin as (_ & _ & _ & _ & _ & _ & Hdist).
    destruct src as [x y], dst as [nx ny]. simpl in *.
    unfold relocate. simpl. apply set_cell_comm. intros [= -> ->]. lia.
Qed.

Lemma translate_place_piece_roundtrip_witness :
  board (place_piece (with_board black_player empty_board)
           (translate black_player empty_board (set_cell empty_board 2 2 "b"))
           "b")
  = set_cell empty_board 2 2 "b".
Proof.
  apply (translate_place_piece_roundtrip black_player empty_board).
  - reflexivity.
  - apply list_elem_of_In; simpl; tauto.
  - apply list_elem_of_In. vm_compute. tauto.
Defined.

(** ** More on the terminal test *)

Lemma game_value_range (self : TeekoPlayer) (st : state) :
  is_board st = true →
  (game_value self st = 1 ∨ game_value self st = 0 ∨ game_value self st = -1)%Z.
Proof.
  intros Hb. unfold game_value.
  destruct (_ ;;; _) as [v|] eqn:E; simpl; [|auto].
  destruct (scans_sound _ _ _ Hb E) as [[-> | ->] _]; auto.
Qed.

Lemma game_value_shape (self : TeekoPlayer) (st : state) (v : Z) :
  is_board st = true → game_value self st = v → v ≠ 0%Z →
  has_winning_shape st (winner (my_piece self) v).
Proof.
  intros Hb Hv Hnz. unfold game_value in Hv.
  destruct (_ ;;; _) as [v'|] eqn:E; simpl in Hv; [|congruence].
  subst v'. exact (proj2 (scans_sound _ _ _ Hb E)).
Qed.

Lemma shape_gives_verdict (self : TeekoPlayer) (st : state) (p : cell) :
  is_board st = true →
  p = my_piece self ∨ p = opponent_of (my_piece self) →
  has_winning_shape st p → game_value self st ≠ 0%Z.
Proof.
  intros Hb Hp Hshape.
  destruct (shape_in_scan_order st p Hshape) as (w & Hw & Hc).
  destruct (for_return_first scan_order
              (window_verdict st (my_piece self) (opponent_of (my_piece self)))
              w Hw) as (n & w' & v & _ & Hv & _ & Hret).
  { unfold window_verdict. destruct Hp as [-> | ->]; rewrite Hc;
      [discriminate|destruct (complete st (my_piece self) w); discriminate]. }
  rewrite (game_value_scan_order self st Hb). unfold first_complete.
  rewrite Hret. simpl.
  apply window_verdict_Some in Hv as [[_ ->] | (_ & _ & ->)]; discriminate.
Qed.

(** X1: [game_value] is 0 exactly on the boards without a winning shape, +1 when
    only the player has one and -1 when only the opponent has one. *)
Theorem game_value_complete (self : TeekoPlayer) (st : state) :
  is_board st = true →
  (game_value self st = 0%Z
   ↔ ¬ has_winning_shape st (my_piece self)
     ∧ ¬ has_winning_shape st (opponent_of (my_piece self)))
  ∧ (has_winning_shape st (my_piece self) →
     ¬ has_winning_shape st (opponent_of (my_piece self)) →
     game_value self st = 1%Z)
  ∧ (has_winning_shape st (opponent_of (my_piece self)) →
     ¬ has_winning_shape st (my_piece self) →
     game_value self st = (-1)%Z).
Proof.
  intros Hb.
  pose proof (game_value_range self st Hb) as Hr.
  pose proof (game_value_shape self st 1 Hb) as H1.
  pose proof (game_value_shape self st (-1) Hb) as Hm1.
  simpl in H1, Hm1.
  split; [split|split].
  - intros H0. split; intros Hs.
    + apply (shape_gives_verdict self st _ Hb (or_introl eq_refl)) in Hs. auto.
    + apply (shape_gives_verdict self st _ Hb (or_intror eq_refl)) in Hs. auto.
  - intros [Hme Ho]. destruct Hr as [E | [E | E]]; [|exact E|].
    + destruct Hme. apply H1; [exact E|discriminate].
    + destruct Ho. apply Hm1; [exact E|discriminate].
  - intros Hme Ho.
    pose proof (shape_gives_verdict self st _ Hb (or_introl eq_refl) Hme).
    destruct Hr as [E | [E | E]]; [exact E|contradiction|].
    destruct Ho. apply Hm1; [exact E|discriminate].
  - intros Ho Hme.
    pose proof (shape_gives_verdict self st _ Hb (or_intror eq_refl) Ho).
    destruct Hr as [E | [E | E]]; [|contradiction|exact E].
    destruct Hme. apply H1; [exact E|discriminate].
Qed.

Lemma game_value_complete_witness :
  game_value black_player black_row_board = 1%Z.
Proof.
  apply (game_value_complete black_player black_row_board eq_refl).
  - left. exists 0%nat, 0%nat, (0, 1)%Z. split; [in_steps|].
    intros k Hk. destruct k as [|[|[|[|k]]]]; [..|lia];
      (split; [vm_compute; intuition discriminate|reflexivity]).
  - intros Hs. apply shape_in_scan_order in Hs as (w & Hw & Hc).
    revert w Hw Hc. apply (Forall_forall (λ w, complete black_row_board "r" w = true → False)).
    vm_compute. repeat (constructor; [discriminate|]). constructor.
Defined.

(** ** The two sides of the board *)

Lemma opponent_of_ne (p : cell) : opponent_of p ≠ p.
Proof.
  unfold opponent_of. destruct (Ascii.eqb_spec p "b") as [->|Hne];
    [discriminate|congruence].
Qed.

Lemma opponent_of_involutive (p : cell) :
  p ∈ pieces → opponent_of (opponent_of p) = p.
Proof. unfold pieces. intros H. pick_cases H; reflexivity. Qed.

Lemma all4_exclusive (f : nat → cell) (p q : cell) :
  p ≠ q → all4 f p = true → all4 f q = false.
Proof.
  intros Hne Hp. destruct (all4 f q) eqn:Hq; [|reflexivity].
  apply all4_cells in Hp as [Hp _]. apply all4_cells in Hq as [Hq _].
  congruence.
Qed.

Lemma line_verdict_swap (me o : cell) (f : nat → cell) :
  me ≠ o → line_verdict o me f = Z.opp <$> line_verdict me o f.
Proof.
  intros Hne. unfold line_verdict.
  destruct (all4 f me) eqn:Hme.
  - by rewrite (all4_exclusive f me o Hne Hme).
  - destruct (all4 f o); reflexivity.
Qed.

Lemma square_verdict_swap (me o : cell) (st : state) (i j : nat) :
  me ≠ o →
  square_verdict o me st i j = Z.opp <$> square_verdict me o st i j.
Proof.
  intros Hne. unfold square_verdict.
  destruct (_ && _); [|reflexivity].
  destruct (Ascii.eqb_spec (cell_at st i j) me) as [E|N1];
    destruct (Ascii.eqb_spec (cell_at st i j) o) as [E'|N2];
    try reflexivity. congruence.
Qed.

Lemma for_return_fmap {A R : Type} (g : R → R) (xs : list A)
    (body : A → option R) :
  for_return xs (λ x, g <$> body x) = g <$> for_return xs body.
Proof.
  induction xs as [|x xs IH]; simpl; [reflexivity|].
  destruct (body x); simpl; [reflexivity|exact IH].
Qed.

Lemma or_else_fmap {R : Type} (g : R → R) (a b : option R) :
  (g <$> a) ;;; (g <$> b) = g <$> (a ;;; b).
Proof. destruct a; reflexivity. Qed.

Ltac swap_scan lemma :=
  erewrite for_return_ext;
    [|intros ? _; erewrite for_return_ext;
        [|intros ? _; apply lemma; assumption];
      apply for_return_fmap];
  apply for_return_fmap.

Lemma scans_swap (me o : cell) (st : state) :
  me ≠ o →
  horizontal_scan o me st = Z.opp <$> horizontal_scan me o st
  ∧ vertical_scan o me st = Z.opp <$> vertical_scan me o st
  ∧ down_right_scan o me st = Z.opp <$> down_right_scan me o st
  ∧ down_left_scan o me st = Z.opp <$> down_left_scan me o st
  ∧ square_scan o me st = Z.opp <$> square_scan me o st.
Proof.
  intros Hne.
  unfold horizontal_scan, vertical_scan, down_right_scan, down_left_scan,
    square_scan.
  repeat split.
  - swap_scan line_verdict_swap.
  - swap_scan line_verdict_swap.
  - swap_scan line_verdict_swap.
  - swap_scan line_verdict_swap.
  - swap_scan square_verdict_swap.
Qed.

Lemma game_value_swap_sign (self : TeekoPlayer) (st : state) :
  my_piece self ∈ pieces →
  game_value (swap_sides self) st = (- game_value self st)%Z.
Proof.
  intros Hme. unfold game_value, swap_sides. simpl.
  rewrite (opponent_of_involutive _ Hme).
  assert (my_piece self ≠ opponent_of (my_piece self)) as Hne
    by (intros E; by apply (opponent_of_ne (my_piece self))).
  destruct (scans_swap (my_piece self) (opponent_of (my_piece self)) st Hne)
    as (-> & -> & -> & -> & ->).
  rewrite !or_else_fmap. destruct (_ ;;; _); reflexivity.
Qed.

(** X2: seen from the other side the verdict changes sign: the two players
    never both read a board as won, or both as lost. *)
Theorem game_value_swap_sides (self : TeekoPlayer) (st : state) :
  my_piece self ∈ pieces →
  game_value (swap_sides self) st = (- game_value self st)%Z.
Proof. apply game_value_swap_sign. Qed.

Lemma game_value_swap_sides_witness :
  game_value (swap_sides black_player) black_row_board
  = (- game_value black_player black_row_board)%Z.
Proof.
  apply game_value_swap_sides. apply list_elem_of_In; simpl; tauto.
Defined.

(** ** The heuristic *)

Lemma owner_swap (c me o : cell) (w : Q) :
  me ≠ o →
  ((if Ascii.eqb c o then w else if Ascii.eqb c me then - w else 0)
   == - (if Ascii.eqb c me then w else if Ascii.eqb c o then - w else 0))%Q.
Proof.
  intros Hne.
  destruct (Ascii.eqb_spec c me) as [E1|N1];
    destruct (Ascii.eqb_spec c o) as [E2|N2]; try congruence; ring.
Qed.

Lemma center_bonus_swap (st : state) (me o : cell) :
  me ≠ o → (center_bonus st o me == - center_bonus st me o)%Q.
Proof.
  intros Hne. unfold center_bonus. simpl.
  rewrite !(owner_swap _ me o) by exact Hne. ring.
Qed.

(** X3: the evaluation is zero-sum: seen from the other side it changes sign. *)
Theorem heuristic_swap_sides (self : TeekoPlayer) (st : state) :
  my_piece self ∈ pieces →
  (heuristic_game_value (swap_sides self) st
   == - heuristic_game_value self st)%Q.
Proof.
  intros Hme. unfold heuristic_game_value.
  rewrite (game_value_swap_sign self st Hme).
  destruct (Z.eqb_spec (game_value self st) 0) as [E|N].
  - rewrite E. simpl.
    change (if Ascii.eqb (opponent_of (my_piece self)) "b" then "r" else "b")
      with (opponent_of (opponent_of (my_piece self))).
    rewrite (opponent_of_involutive _ Hme).
    change (if Ascii.eqb (my_piece self) "b" then "r" else "b")
      with (opponent_of (my_piece self)).
    rewrite center_bonus_swap; [ring|].
    intros E'. by apply (opponent_of_ne (my_piece self)).
  - destruct (Z.eqb_spec (- game_value self st) 0) as [E'|_]; [lia|].
    simpl. unfold inject_Z, Qopp, Qeq. simpl. lia.
Qed.

Lemma heuristic_swap_sides_witness :
  (heuristic_game_value (swap_sides black_player) corner_board
   == - heuristic_game_value black_player corner_board)%Q.
Proof.
  apply heuristic_swap_sides. apply list_elem_of_In; simpl; tauto.
Defined.

(** ** Rational comparisons *)

Lemma Qltb_lt (x y : Q) : Qltb x y = true ↔ (x < y)%Q.
Proof.
  unfold Qltb. rewrite negb_true_iff. split.
  - intros H. apply Qnot_le_lt. intros Hle.
    apply Qle_bool_iff in Hle. congruence.
  - intros H. destruct (Qle_bool y x) eqn:E; [|reflexivity].
    apply Qle_bool_iff in E. lra.
Qed.

Lemma Qltb_ge (x y : Q) : Qltb x y = false ↔ (y <= x)%Q.
Proof. unfold Qltb. rewrite negb_false_iff. apply Qle_bool_iff. Qed.

Lemma qmin_spec (a b : Q) :
  (qmin a b <= a)%Q ∧ (qmin a b <= b)%Q ∧ (qmin a b == a ∨ qmin a b == b)%Q.
Proof.
  unfold qmin. destruct (Qltb b a) eqn:E.
  - apply Qltb_lt in E. repeat split; lra.
  - apply Qltb_ge in E. repeat split; lra.
Qed.

Lemma qmax_spec (a b : Q) :
  (a <= qmax a b)%Q ∧ (b <= qmax a b)%Q ∧ (qmax a b == a ∨ qmax a b == b)%Q.
Proof.
  unfold qmax. destruct (Qltb a b) eqn:E.
  - apply Qltb_lt in E. repeat split; lra.
  - apply Qltb_ge in E. repeat split; lra.
Qed.

Lemma nQ_nonneg (n : nat) : (0 <= nQ n)%Q.
Proof. unfold nQ, Qle. simpl. lia. Qed.

(** X4: scores of 4-cell windows: a line scores between -0.6 and 0.75, a square
    between -0.4 and 0.9, and a window without the other piece never scores
    below 0. *)
Theorem window_scores_bounded (window : list cell) (subject other : cell) :
  length window = 4%nat →
  subject ≠ other → subject ≠ " " → other ≠ " " →
  (-0.6 <= evaluate_line window subject other <= 0.75)%Q
  ∧ (-0.4 <= evaluate_square window subject other <= 0.9)%Q
  ∧ (count window other = 0%nat →
     (0 <= evaluate_line window subject other)%Q
     ∧ (0 <= evaluate_square window subject other)%Q).
Proof.
  intros Hlen Hso Hs Ho.
  pose proof (count_three_distinct window subject other " " Hso Hs Ho) as Hsum.
  rewrite Hlen in Hsum.
  assert (-0.6 <= evaluate_line window subject other <= 0.75
          ∧ (count window other = 0%nat →
             0 <= evaluate_line window subject other))%Q as Hline.
  { unfold evaluate_line.
    destruct (count window subject) as [|[|[|[|m]]]];
      destruct (count window other) as [|[|[|[|o]]]];
      destruct (count window " ") as [|[|[|[|e]]]];
      try lia; vm_compute; intuition discriminate. }
  assert (-0.4 <= evaluate_square window subject other <= 0.9
          ∧ (count window other = 0%nat →
             0 <= evaluate_square window subject other))%Q as Hsquare.
  { destruct window as [|a [|b [|c [|d [|]]]]]; try discriminate Hlen.
    unfold evaluate_square.
    destruct (_ && _) eqn:Hmixed.
    - apply andb_prop in Hmixed as [_ Hopp]. apply Nat.ltb_lt in Hopp.
      match goal with |- context [qmax ?x ?y] =>
        pose proof (qmax_spec x y) as (M1 & M2 & M3) end.
      match goal with |- context [qmin ?x ?y] =>
        pose proof (qmin_spec x y) as (N1 & N2 & N3) end.
      split; [|lia]. split; [lra|].
      destruct M3 as [M3|M3]; rewrite M3; lra.
    - match goal with |- context [qmin ?x ?y] =>
        pose proof (qmin_spec x y) as (N1 & N2 & N3) end.
      assert (0 <= 0.0 + (if Ascii.eqb a subject && Ascii.eqb b subject then 0.22 else 0)
                + (if Ascii.eqb c subject && Ascii.eqb d subject then 0.22 else 0)
                + (if Ascii.eqb a subject && Ascii.eqb c subject then 0.22 else 0)
                + (if Ascii.eqb b subject && Ascii.eqb d subject then 0.22 else 0)
                + (if Ascii.eqb a subject && Ascii.eqb d subject then 0.28 else 0)
                + (if Ascii.eqb b subject && Ascii.eqb c subject then 0.28 else 0)
                + 0.10 * nQ (count [a; b; c; d] subject)
                + 0.05 * nQ (count [a; b; c; d] " "))%Q as Hnn.
      { pose proof (nQ_nonneg (count [a; b; c; d] subject)).
        pose proof (nQ_nonneg (count [a; b; c; d] " ")).
        repeat match goal with
               | |- context [if ?t then _ else _] => destruct t
               end; lra. }
      split; [split; [|lra]|intros _];
        (destruct N3 as [N3|N3]; rewrite N3; lra). }
  tauto.
Qed.

Lemma window_scores_bounded_witness :
  (-0.6 <= evaluate_line ["r"; "r"; "r"; "b"] "b" "r" <= 0.75)%Q.
Proof.
  apply (window_scores_bounded ["r"; "r"; "r"; "b"] "b" "r");
    first [reflexivity | discriminate].
Defined.

(** ** Buckets *)

Lemma insert_sorted_perm (x : Q) (l : list Q) :
  Permutation (x :: l) (insert_sorted x l).
Proof.
  induction l as [|y l IH]; simpl; [reflexivity|].
  destruct (Qle_bool x y); [reflexivity|].
  rewrite <- IH. apply Permutation_swap.
Qed.

Lemma sorted_perm (l : list Q) : Permutation l (sorted l).
Proof.
  induction l as [|x l IH]; simpl; [reflexivity|].
  rewrite <- insert_sorted_perm. by constructor.
Qed.

Lemma insert_sorted_ascending (x : Q) (l : list Q) :
  StronglySorted Qle l → StronglySorted Qle (insert_sorted x l).
Proof.
  induction 1 as [|y l Hl IH Hy]; simpl; [repeat constructor|].
  destruct (Qle_bool x y) eqn:E.
  - apply Qle_bool_iff in E. constructor; [by constructor|].
    constructor; [exact E|].
    eapply Forall_impl; [exact Hy|]. intros z Hz. simpl in Hz. lra.
  - assert (y <= x)%Q as Hyx.
    { destruct (Qlt_le_dec y x) as [H|H]; [lra|].
      apply Qle_bool_iff in H. congruence. }
    constructor; [exact IH|].
    apply Forall_forall. intros z Hz.
    rewrite <- insert_sorted_perm in Hz.
    apply elem_of_cons in Hz as [->|Hz]; [exact Hyx|].
    rewrite Forall_forall in Hy. by apply Hy.
Qed.

Lemma sorted_ascending (l : list Q) : StronglySorted Qle (sorted l).
Proof.
  induction l as [|x l IH]; simpl; [constructor|].
  by apply insert_sorted_ascending.
Qed.

(** X5: [top_two_sum] returns the largest score of the bucket and the largest
    of the others; a missing score counts 0. *)
Theorem top_two_sum_largest (bucket_list : list Q) :
  (bucket_list = [] → top_two_sum bucket_list = (0.0, 0.0)%Q)
  ∧ (∀ x, bucket_list = [x] → top_two_sum bucket_list = (x, 0.0%Q))
  ∧ ((2 ≤ length bucket_list)%nat →
     ∃ rest,
       Permutation bucket_list
         ((top_two_sum bucket_list).1 :: (top_two_sum bucket_list).2 :: rest)
       ∧ ((top_two_sum bucket_list).2 <= (top_two_sum bucket_list).1)%Q
       ∧ ∀ x, x ∈ rest → (x <= (top_two_sum bucket_list).2)%Q).
Proof.
  split; [|split].
  - intros ->. reflexivity.
  - intros x ->. reflexivity.
  - intros Hlen.
    pose proof (sorted_perm bucket_list) as Hperm.
    pose proof (sorted_ascending bucket_list) as Hasc.
    unfold top_two_sum.
    destruct (rev (sorted bucket_list)) as [|top [|second rest]] eqn:Hrev.
    + apply (f_equal (@length Q)) in Hrev. rewrite length_rev in Hrev.
      apply Permutation_length in Hperm. simpl in Hrev. lia.
    + apply (f_equal (@length Q)) in Hrev. rewrite length_rev in Hrev.
      apply Permutation_length in Hperm. simpl in Hrev. lia.
    + simpl. exists rest.
      assert (sorted bucket_list = rev rest ++ [second; top]) as Hs.
      { rewrite <- (rev_involutive (sorted bucket_list)), Hrev. simpl.
        by rewrite <- !app_assoc. }
      rewrite Hs in Hasc. apply StronglySorted_app in Hasc as (Hcross & _ & Htail).
      split; [|split].
      * rewrite Hperm, <- (rev_involutive (sorted bucket_list)), Hrev.
        symmetry. apply Permutation_rev.
      * apply StronglySorted_inv in Htail as [_ Htail].
        by apply Forall_inv in Htail.
      * intros x Hx. apply (Hcross x second); [|by left].
        apply list_elem_of_In, in_rev. rewrite rev_involutive.
        by apply list_elem_of_In.
Qed.

Lemma top_two_sum_largest_witness :
  ∃ rest,
    Permutation [0.25; 0.75; 0.5]%Q
      ((top_two_sum [0.25; 0.75; 0.5]%Q).1
       :: (top_two_sum [0.25; 0.75; 0.5]%Q).2 :: rest)
    ∧ ((top_two_sum [0.25; 0.75; 0.5]%Q).2
       <= (top_two_sum [0.25; 0.75; 0.5]%Q).1)%Q
    ∧ ∀ x, x ∈ rest → (x <= (top_two_sum [0.25; 0.75; 0.5]%Q).2)%Q.
Proof.
  apply (proj2 (proj2 (top_two_sum_largest [0.25; 0.75; 0.5]%Q))).
  simpl. lia.
Defined.

(** ** Moves of the opponent *)

Lemma valid_bounds (len : nat) (i : Z) :
  valid len i = true ↔ (- Z.of_nat len ≤ i < Z.of_nat len)%Z.
Proof. unfold valid. rewrite andb_true_iff, Z.leb_le, Z.ltb_lt. tauto. Qed.

Lemma named_lt (len : nat) (i : Z) :
  valid len i = true → (named len i < len)%nat.
Proof.
  intros H. apply valid_bounds in H. unfold named.
  destruct (Z.ltb_spec i 0); lia.
Qed.

Lemma named_mod (len : nat) (i : Z) :
  valid len i = true → named len i = Z.to_nat (i mod Z.of_nat len).
Proof.
  intros H. apply valid_bounds in H. unfold named.
  destruct (Z.ltb_spec i 0).
  - f_equal. apply Z.mod_unique with (q := (-1)%Z); lia.
  - rewrite Z.mod_small by lia. reflexivity.
Qed.

Lemma named_mod5 (i : Z) :
  valid 5 i = true → named 5 i = Z.to_nat (i mod 5).
Proof. apply (named_mod 5). Qed.

Lemma named_nonneg (len : nat) (i : Z) :
  (0 ≤ i)%Z → named len i = Z.to_nat i.
Proof. intros H. unfold named. destruct (Z.ltb_spec i 0); [lia|reflexivity]. Qed.

Lemma cell_named_board (b : state) (row col : Z) :
  is_board b = true → valid 5 row = true →
  cell_named b (row, col) = (named 5 row, named 5 col).
Proof.
  intros Hb Hrow. unfold cell_named. simpl.
  rewrite (is_board_length b Hb).
  destruct (is_board_row b _ Hb (named_lt 5 row Hrow)) as (r & Hr & Hlen).
  rewrite Hr. simpl. by rewrite Hlen.
Qed.

Lemma board_get_cell_at (b : state) (row col : Z) :
  is_board b = true → valid 5 row = true → valid 5 col = true →
  board_get b row col = Some (cell_at b (named 5 row) (named 5 col)).
Proof.
  intros Hb Hrow Hcol. unfold board_get, subscript.
  rewrite (is_board_length b Hb), Hrow.
  destruct (is_board_row b _ Hb (named_lt 5 row Hrow)) as (r & Hr & Hlen).
  rewrite Hr. simpl. rewrite Hlen, Hcol.
  unfold cell_at, row_at. rewrite Hr. simpl.
  destruct (lookup_lt_is_Some_2 r (named 5 col)) as [c Hc];
    [rewrite Hlen; by apply named_lt|].
  by rewrite Hc.
Qed.

Lemma board_get_Some (b : state) (row col : Z) (c : cell) :
  is_board b = true → board_get b row col = Some c →
  valid 5 row = true ∧ valid 5 col = true
  ∧ cell_at b (named 5 row) (named 5 col) = c.
Proof.
  intros Hb H.
  assert (valid 5 row = true) as Hrow.
  { unfold board_get, subscript in H. rewrite (is_board_length b Hb) in H.
    by destruct (valid 5 row). }
  assert (valid 5 col = true) as Hcol.
  { unfold board_get, subscript in H.
    rewrite (is_board_length b Hb), Hrow in H.
    destruct (is_board_row b _ Hb (named_lt 5 row Hrow)) as (r & Hr & Hlen).
    rewrite Hr in H. simpl in H. rewrite Hlen in H.
    by destruct (valid 5 col). }
  rewrite (board_get_cell_at b row col Hb Hrow Hcol) in H.
  injection H as <-. auto.
Qed.

Lemma far_false (a b : Z) : far a b = false ↔ (Z.abs (a - b) ≤ 1)%Z.
Proof. unfold far. rewrite Z.ltb_ge. reflexivity. Qed.

(** What an accepted placement did. *)
Lemma opponent_place_accepts (self self' : TeekoPlayer) (dst : Z * Z)
    (more : list (Z * Z)) :
  is_board (board self) = true →
  opponent_place self (dst :: more) = inr self' →
  valid 5 dst.1 = true ∧ valid 5 dst.2 = true
  ∧ cell_at (board self) (named 5 dst.1) (named 5 dst.2) = " "
  ∧ self' = place_piece self
              ((named 5 dst.1, named 5 dst.2)
               :: map (cell_named (board self)) more) (opp self).
Proof.
  intros Hb H. destruct dst as [row col]. unfold opponent_place in H.
  destruct (board_get (board self) row col) as [c|] eqn:Hget; [|discriminate].
  destruct (Ascii.eqb_spec c " ") as [->|]; [|discriminate].
  cbn [negb] in H.
  assert (self' = place_piece self
                    (map (cell_named (board self)) ((row, col) :: more))
                    (opp self)) as -> by congruence.
  apply (board_get_Some _ _ _ _ Hb) in Hget as (Hrow & Hcol & He).
  cbn [map fst snd]. rewrite (cell_named_board _ row col Hb Hrow). auto.
Qed.

(** What an accepted relocation did. *)
Lemma opponent_move_accepts (self self' : TeekoPlayer) (dst src : Z * Z) :
  is_board (board self) = true →
  opponent_move self [dst; src] = inr self' →
  (valid 5 src.1 = true ∧ valid 5 src.2 = true
   ∧ valid 5 dst.1 = true ∧ valid 5 dst.2 = true)
  ∧ cell_at (board self) (named 5 src.1) (named 5 src.2) = opp self
  ∧ cell_at (board self) (named 5 dst.1) (named 5 dst.2) = " "
  ∧ (Z.abs (src.1 - dst.1) ≤ 1)%Z ∧ (Z.abs (src.2 - dst.2) ≤ 1)%Z
  ∧ self' = with_board self
              (set_cell
                 (set_cell (board self) (named 5 src.1) (named 5 src.2) " ")
                 (named 5 dst.1) (named 5 dst.2) (opp self)).
Proof.
  intros Hb H. destruct dst as [row col], src as [srow scol].
  unfold opponent_move in H. cbn [length Nat.ltb Nat.leb] in H.
  destruct (board_get (board self) srow scol) as [c|] eqn:Hs; [|discriminate].
  destruct (Ascii.eqb_spec c (opp self)) as [->|]; [|discriminate].
  cbn [negb] in H.
  destruct (far srow row) eqn:F1; [discriminate|].
  destruct (far scol col) eqn:F2; [discriminate|]. cbn [orb] in H.
  apply (opponent_place_accepts _ _ _ _ Hb) in H as (Hrow & Hcol & Hd & ->).
  apply (board_get_Some _ _ _ _ Hb) in Hs as (Hsrow & Hscol & Hs).
  apply far_false in F1, F2. cbn [fst snd map] in *.
  rewrite (cell_named_board _ srow scol Hb Hsrow).
  repeat split; auto.
Qed.

(** X6: [opponent_move] accepts a relocation [[dest, source]] exactly when
    the four subscripts are valid ones of the 5x5 board (from -5 to 4, the
    negative ones counting from the end), the cell [source] names holds the
    opponent's piece, the cell [dest] names is empty, and the subscripts
    differ by at most 1 in each coordinate.  The board is then the relocated
    board.  For non-negative subscripts that is exactly a legal relocation,
    and in the move phase the new board is one of the successors the search
    generates for the opponent; a negative subscript lets a piece jump, as
    from row 0 to row -1, which is row 4. *)
Theorem opponent_move_relocation (self : TeekoPlayer) (dst src : Z * Z) :
  is_board (board self) = true →
  opp self ∈ pieces →
  ((∃ self', opponent_move self [dst; src] = inr self')
   ↔ ((-5 ≤ src.1 < 5)%Z ∧ (-5 ≤ src.2 < 5)%Z
      ∧ (-5 ≤ dst.1 < 5)%Z ∧ (-5 ≤ dst.2 < 5)%Z)
     ∧ cell_at (board self) (named 5 src.1) (named 5 src.2) = opp self
     ∧ cell_at (board self) (named 5 dst.1) (named 5 dst.2) = " "
     ∧ (Z.abs (src.1 - dst.1) ≤ 1)%Z ∧ (Z.abs (src.2 - dst.2) ≤ 1)%Z)
  ∧ (∀ self', opponent_move self [dst; src] = inr self' →
       self' = with_board self
                 (relocate (board self) (opp self)
                    (named 5 src.1, named 5 src.2)
                    (named 5 dst.1, named 5 dst.2)))
  ∧ ((0 ≤ src.1)%Z → (0 ≤ src.2)%Z → (0 ≤ dst.1)%Z → (0 ≤ dst.2)%Z →
     ((∃ self', opponent_move self [dst; src] = inr self')
      ↔ legal_relocation (board self) (opp self)
          (Z.to_nat src.1, Z.to_nat src.2) (Z.to_nat dst.1, Z.to_nat dst.2))
     ∧ (∀ self', opponent_move self [dst; src] = inr self' →
          (8 ≤ total_pieces (board self))%nat →
          board self' ∈ succ (board self) (opp self))).
Proof.
  intros Hb Hopp. pose proof (piece_not_empty _ Hopp) as Hne.
  assert ((∃ self', opponent_move self [dst; src] = inr self')
          ↔ ((-5 ≤ src.1 < 5)%Z ∧ (-5 ≤ src.2 < 5)%Z
             ∧ (-5 ≤ dst.1 < 5)%Z ∧ (-5 ≤ dst.2 < 5)%Z)
            ∧ cell_at (board self) (named 5 src.1) (named 5 src.2) = opp self
            ∧ cell_at (board self) (named 5 dst.1) (named 5 dst.2) = " "
            ∧ (Z.abs (src.1 - dst.1) ≤ 1)%Z ∧ (Z.abs (src.2 - dst.2) ≤ 1)%Z)
    as Hiff.
  { split.
    - intros [self' H].
      apply (opponent_move_accepts _ _ _ _ Hb) in H
        as ((V1 & V2 & V3 & V4) & Hs & Hd & D1 & D2 & _).
      apply (valid_bounds 5) in V1, V2, V3, V4. simpl in *. auto 10.
    - intros ((V1 & V2 & V3 & V4) & Hs & Hd & D1 & D2).
      apply (valid_bounds 5) in V1, V2, V3, V4.
      destruct dst as [row col], src as [srow scol]. simpl in *.
      eexists. unfold opponent_move, opponent_place.
      cbn [length Nat.ltb Nat.leb].
      rewrite (board_get_cell_at _ _ _ Hb V1 V2), Hs, Ascii.eqb_refl.
      cbn [negb].
      rewrite (proj2 (far_false srow row)), (proj2 (far_false scol col))
        by assumption.
      cbn [orb].
      rewrite (board_get_cell_at _ _ _ Hb V3 V4), Hd. reflexivity. }
  assert (∀ self', opponent_move self [dst; src] = inr self' →
            self' = with_board self
                      (relocate (board self) (opp self)
                         (named 5 src.1, named 5 src.2)
                         (named 5 dst.1, named 5 dst.2))) as Hboard.
  { intros self' H.
    apply (opponent_move_accepts _ _ _ _ Hb) in H
      as (_ & Hs & Hd & _ & _ & ->).
    unfold relocate. simpl. f_equal. apply set_cell_comm.
    intros E. injection E as E1 E2. rewrite E1, E2 in Hs. congruence. }
  split; [exact Hiff|]. split; [exact Hboard|].
  intros P1 P2 P3 P4.
  assert ((∃ self', opponent_move self [dst; src] = inr self')
          ↔ legal_relocation (board self) (opp self)
              (Z.to_nat src.1, Z.to_nat src.2)
              (Z.to_nat dst.1, Z.to_nat dst.2)) as Hlegal.
  { rewrite Hiff. rewrite !named_nonneg by assumption.
    unfold legal_relocation. simpl. split.
    - intros ((V1 & V2 & V3 & V4) & Hs & Hd & D1 & D2).
      assert ((Z.to_nat dst.1, Z.to_nat dst.2)
              ≠ (Z.to_nat src.1, Z.to_nat src.2)) as Hdiff
        by (intros [= E1 E2]; rewrite E1, E2 in Hd; congruence).
      repeat split; try assumption; try lia.
      assert (Z.to_nat dst.1 ≠ Z.to_nat src.1 ∨ Z.to_nat dst.2 ≠ Z.to_nat src.2)
        by (destruct (decide (Z.to_nat dst.1 = Z.to_nat src.1));
            [right|left]; congruence).
      lia.
    - intros (S1 & S2 & Hs & D1 & D2 & Hd & Hdist).
      repeat split; try assumption; lia. }
  split; [exact Hlegal|].
  intros self' H Hge. rewrite (Hboard self' H). simpl.
  rewrite !named_nonneg by assumption.
  rewrite succ_move by (unfold drop_phase; apply Nat.ltb_ge; lia).
  apply list_elem_of_In, in_map_iff.
  exists ((Z.to_nat src.1, Z.to_nat src.2), (Z.to_nat dst.1, Z.to_nat dst.2)).
  split; [reflexivity|].
  apply list_elem_of_In, (move_pairs_spec _ _ _ _ Hb), Hlegal. eauto.
Qed.

Lemma opponent_move_relocation_witness :
  ∃ self', opponent_move red_to_move [(-1, 2); (0, 2)]%Z = inr self'.
Proof.
  assert (opp red_to_move ∈ pieces) as Hopp
    by (apply list_elem_of_In; simpl; tauto).
  apply (proj1 (opponent_move_relocation red_to_move (-1, 2)%Z (0, 2)%Z
                  eq_refl Hopp)).
  simpl. repeat split; first [lia | reflexivity].
Defined.

(** X7: [opponent_move] accepts a placement [[(row, col)]] exactly when
    [row] and [col] are valid subscripts of the 5x5 board (from -5 to 4, the
    negative ones counting from the end) and the cell they name, row
    [row mod 5] and column [col mod 5], is empty.  The opponent's piece is
    then on that cell.  The number of pieces is not looked at, so a placement
    is also accepted after the drop phase. *)
Theorem opponent_move_placement (self : TeekoPlayer) (dst : Z * Z) :
  is_board (board self) = true →
  ((∃ self', opponent_move self [dst] = inr self')
   ↔ (-5 ≤ dst.1 < 5)%Z ∧ (-5 ≤ dst.2 < 5)%Z
     ∧ cell_at (board self) (Z.to_nat (dst.1 mod 5)) (Z.to_nat (dst.2 mod 5))
       = " ")
  ∧ (∀ self', opponent_move self [dst] = inr self' →
       self' = with_board self
                 (set_cell (board self) (Z.to_nat (dst.1 mod 5))
                    (Z.to_nat (dst.2 mod 5)) (opp self))
       ∧ ((total_pieces (board self) < 8)%nat →
          board self' ∈ succ (board self) (opp self))).
Proof.
  intros Hb.
  assert (∀ self', opponent_move self [dst] = inr self' →
            (valid 5 dst.1 = true ∧ valid 5 dst.2 = true)
            ∧ cell_at (board self) (named 5 dst.1) (named 5 dst.2) = " "
            ∧ self' = with_board self
                        (set_cell (board self) (named 5 dst.1)
                           (named 5 dst.2) (opp self))) as Hacc.
  { intros self' H. unfold opponent_move in H.
    cbn [length Nat.ltb Nat.leb] in H.
    apply (opponent_place_accepts _ _ _ _ Hb) in H as (V1 & V2 & Hd & ->).
    auto. }
  split; [split|].
  - intros [self' H]. destruct (Hacc self' H) as ((V1 & V2) & Hd & _).
    rewrite (named_mod5 _ V1), (named_mod5 _ V2) in Hd.
    apply (valid_bounds 5) in V1, V2. auto.
  - intros (V1 & V2 & Hd). apply (valid_bounds 5) in V1, V2.
    rewrite <- (named_mod5 _ V1), <- (named_mod5 _ V2) in Hd.
    destruct dst as [row col]. simpl in *.
    eexists. unfold opponent_move, opponent_place.
    cbn [length Nat.ltb Nat.leb].
    rewrite (board_get_cell_at _ _ _ Hb V1 V2), Hd. reflexivity.
  - intros self' H. destruct (Hacc self' H) as ((V1 & V2) & Hd & ->).
    rewrite <- (named_mod5 _ V1), <- (named_mod5 _ V2).
    split; [reflexivity|]. intros Hlt. simpl.
    rewrite succ_drop by (try assumption; unfold drop_phase; by apply Nat.ltb_lt).
    apply list_elem_of_In, in_map_iff.
    exists (named 5 dst.1, named 5 dst.2). split; [reflexivity|].
    apply filter_In. split.
    + apply list_elem_of_In, positions_spec. split; by apply named_lt.
    + by rewrite Hd.
Qed.

Lemma opponent_move_placement_witness :
  ∃ self', opponent_move red_to_move [(-1, 2)%Z] = inr self'.
Proof.
  apply (proj1 (opponent_move_placement red_to_move (-1, 2)%Z eq_refl)).
  simpl. repeat split; first [lia | reflexivity].
Defined.

(** ** What the search returns *)

Section SearchResult.

Variable heuristic : TeekoPlayer → state → Q.
Variable successors_of : state → cell → list state.
Variable self : TeekoPlayer.

(** A loop that has a best state keeps having one, from the list or the one
    it had, with a value the recursive calls returned. *)
Lemma max_loop_keeps (eval : state → value → value → value) (beta : value)
    (successors : list state) (q : Q) (s : state) (alpha : value) :
  (∀ c a b, ∃ q', eval c a b = Fin q') →
  ∃ q' s', max_loop eval beta successors (Fin q) (Some s) alpha
           = (Fin q', Some s')
           ∧ (s' = s ∨ s' ∈ successors).
Proof.
  intros Hfin. revert q s alpha.
  induction successors as [|c rest IH]; intros q s alpha; cbn [max_loop].
  - exists q, s. auto.
  - destruct (Hfin c alpha beta) as [qc ->].
    destruct (vlt (Fin q) (Fin qc)); cbn beta iota zeta.
    + destruct (vge _ beta).
      * exists qc, c. split; [reflexivity|right; by left].
      * destruct (IH qc c (vmax alpha (Fin qc))) as (q' & s' & -> & Hs').
        exists q', s'. split; [reflexivity|].
        right. destruct Hs' as [->|Hs']; [by left|by right].
    + destruct (vge _ beta).
      * exists q, s. auto.
      * destruct (IH q s (vmax alpha (Fin q))) as (q' & s' & -> & Hs').
        exists q', s'. split; [reflexivity|].
        destruct Hs' as [->|Hs']; [by left|right; by right].
Qed.

Lemma min_loop_keeps (eval : state → value → value → value) (alpha : value)
    (successors : list state) (q : Q) (s : state) (beta : value) :
  (∀ c a b, ∃ q', eval c a b = Fin q') →
  ∃ q' s', min_loop eval alpha successors (Fin q) (Some s) beta
           = (Fin q', Some s')
           ∧ (s' = s ∨ s' ∈ successors).
Proof.
  intros Hfin. revert q s beta.
  induction successors as [|c rest IH]; intros q s beta; cbn [min_loop].
  - exists q, s. auto.
  - destruct (Hfin c alpha beta) as [qc ->].
    destruct (vlt (Fin qc) (Fin q)); cbn beta iota zeta.
    + destruct (vge alpha _).
      * exists qc, c. split; [reflexivity|right; by left].
      * destruct (IH qc c (vmin beta (Fin qc))) as (q' & s' & -> & Hs').
        exists q', s'. split; [reflexivity|].
        right. destruct Hs' as [->|Hs']; [by left|by right].
    + destruct (vge alpha _).
      * exists q, s. auto.
      * destruct (IH q s (vmin beta (Fin q))) as (q' & s' & -> & Hs').
        exists q', s'. split; [reflexivity|].
        destruct Hs' as [->|Hs']; [by left|right; by right].
Qed.

(** From -inf and no state, the first successor is always taken. *)
Lemma max_loop_starts (eval : state → value → value → value) (beta : value)
    (c : state) (rest : list state) (alpha : value) :
  (∀ c a b, ∃ q', eval c a b = Fin q') →
  ∃ q' s', max_loop eval beta (c :: rest) NegInf None alpha = (Fin q', Some s')
           ∧ s' ∈ c :: rest.
Proof.
  intros Hfin. cbn [max_loop]. destruct (Hfin c alpha beta) as [qc ->].
  change (vlt NegInf (Fin qc)) with true. cbn beta iota zeta.
  destruct (vge _ beta).
  - exists qc, c. split; [reflexivity|by left].
  - destruct (max_loop_keeps eval beta rest qc c (vmax alpha (Fin qc)) Hfin)
      as (q' & s' & -> & Hs').
    exists q', s'. split; [reflexivity|].
    destruct Hs' as [->|Hs']; [by left|by right].
Qed.

Lemma min_loop_starts (eval : state → value → value → value) (alpha : value)
    (c : state) (rest : list state) (beta : value) :
  (∀ c a b, ∃ q', eval c a b = Fin q') →
  ∃ q' s', min_loop eval alpha (c :: rest) PosInf None beta = (Fin q', Some s')
           ∧ s' ∈ c :: rest.
Proof.
  intros Hfin. cbn [min_loop]. destruct (Hfin c alpha beta) as [qc ->].
  change (vlt (Fin qc) PosInf) with true. cbn beta iota zeta.
  destruct (vge alpha _).
  - exists qc, c. split; [reflexivity|by left].
  - destruct (min_loop_keeps eval alpha rest qc c (vmin beta (Fin qc)) Hfin)
      as (q' & s' & -> & Hs').
    exists q', s'. split; [reflexivity|].
    destruct Hs' as [->|Hs']; [by left|by right].
Qed.

Lemma minimax_from_result (remaining : nat) (st : state) (depth : nat)
    (alpha beta : value) :
  ∃ q s,
    minimax_from heuristic successors_of self remaining st depth alpha beta
    = (Fin q, Some s)
    ∧ (s = st ∨ s ∈ successors_of st (mover_at self depth))
    ∧ (game_value self st = 0%Z → remaining ≠ 0%nat →
       successors_of st (mover_at self depth) ≠ [] →
       s ∈ successors_of st (mover_at self depth)).
Proof.
  revert st depth alpha beta.
  induction remaining as [|remaining IH]; intros st depth alpha beta;
    cbn [minimax_from]; cbv zeta.
  - destruct (Z.eqb_spec (game_value self st) 0) as [E|N]; cbn [negb];
      eexists _, st; (split; [reflexivity|]); split; auto; congruence.
  - destruct (Z.eqb_spec (game_value self st) 0) as [E|N]; cbn [negb];
      [|eexists _, st; (split; [reflexivity|]); split; auto; congruence].
    assert (∀ c a b, ∃ q',
              fst (minimax_from heuristic successors_of self remaining c
                     (depth + 1) a b) = Fin q') as Hfin.
    { intros c a b. destruct (IH c (depth + 1)%nat a b) as (q & s & -> & _).
      by exists q. }
    unfold mover_at.
    change (if Ascii.eqb (my_piece self) "b" then "r" else "b")
      with (opponent_of (my_piece self)).
    destruct (depth mod 2 =? 0)%nat.
    + destruct (successors_of st (my_piece self)) as [|c rest] eqn:Hs.
      * eexists _, st. split; [reflexivity|]. split; auto. congruence.
      * destruct (max_loop_starts _ beta c rest alpha Hfin)
          as (q' & s' & -> & Hs').
        exists q', s'. split; [reflexivity|]. split; auto.
    + destruct (successors_of st (opponent_of (my_piece self)))
        as [|c rest] eqn:Hs.
      * eexists _, st. split; [reflexivity|]. split; auto. congruence.
      * destruct (min_loop_starts _ alpha c rest beta Hfin)
          as (q' & s' & -> & Hs').
        exists q', s'. split; [reflexivity|]. split; auto.
Qed.

End SearchResult.

(** X8: [minimax] always returns a finite value and a state, never [None] (as
    its comments say): the state is the input state at a terminal state, at
    the depth limit or without successors, and otherwise one of the
    successors of the input state for the mover at this depth. *)
Theorem minimax_returns_a_state
    (heuristic : TeekoPlayer → state → Q)
    (successors_of : state → cell → list state)
    (self : TeekoPlayer) (st : state) (depth : nat) (alpha beta : value) :
  ∃ q s,
    minimax heuristic successors_of self st depth alpha beta = (Fin q, Some s)
    ∧ (s = st ∨ s ∈ successors_of st (mover_at self depth))
    ∧ (game_value self st = 0%Z → (depth < max_depth self)%nat →
       successors_of st (mover_at self depth) ≠ [] →
       s ∈ successors_of st (mover_at self depth)).
Proof.
  unfold minimax.
  destruct (minimax_from_result heuristic successors_of self
              (max_depth self - depth) st depth alpha beta)
    as (q & s & E & H1 & H2).
  exists q, s. split; [exact E|]. split; [exact H1|].
  intros Hg Hd. apply H2; [exact Hg|lia].
Qed.

(** ** [make_move] returns a legal move *)

Lemma filter_split_length {A : Type} (f : A → bool) (l : list A) :
  (length (List.filter f l) + length (List.filter (λ x, negb (f x)) l)
   = length l)%nat.
Proof.
  induction l as [|x l IH]; simpl; [reflexivity|].
  destruct (f x); simpl; lia.
Qed.

Lemma board_cell_count (st : state) :
  is_board st = true → (total_pieces st + count (concat st) " " = 25)%nat.
Proof.
  intros Hb. unfold total_pieces. rewrite count_filter.
  rewrite Nat.add_comm, filter_split_length.
  destruct (is_board_cells st Hb) as (?&?&?&?&?&?&?&?&?&?&?&?&?&?&?&?&?&?&?&?&?&?&?&?&?&->).
  reflexivity.
Qed.

(** In the drop phase there is always a successor. *)
Lemma succ_drop_nonempty (st : state) (p : cell) :
  is_board st = true → (total_pieces st < 8)%nat → succ st p ≠ [].
Proof.
  intros Hb Hlt Hnil. apply (f_equal (@length _)) in Hnil.
  rewrite succ_drop, length_map, (empty_cells_count st Hb) in Hnil
    by (try assumption; unfold drop_phase; by apply Nat.ltb_lt).
  pose proof (board_cell_count st Hb). simpl in Hnil. lia.
Qed.

Lemma search_depth_positive (st : state) : (0 < search_depth st)%nat.
Proof.
  unfold search_depth.
  destruct (drop_phase st); [|lia].
  destruct (total_pieces st <=? 4)%nat; [lia|].
  destruct (total_pieces st <=? 6)%nat; lia.
Qed.

(** The state [make_move] translates is a successor of the input state. *)
Lemma make_move_chosen (self : TeekoPlayer) (st : state) :
  game_value self st = 0%Z →
  succ st (my_piece self) ≠ [] →
  ∃ chosen, chosen ∈ succ st (my_piece self)
            ∧ make_move self st = translate self st chosen.
Proof.
  intros Hg Hne. unfold make_move, minimax.
  destruct (minimax_from_result heuristic_game_value succ
              (with_max_depth self (search_depth st))
              (max_depth (with_max_depth self (search_depth st)) - 0)
              st 0 NegInf PosInf) as (q & s & E & _ & Hs).
  rewrite E. exists s. split; [|reflexivity].
  apply Hs; [exact Hg| |exact Hne].
  simpl. pose proof (search_depth_positive st). lia.
Qed.

(** X9: on a 5x5 board without a winner, [make_move] returns a legal move of
    the player: with fewer than 8 pieces, one empty cell; otherwise, if some
    piece of the player can move, a legal relocation [dest, source].
    Applying it with [place_piece] gives a successor of the board. *)
Theorem make_move_legal (self : TeekoPlayer) (st : state) :
  is_board st = true →
  my_piece self ∈ pieces →
  game_value self st = 0%Z →
  ((8 ≤ total_pieces st)%nat → succ st (my_piece self) ≠ []) →
  board (place_piece (with_board self st) (make_move self st) (my_piece self))
  ∈ succ st (my_piece self)
  ∧ ((total_pieces st < 8)%nat →
     ∃ i j, make_move self st = [(i, j)]
            ∧ (i < 5)%nat ∧ (j < 5)%nat ∧ cell_at st i j = " ")
  ∧ ((8 ≤ total_pieces st)%nat →
     ∃ src dst, make_move self st = [dst; src]
                ∧ legal_relocation st (my_piece self) src dst).
Proof.
  intros Hb Hme Hg Hmove. pose proof (piece_not_empty _ Hme) as Hp.
  destruct (drop_phase st) eqn:Hd.
  - assert (total_pieces st < 8)%nat as Hlt
      by (unfold drop_phase in Hd; by apply Nat.ltb_lt in Hd).
    destruct (make_move_chosen self st Hg (succ_drop_nonempty st _ Hb Hlt))
      as (chosen & Hin & ->).
    pose proof Hin as Hin'.
    rewrite succ_drop in Hin' by assumption.
    apply list_elem_of_In, in_map_iff in Hin' as ([i j] & <- & Hcell).
    apply filter_In in Hcell as [Hpos He].
    apply list_elem_of_In, positions_spec in Hpos as [Hi Hj].
    apply Ascii.eqb_eq in He.
    rewrite translate_drop by assumption.
    split; [exact Hin|]. split; [|lia].
    intros _. exists i, j. auto.
  - assert (8 ≤ total_pieces st)%nat as Hge
      by (unfold drop_phase in Hd; apply Nat.ltb_ge in Hd; lia).
    destruct (make_move_chosen self st Hg (Hmove Hge)) as (chosen & Hin & ->).
    pose proof Hin as Hin'.
    rewrite succ_move in Hin' by assumption.
    apply list_elem_of_In, in_map_iff in Hin' as ([src dst] & <- & Hpair).
    apply list_elem_of_In, (move_pairs_spec st _ _ _ Hb) in Hpair.
    rewrite translate_move by assumption.
    split; [|split; [lia|]].
    + replace (board (place_piece (with_board self st) [dst; src] (my_piece self)))
        with (relocate st (my_piece self) src dst); [exact Hin|].
      destruct Hpair as (_ & _ & _ & _ & _ & _ & Hdist).
      destruct src as [x y], dst as [nx ny]. simpl in *.
      unfold relocate. simpl. symmetry. apply set_cell_comm.
      intros [= -> ->]. lia.
    + intros _. exists src, dst. auto.
Qed.

Lemma make_move_legal_witness :
  board (place_piece (with_board black_player black_start_board)
           (make_move black_player black_start_board) "b")
  ∈ succ black_start_board "b".
Proof.
  apply (make_move_legal black_player black_start_board).
  - reflexivity.
  - apply list_elem_of_In; simpl; tauto.
  - reflexivity.
  - vm_compute. lia.
Defined.

(** ** Pieces are conserved *)



Lemma count_app (l1 l2 : list cell) (q : cell) :
  count (l1 ++ l2) q = (count l1 q + count l2 q)%nat.
Proof. apply count_occ_app. Qed.

Lemma count_insert (l : list cell) (j : nat) (c v q : cell) :
  l !! j = Some c →
  (count (<[j := v]> l) q + (if Ascii.eqb c q then 1 else 0)
   = count l q + (if Ascii.eqb v q then 1 else 0))%nat.
Proof.
  revert j. induction l as [|x l IH]; intros j Hj; [discriminate|].
  destruct j as [|j]; simpl in *.
  - injection Hj as ->. unfold count. simpl.
    destruct (ascii_dec c q) as [->|N1], (ascii_dec v q) as [->|N2];
      rewrite ?Ascii.eqb_refl;
      repeat match goal with
             | |- context [Ascii.eqb ?a ?b] =>
                 destruct (Ascii.eqb_spec a b); try congruence
             end; lia.
  - specialize (IH j Hj). unfold count in *. simpl.
    destruct (ascii_dec x q); lia.
Qed.

Lemma count_concat_alter (st : state) (i : nat) (row : list cell)
    (f : list cell → list cell) (q : cell) :
  st !! i = Some row →
  (count (concat (alter f i st)) q + count row q
   = count (concat st) q + count (f row) q)%nat.
Proof.
  revert i. induction st as [|r st IH]; intros i Hi; [discriminate|].
  destruct i as [|i]; simpl in Hi.
  - injection Hi as ->. change (alter f 0%nat (row :: st)) with (f row :: st).
    simpl. rewrite !count_app. lia.
  - specialize (IH i Hi).
    change (alter f (S i) (r :: st)) with (r :: alter f i st).
    simpl. rewrite !count_app. lia.
Qed.

(** Writing [v] over a cell moves one occurrence from the old value to [v]. *)
Lemma count_set_cell (st : state) (i j : nat) (v q : cell) :
  is_board st = true → (i < 5)%nat → (j < 5)%nat →
  (count (concat (set_cell st i j v)) q
   + (if Ascii.eqb (cell_at st i j) q then 1 else 0)
   = count (concat st) q + (if Ascii.eqb v q then 1 else 0))%nat.
Proof.
  intros Hb Hi Hj. destruct (is_board_row st i Hb Hi) as (row & Hrow & Hlen).
  destruct (lookup_lt_is_Some_2 row j ltac:(lia)) as [c Hc].
  assert (cell_at st i j = c) as ->
    by (unfold cell_at, row_at; rewrite Hrow; simpl; by rewrite Hc).
  unfold set_cell.
  pose proof (count_concat_alter st i row (λ r, <[j := v]> r) q Hrow).
  pose proof (count_insert row j c v q Hc). lia.
Qed.

Lemma total_pieces_count (st : state) :
  is_board st = true → (total_pieces st = 25 - count (concat st) " ")%nat.
Proof. intros Hb. pose proof (board_cell_count st Hb). lia. Qed.

(** X10: every successor is a 5x5 board.  A drop adds one piece of the mover
    and changes no other count; a move changes no count at all. *)
Theorem succ_conserves_pieces (st : state) (p : cell) (s : state) :
  is_board st = true → p ≠ " " → s ∈ succ st p →
  is_board s = true
  ∧ ((total_pieces st < 8)%nat →
     total_pieces s = (total_pieces st + 1)%nat
     ∧ count (concat s) p = (count (concat st) p + 1)%nat
     ∧ ∀ q, q ≠ p → q ≠ " " → count (concat s) q = count (concat st) q)
  ∧ ((8 ≤ total_pieces st)%nat →
     ∀ q, count (concat s) q = count (concat st) q).
Proof.
  intros Hb Hp Hs.
  destruct (drop_phase st) eqn:Hd.
  - assert (total_pieces st < 8)%nat as Hlt
      by (unfold drop_phase in Hd; by apply Nat.ltb_lt in Hd).
    rewrite succ_drop in Hs by assumption.
    apply list_elem_of_In, in_map_iff in Hs as ([i j] & <- & Hcell).
    apply filter_In in Hcell as [Hpos He].
    apply list_elem_of_In, positions_spec in Hpos as [Hi Hj].
    apply Ascii.eqb_eq in He.
    pose proof (is_board_set_cell st i j p Hb) as Hb'.
    split; [exact Hb'|]. split; [|lia]. intros _.
    assert (∀ q, count (concat (set_cell st i j p)) q
                 + (if Ascii.eqb " " q then 1 else 0)
                 = count (concat st) q + (if Ascii.eqb p q then 1 else 0))%nat
      as Hcount.
    { intros q. rewrite <- He. by apply count_set_cell. }
    split; [|split].
    + rewrite (total_pieces_count _ Hb'), (total_pieces_count _ Hb).
      pose proof (board_cell_count st Hb).
      specialize (Hcount " "). rewrite Ascii.eqb_refl in Hcount.
      destruct (Ascii.eqb_spec p " "); [congruence|]. lia.
    + specialize (Hcount p). rewrite Ascii.eqb_refl in Hcount.
      destruct (Ascii.eqb_spec " " p); [congruence|]. lia.
    + intros q Hqp Hq. specialize (Hcount q).
      destruct (Ascii.eqb_spec " " q); [congruence|].
      destruct (Ascii.eqb_spec p q); [congruence|]. lia.
  - assert (8 ≤ total_pieces st)%nat as Hge
      by (unfold drop_phase in Hd; apply Nat.ltb_ge in Hd; lia).
    rewrite succ_move in Hs by assumption.
    apply list_elem_of_In, in_map_iff in Hs as ([src dst] & <- & Hpair).
    apply list_elem_of_In, (move_pairs_spec st _ _ _ Hb) in Hpair.
    destruct Hpair as (Hx & Hy & Hsrc & Hnx & Hny & Hdst & Hdist).
    destruct src as [x y], dst as [nx ny]. simpl in *.
    unfold relocate. simpl.
    pose proof (is_board_set_cell st nx ny p Hb) as Hb1.
    split; [by apply is_board_set_cell|]. split; [lia|]. intros _ q.
    pose proof (count_set_cell st nx ny p q Hb Hnx Hny) as H1.
    pose proof (count_set_cell (set_cell st nx ny p) x y " " q Hb1 Hx Hy) as H2.
    rewrite cell_at_set_cell_other in H2 by (intros [= -> ->]; lia).
    rewrite Hdst in H1. rewrite Hsrc in H2. lia.
Qed.

Lemma succ_conserves_pieces_witness :
  is_board (set_cell empty_board 2 2 "b") = true.
Proof.
  apply (succ_conserves_pieces empty_board "b" (set_cell empty_board 2 2 "b")).
  - reflexivity.
  - discriminate.
  - apply list_elem_of_In. vm_compute. tauto.
Defined.

(** ** Successors are pairwise distinct *)

(** X11: on a 5x5 board the successors the mover's piece gives are pairwise
    distinct boards: no move is generated twice. *)
Theorem succ_NoDup (st : state) (p : cell) :
  is_board st = true → p ∈ pieces → NoDup (succ st p).
Proof.
  intros Hb Hin. pose proof (piece_not_empty p Hin) as Hp.
  set (self := {| board := st; my_piece := p; opp := opponent_of p;
                  max_depth := 0 |}).
  destruct (drop_phase st) eqn:Hd.
  - rewrite succ_drop by assumption.
    change (NoDup ((λ '(i, j), set_cell st i j p) <$> empty_cells st)).
    apply NoDup_fmap_2_strong; [|apply NoDup_empty_cells].
    intros [i j] [i' j'] H1 H2 E.
    apply list_elem_of_In, filter_In in H1 as [P1 E1], H2 as [P2 E2].
    apply list_elem_of_In, positions_spec in P1 as [? ?], P2 as [? ?].
    apply Ascii.eqb_eq in E1, E2.
    pose proof (translate_drop self st i j Hb Hd Hp) as T1.
    pose proof (translate_drop self st i' j' Hb Hd Hp) as T2.
    simpl in T1, T2. rewrite E, T2 in T1 by assumption.
    specialize (T1 ltac:(assumption) ltac:(assumption) ltac:(assumption)).
    congruence.
  - rewrite succ_move by assumption.
    change (NoDup ((λ '(src, dst), relocate st p src dst) <$> move_pairs st p)).
    apply NoDup_fmap_2_strong; [|apply NoDup_move_pairs].
    intros [src dst] [src' dst'] H1 H2 E.
    apply (move_pairs_spec st p _ _ Hb) in H1, H2.
    pose proof (translate_move self st src dst Hb Hd Hp H1) as T1.
    pose proof (translate_move self st src' dst' Hb Hd Hp H2) as T2.
    simpl in T1, T2. rewrite E, T2 in T1. congruence.
Qed.

Lemma succ_NoDup_witness : NoDup (succ corner_board "b").
Proof.
  apply succ_NoDup; [reflexivity|apply list_elem_of_In; simpl; tauto].
Defined.

(** ** The order on search values *)

Lemma vlt_irrefl (a : value) : vlt a a = false.
Proof. destruct a; simpl; try reflexivity. apply Qltb_ge. lra. Qed.

Lemma vlt_trans (a b c : value) :
  vlt a b = true → vlt b c = true → vlt a c = true.
Proof.
  destruct a, b, c; simpl; try discriminate; try reflexivity.
  rewrite !Qltb_lt. lra.
Qed.

Lemma vlt_asym (a b : value) : vlt a b = true → vlt b a = true → False.
Proof.
  intros H1 H2. pose proof (vlt_trans _ _ _ H1 H2) as H.
  rewrite vlt_irrefl in H. discriminate.
Qed.

(** [a < c] puts any [b] above [a] or below [c]. *)
Lemma vlt_between (a b c : value) :
  vlt a c = true → vlt a b = true ∨ vlt b c = true.
Proof.
  destruct a, b, c; simpl; try discriminate; auto.
  rewrite !Qltb_lt. intros H.
  destruct (Qlt_le_dec q q0); [auto|right; lra].
Qed.

Module ValueOrder.

Definition t : Type := value.
Definition eq : value → value → Prop := value_equiv.
Definition lt : value → value → Prop := value_lt.
Definition le : value → value → Prop := value_le.

#[global] Instance eq_equiv : Equivalence eq.
Proof.
  split.
  - intros a. split; apply vlt_irrefl.
  - intros a b [H1 H2]. by split.
  - intros a b c [H1 H2] [H3 H4]. split.
    + destruct (vlt a c) eqn:E; [|reflexivity].
      destruct (vlt_between a b c E); congruence.
    + destruct (vlt c a) eqn:E; [|reflexivity].
      destruct (vlt_between c b a E); congruence.
Qed.

#[global] Instance lt_strorder : StrictOrder lt.
Proof.
  split.
  - intros a [H]. rewrite vlt_irrefl in H. discriminate.
  - intros a b c [H1] [H2]. split. by apply (vlt_trans a b c).
Qed.

#[global] Instance lt_compat : Proper (eq ==> eq ==> iff) lt.
Proof.
  assert (∀ a a' b b', eq a a' → eq b b' → lt a b → lt a' b') as H.
  { intros a a' b b' [Ha1 Ha2] [Hb1 Hb2] [Hlt]. split.
    destruct (vlt_between a a' b Hlt) as [?|H1]; [congruence|].
    destruct (vlt_between a' b' b H1) as [?|?]; [assumption|congruence]. }
  intros a a' Ha b b' Hb. split; apply H; auto; by symmetry.
Qed.

Lemma le_lteq (a b : value) : le a b ↔ lt a b ∨ eq a b.
Proof.
  split.
  - intros [H]. destruct (vlt a b) eqn:E; [left|right]; by split.
  - intros [[H]|[H1 H2]]; split; [|exact H2].
    destruct (vlt b a) eqn:E; [|reflexivity].
    destruct (vlt_asym a b H E).
Qed.

Lemma lt_total (a b : value) : lt a b ∨ eq a b ∨ lt b a.
Proof.
  destruct (vlt a b) eqn:E1; [left; by split|].
  destruct (vlt b a) eqn:E2; [right; right; by split|].
  right; left; by split.
Qed.

End ValueOrder.

Module ValueOrderTac := MakeOrderTac ValueOrder ValueOrder.

(** Comparisons made by the program, read as order facts. *)
Ltac vfacts :=
  repeat match goal with
         | H : vlt ?a ?b = true |- _ =>
             apply (value_lt_intro a b) in H;
             change (ValueOrder.lt a b) in H
         | H : vlt ?a ?b = false |- _ =>
             apply (value_le_intro b a) in H;
             change (ValueOrder.le b a) in H
         | H : value_lt ?a ?b |- _ => change (ValueOrder.lt a b) in H
         | H : value_le ?a ?b |- _ => change (ValueOrder.le a b) in H
         | H : value_equiv ?a ?b |- _ => change (ValueOrder.eq a b) in H
         end.

Ltac vorder :=
  vfacts;
  lazymatch goal with
  | |- vlt ?a ?b = true =>
      cut (ValueOrder.lt a b); [intros [?]; assumption|ValueOrderTac.order]
  | |- vlt ?a ?b = false =>
      cut (ValueOrder.le b a); [intros [?]; assumption|ValueOrderTac.order]
  | |- value_lt ?a ?b => change (ValueOrder.lt a b); ValueOrderTac.order
  | |- value_le ?a ?b => change (ValueOrder.le a b); ValueOrderTac.order
  | |- value_equiv ?a ?b => change (ValueOrder.eq a b); ValueOrderTac.order
  | |- _ => exfalso; ValueOrderTac.order
  end.


(** Uses every implication whose premise follows from the order facts. *)
Ltac vsat :=
  repeat match goal with
         | H : ?P → ?Q |- _ =>
             let HP := fresh in
             assert (HP : P) by vorder; specialize (H HP); clear HP
         end.

Lemma best_of_max_ge (eval : state → value) (successors : list state)
    (best : value) (bs : option state) :
  value_le best (fst (best_of (λ v best, vlt best v) eval successors best bs)).
Proof.
  revert best bs. induction successors as [|c rest IH]; intros best bs;
    cbn [best_of].
  - simpl. vorder.
  - destruct (vlt best (eval c)) eqn:E.
    + pose proof (IH (eval c) (Some c)). vorder.
    + apply IH.
Qed.

Lemma max_loop_window (evalAB : state → value → value → value)
    (evalEX : state → value) (b : value) :
  (∀ s a', value_lt a' b → window_sound (evalAB s a' b) (evalEX s) a' b) →
  ∀ successors best bs alpha best' bs' a,
    value_lt alpha b →
    value_le a alpha → value_le best alpha →
    (value_le alpha a ∨ value_le alpha best) →
    (value_le best a → value_le best' best) →
    (value_lt a best → value_equiv best best') →
    window_sound
      (fst (max_loop evalAB b successors best bs alpha))
      (fst (best_of (λ v best, vlt best v) evalEX successors best' bs'))
      a b.
Proof.
  intros Hchild.
  induction successors as [|c rest IH];
    intros best bs alpha best' bs' a Hab Ha Hb Hmax Hlow Hin;
    cbn [max_loop best_of].
  - simpl. unfold window_sound. repeat split; intros; vsat; vorder.
  - pose proof (Hchild c alpha Hab) as (C1 & C2 & C3).
    set (r := evalAB c alpha b) in *. set (v := evalEX c) in *.
    pose proof (best_of_max_ge evalEX rest v (Some c)) as Gv.
    pose proof (best_of_max_ge evalEX rest best' bs') as Gb.
    destruct (vlt alpha r) eqn:E1; destruct (vlt r b) eqn:E2;
      destruct (vlt best r) eqn:U; destruct (vlt best' v) eqn:U';
      destruct (vlt a best) eqn:AB;
      cbn beta iota zeta; cbn [fst snd];
      unfold vmax; 
      match goal with |- context [vlt alpha ?x] => destruct (vlt alpha x) eqn:M end;
      unfold vge;
      match goal with |- context [vlt ?x b] => destruct (vlt x b) eqn:B end;
      cbn [negb fst snd];
      destruct Hmax as [Hmax|Hmax];
      vfacts; vsat;
      try (exfalso; ValueOrderTac.order);
      first
        [ (* the loop goes on *)
          apply IH; try vorder; try (intros; vsat; vorder);
          try (left; vorder); try (right; vorder)
        | (* the loop has stopped *)
          unfold window_sound; repeat split; intros; vsat; vorder ].
Qed.

Lemma best_of_min_le (eval : state → value) (successors : list state)
    (best : value) (bs : option state) :
  value_le (fst (best_of (λ v best, vlt v best) eval successors best bs)) best.
Proof.
  revert best bs. induction successors as [|c rest IH]; intros best bs;
    cbn [best_of].
  - simpl. vorder.
  - destruct (vlt (eval c) best) eqn:E.
    + pose proof (IH (eval c) (Some c)). vorder.
    + apply IH.
Qed.

Lemma min_loop_window (evalAB : state → value → value → value)
    (evalEX : state → value) (a : value) :
  (∀ s b', value_lt a b' → window_sound (evalAB s a b') (evalEX s) a b') →
  ∀ successors best bs beta best' bs' b,
    value_lt a beta →
    value_le beta b → value_le beta best →
    (value_le b beta ∨ value_le best beta) →
    (value_le b best → value_le best best') →
    (value_lt best b → value_equiv best best') →
    window_sound
      (fst (min_loop evalAB a successors best bs beta))
      (fst (best_of (λ v best, vlt v best) evalEX successors best' bs'))
      a b.
Proof.
  intros Hchild.
  induction successors as [|c rest IH];
    intros best bs beta best' bs' b Hab Ha Hb Hmin Hhigh Hin;
    cbn [min_loop best_of].
  - simpl. unfold window_sound. repeat split; intros; vsat; vorder.
  - pose proof (Hchild c beta Hab) as (C1 & C2 & C3).
    set (r := evalAB c a beta) in *. set (v := evalEX c) in *.
    pose proof (best_of_min_le evalEX rest v (Some c)) as Gv.
    pose proof (best_of_min_le evalEX rest best' bs') as Gb.
    destruct (vlt r beta) eqn:E1; destruct (vlt a r) eqn:E2;
      destruct (vlt r best) eqn:U; destruct (vlt v best') eqn:U';
      destruct (vlt best b) eqn:AB;
      cbn beta iota zeta; cbn [fst snd];
      unfold vmin;
      match goal with |- context [vlt ?x beta] => destruct (vlt x beta) eqn:M end;
      unfold vge;
      match goal with |- context [vlt a ?x] => destruct (vlt a x) eqn:B end;
      cbn [negb fst snd];
      destruct Hmin as [Hmin|Hmin];
      vfacts; vsat;
      try (exfalso; ValueOrderTac.order);
      first
        [ apply IH; try vorder; try (intros; vsat; vorder);
          try (left; vorder); try (right; vorder)
        | unfold window_sound; repeat split; intros; vsat; vorder ].
Qed.

Lemma window_sound_same (x a b : value) : window_sound x x a b.
Proof. unfold window_sound. repeat split; intros; vorder. Qed.

Lemma neg_inf_le (a : value) : value_le NegInf a.
Proof. split. by destruct a. Qed.

Lemma le_pos_inf (a : value) : value_le a PosInf.
Proof. split. by destruct a. Qed.

Section AlphaBeta.

Variable heuristic : TeekoPlayer → state → Q.
Variable successors_of : state → cell → list state.
Variable self : TeekoPlayer.

(** The value of a pruned search is sound for its window. *)
Lemma minimax_from_window (remaining : nat) (st : state) (depth : nat)
    (a b : value) :
  value_lt a b →
  window_sound
    (fst (minimax_from heuristic successors_of self remaining st depth a b))
    (fst (exhaustive_from heuristic successors_of self remaining st depth))
    a b.
Proof.
  revert st depth a b.
  induction remaining as [|remaining IH]; intros st depth a b Hab;
    cbn [minimax_from exhaustive_from]; cbv zeta.
  - destruct (negb _); apply window_sound_same.
  - destruct (negb _); [apply window_sound_same|].
    change (if Ascii.eqb (my_piece self) "b" then "r" else "b")
      with (opponent_of (my_piece self)).
    destruct (depth mod 2 =? 0)%nat.
    + destruct (successors_of st (my_piece self)) as [|c rest];
        [apply window_sound_same|].
      apply max_loop_window; try vorder.
      * intros s a' Ha'. by apply IH.
      * apply neg_inf_le.
      * left. vorder.
      * intros _. vorder.
      * intros _. vorder.
    + destruct (successors_of st (opponent_of (my_piece self))) as [|c rest];
        [apply window_sound_same|].
      apply min_loop_window; try vorder.
      * intros s b' Hb'. by apply IH.
      * apply le_pos_inf.
      * left. vorder.
      * intros _. vorder.
      * intros _. vorder.
Qed.

End AlphaBeta.

(** With the full window the loop of a maximising node never stops early
    and replaces its best state exactly when the full search does. *)
Lemma max_loop_root (evalAB : state → value → value → value)
    (evalEX : state → value) :
  (∀ s a', value_lt a' PosInf →
     window_sound (evalAB s a' PosInf) (evalEX s) a' PosInf) →
  (∀ s a', value_lt (evalAB s a' PosInf) PosInf) →
  ∀ successors best bs alpha best',
    value_equiv best best' → value_equiv alpha best → value_lt best PosInf →
    snd (max_loop evalAB PosInf successors best bs alpha)
    = snd (best_of (λ v best, vlt best v) evalEX successors best' bs)
    ∧ value_equiv
        (fst (max_loop evalAB PosInf successors best bs alpha))
        (fst (best_of (λ v best, vlt best v) evalEX successors best' bs)).
Proof.
  intros Hchild Hfin.
  induction successors as [|c rest IH];
    intros best bs alpha best' Hbest Halpha Hlt; cbn [max_loop best_of].
  - simpl. split; [reflexivity|exact Hbest].
  - assert (value_lt alpha PosInf) as Ha by vorder.
    pose proof (Hchild c alpha Ha) as (C1 & C2 & C3).
    pose proof (Hfin c alpha) as Hr.
    set (r := evalAB c alpha PosInf) in *. set (v := evalEX c) in *.
    destruct (vlt alpha r) eqn:E1;
      destruct (vlt best r) eqn:U; destruct (vlt best' v) eqn:U';
      cbn beta iota zeta; cbn [fst snd];
      unfold vmax;
      match goal with |- context [vlt alpha ?x] => destruct (vlt alpha x) eqn:M end;
      unfold vge;
      match goal with |- context [vlt ?x PosInf] => destruct (vlt x PosInf) eqn:B end;
      cbn [negb fst snd];
      vfacts; vsat;
      try (exfalso; ValueOrderTac.order);
      apply IH; vorder.
Qed.

Lemma min_loop_root (evalAB : state → value → value → value)
    (evalEX : state → value) :
  (∀ s b', value_lt NegInf b' →
     window_sound (evalAB s NegInf b') (evalEX s) NegInf b') →
  (∀ s b', value_lt NegInf (evalAB s NegInf b')) →
  ∀ successors best bs beta best',
    value_equiv best best' → value_equiv beta best → value_lt NegInf best →
    snd (min_loop evalAB NegInf successors best bs beta)
    = snd (best_of (λ v best, vlt v best) evalEX successors best' bs)
    ∧ value_equiv
        (fst (min_loop evalAB NegInf successors best bs beta))
        (fst (best_of (λ v best, vlt v best) evalEX successors best' bs)).
Proof.
  intros Hchild Hfin.
  induction successors as [|c rest IH];
    intros best bs beta best' Hbest Hbeta Hlt; cbn [min_loop best_of].
  - simpl. split; [reflexivity|exact Hbest].
  - assert (value_lt NegInf beta) as Hb by vorder.
    pose proof (Hchild c beta Hb) as (C1 & C2 & C3).
    pose proof (Hfin c beta) as Hr.
    set (r := evalAB c NegInf beta) in *. set (v := evalEX c) in *.
    destruct (vlt r beta) eqn:E1;
      destruct (vlt r best) eqn:U; destruct (vlt v best') eqn:U';
      cbn beta iota zeta; cbn [fst snd];
      unfold vmin;
      match goal with |- context [vlt ?x beta] => destruct (vlt x beta) eqn:M end;
      unfold vge;
      match goal with |- context [vlt NegInf ?x] => destruct (vlt NegInf x) eqn:B end;
      cbn [negb fst snd];
      vfacts; vsat;
      try (exfalso; ValueOrderTac.order);
      apply IH; vorder.
Qed.

Section Pruning.

Variable heuristic : TeekoPlayer → state → Q.
Variable successors_of : state → cell → list state.
Variable self : TeekoPlayer.

Lemma minimax_from_finite (remaining : nat) (st : state) (depth : nat)
    (a b : value) :
  value_lt NegInf
    (fst (minimax_from heuristic successors_of self remaining st depth a b))
  ∧ value_lt
      (fst (minimax_from heuristic successors_of self remaining st depth a b))
      PosInf.
Proof.
  destruct (minimax_from_result heuristic successors_of self remaining st
              depth a b) as (q & s & -> & _).
  split; by split.
Qed.

(** X14: alpha-beta pruning does not change the answer: called with the window
    (-inf, +inf), [minimax] returns the state that the depth-limited search
    exploring every successor returns, and a value equal to its value in
    the order.  This holds for every heuristic, successor generator, state,
    depth and depth limit. *)
Theorem pruning_keeps_the_choice (st : state) (depth : nat) :
  snd (minimax heuristic successors_of self st depth NegInf PosInf)
  = snd (exhaustive_minimax heuristic successors_of self st depth)
  ∧ value_equiv
      (fst (minimax heuristic successors_of self st depth NegInf PosInf))
      (fst (exhaustive_minimax heuristic successors_of self st depth)).
Proof.
  assert (∀ x : value, value_equiv x x) as Hrefl by (intros x; vorder).
  unfold minimax, exhaustive_minimax.
  destruct (max_depth self - depth)%nat as [|remaining];
    cbn [minimax_from exhaustive_from]; cbv zeta.
  - destruct (negb _); split; auto.
  - destruct (negb _); [split; auto|].
    change (if Ascii.eqb (my_piece self) "b" then "r" else "b")
      with (opponent_of (my_piece self)).
    destruct (depth mod 2 =? 0)%nat.
    + destruct (successors_of st (my_piece self)) as [|c rest];
        [split; auto|].
      apply max_loop_root; try (by split); try apply Hrefl.
      * intros s a' Ha'. by apply minimax_from_window.
      * intros s a'. apply minimax_from_finite.
    + destruct (successors_of st (opponent_of (my_piece self))) as [|c rest];
        [split; auto|].
      apply min_loop_root; try (by split); try apply Hrefl.
      * intros s b' Hb'. by apply minimax_from_window.
      * intros s b'. apply minimax_from_finite.
Qed.

End Pruning.

(** ** Copies on the store *)

Lemma extends_refl h : extends h h.
Proof. by intros l _. Qed.

Lemma extends_dom h h' : extends h h' → dom h ⊆ dom h'.
Proof.
  intros H l Hl. apply elem_of_dom. rewrite (H l Hl). by apply elem_of_dom.
Qed.

Lemma extends_trans h1 h2 h3 : extends h1 h2 → extends h2 h3 → extends h1 h3.
Proof.
  intros H12 H23 l Hl. rewrite (H23 l), (H12 l); auto.
  by apply (extends_dom h1 h2).
Qed.

Lemma extends_alloc h l o : l ∉ dom h → extends h (<[l := o]> h).
Proof.
  intros Hl l' Hl'. apply lookup_insert_ne. intros ->. contradiction.
Qed.

Lemma fresh_not_in (h : gmap positive Heap.obj) : fresh (dom h) ∉ dom h.
Proof. apply is_fresh. Qed.

(** [copy_rows]: the store grows, and every reference returned is new or a
    value of the memo. *)
Lemma copy_rows_spec (ls : list positive) :
  ∀ (h : gmap positive Heap.obj) (memo : gmap positive positive),
    let '(h', memo', out) := Heap.copy_rows h memo ls in
    extends h h'
    ∧ length out = length ls
    ∧ (∀ l', l' ∈ out →
         l' ∈ dom h' ∖ dom h ∨ ∃ l, memo !! l = Some l').
Proof.
  induction ls as [|l ls IH]; intros h memo; simpl.
  - split; [apply extends_refl|]. split; [reflexivity|].
    intros l' Hl'. by apply elem_of_nil in Hl'.
  - destruct (memo !! l) as [l'|] eqn:Hm.
    + specialize (IH h memo).
      destruct (Heap.copy_rows h memo ls) as [[h' memo'] out].
      destruct IH as (Hext & Hlen & Hout).
      split; [exact Hext|]. split; [simpl; lia|].
      intros x Hx. apply elem_of_cons in Hx as [->|Hx]; [right; eauto|auto].
    + set (l' := fresh (dom h)).
      specialize (IH (<[l' := Heap.Row (Heap.row_of h l)]> h) (<[l := l']> memo)).
      destruct (Heap.copy_rows _ _ ls) as [[h' memo'] out].
      destruct IH as (Hext & Hlen & Hout).
      pose proof (fresh_not_in h) as Hfresh. fold l' in Hfresh.
      assert (extends h h') as Hext'.
      { eapply extends_trans; [|exact Hext]. by apply extends_alloc. }
      split; [exact Hext'|]. split; [simpl; lia|].
      intros x Hx. apply elem_of_cons in Hx as [->|Hx].
      * left. apply elem_of_difference. split; [|exact Hfresh].
        apply (extends_dom _ _ Hext). set_solver.
      * destruct (Hout x Hx) as [Hnew|[l0 Hl0]].
        -- left. set_solver.
        -- destruct (decide (l = l0)) as [<-|Hne].
           ++ rewrite lookup_insert_eq in Hl0. injection Hl0 as <-.
              left. apply elem_of_difference. split; [|exact Hfresh].
              apply (extends_dom _ _ Hext). set_solver.
           ++ rewrite lookup_insert_ne in Hl0 by exact Hne. right. eauto.
Qed.


Lemma board_object_owned h st :
  board_object h st → Heap.owned h st ⊆ dom h.
Proof.
  intros (rows & Hst & _ & Hrows) l Hl. unfold Heap.owned, Heap.board_of in Hl.
  rewrite Hst in Hl. apply elem_of_union in Hl as [Hl|Hl].
  - apply elem_of_singleton in Hl as ->. by apply elem_of_dom.
  - apply elem_of_list_to_set in Hl. destruct (Hrows l Hl) as [cells Hc].
    by apply elem_of_dom.
Qed.

(** What a reader of a board sees depends on the objects of the board
    only. *)
Lemma snapshot_agree h h' st :
  (∀ l, l ∈ Heap.owned h st → h' !! l = h !! l) →
  Heap.snapshot h' st = Heap.snapshot h st
  ∧ Heap.board_of h' st = Heap.board_of h st.
Proof.
  intros Hag.
  assert (Heap.board_of h' st = Heap.board_of h st) as Hb.
  { unfold Heap.board_of. rewrite Hag; [reflexivity|].
    unfold Heap.owned. set_solver. }
  split; [|exact Hb]. unfold Heap.snapshot. rewrite Hb.
  apply map_ext_in. intros r Hr. unfold Heap.row_of. rewrite Hag; [reflexivity|].
  unfold Heap.owned. apply elem_of_union. right.
  apply elem_of_list_to_set. by apply list_elem_of_In.
Qed.

Lemma extends_board_object h h' st :
  extends h h' → board_object h st →
  board_object h' st ∧ Heap.snapshot h' st = Heap.snapshot h st
  ∧ Heap.owned h' st = Heap.owned h st.
Proof.
  intros Hext Hbo. pose proof (board_object_owned h st Hbo) as Hown.
  assert (∀ l, l ∈ Heap.owned h st → h' !! l = h !! l) as Hag
    by (intros l Hl; apply Hext; by apply Hown).
  destruct (snapshot_agree h h' st Hag) as [Hsnap Hboard].
  split; [|split; [exact Hsnap|]].
  - destruct Hbo as (rows & Hst & Hnd & Hrows). exists rows.
    split; [|split; [exact Hnd|]].
    + rewrite Hext; [exact Hst|]. by apply elem_of_dom.
    + intros r Hr. destruct (Hrows r Hr) as [cells Hc]. exists cells.
      rewrite Hext; [exact Hc|]. by apply elem_of_dom.
  - unfold Heap.owned. by rewrite Hboard.
Qed.


Lemma row_of_extends h h' l :
  extends h h' → l ∈ dom h → Heap.row_of h' l = Heap.row_of h l.
Proof. intros Hext Hl. unfold Heap.row_of. by rewrite Hext. Qed.

(** The copies hold the cells of the originals. *)
Lemma copy_rows_cells (ls : list positive) :
  ∀ (h : gmap positive Heap.obj) (memo : gmap positive positive),
    memo_ok h memo → (∀ l, l ∈ ls → l ∈ dom h) →
    let '(h', memo', out) := Heap.copy_rows h memo ls in
    map (Heap.row_of h') out = map (Heap.row_of h) ls.
Proof.
  induction ls as [|l ls IH]; intros h memo Hok Hlive; simpl; [reflexivity|].
  assert (l ∈ dom h) as Hl by (apply Hlive; by left).
  assert (∀ x, x ∈ ls → x ∈ dom h) as Hlive' by (intros x Hx; apply Hlive; by right).
  destruct (memo !! l) as [l'|] eqn:Hm.
  - pose proof (copy_rows_spec ls h memo) as Hspec.
    specialize (IH h memo Hok Hlive').
    destruct (Heap.copy_rows h memo ls) as [[h' memo'] out].
    destruct Hspec as (Hext & _). simpl. rewrite IH.
    destruct (Hok l l' Hm) as (_ & Hl' & Hrow).
    by rewrite (row_of_extends h h' l' Hext Hl'), Hrow.
  - set (l' := fresh (dom h)).
    pose proof (fresh_not_in h) as Hfresh. fold l' in Hfresh.
    set (h1 := <[l' := Heap.Row (Heap.row_of h l)]> h).
    assert (extends h h1) as Hext1 by (by apply extends_alloc).
    pose proof (copy_rows_spec ls h1 (<[l := l']> memo)) as Hspec.
    specialize (IH h1 (<[l := l']> memo)).
    destruct (Heap.copy_rows h1 _ ls) as [[h' memo'] out].
    destruct Hspec as (Hext & _). simpl.
    rewrite IH.
    + f_equal.
      * rewrite (row_of_extends h1 h' l' Hext) by (subst h1; set_solver).
        unfold Heap.row_of at 1. subst h1. by rewrite lookup_insert_eq.
      * apply map_ext_in. intros x Hx. apply row_of_extends; [exact Hext1|].
        by apply Hlive', list_elem_of_In.
    + intros x x' Hx. destruct (decide (l = x)) as [<-|Hne].
      * rewrite lookup_insert_eq in Hx. injection Hx as <-.
        split; [by apply (extends_dom _ _ Hext1)|].
        split; [subst h1; set_solver|].
        rewrite (row_of_extends h h1 l Hext1 Hl).
        unfold Heap.row_of at 1. subst h1. by rewrite lookup_insert_eq.
      * rewrite lookup_insert_ne in Hx by exact Hne.
        destruct (Hok x x' Hx) as (Hx1 & Hx2 & Hx3).
        split; [by apply (extends_dom _ _ Hext1)|].
        split; [by apply (extends_dom _ _ Hext1)|].
        by rewrite !(row_of_extends h h1 _ Hext1).
    + intros x Hx. by apply (extends_dom _ _ Hext1), Hlive'.
Qed.

(** Distinct originals outside the memo get distinct new copies. *)
Lemma copy_rows_fresh (ls : list positive) :
  ∀ (h : gmap positive Heap.obj) (memo : gmap positive positive),
    NoDup ls → (∀ l, l ∈ ls → memo !! l = None) →
    let '(h', memo', out) := Heap.copy_rows h memo ls in
    NoDup out ∧ (∀ l', l' ∈ out → l' ∈ dom h' ∖ dom h)
    ∧ (∀ l', l' ∈ out → ∃ cells, h' !! l' = Some (Heap.Row cells)).
Proof.
  induction ls as [|l ls IH]; intros h memo Hnd Hmiss; simpl.
  - split; [constructor|]. split; intros l' Hl'; by apply elem_of_nil in Hl'.
  - rewrite (Hmiss l) by (by left).
    apply NoDup_cons in Hnd as [Hl Hnd].
    set (l' := fresh (dom h)).
    pose proof (fresh_not_in h) as Hfresh. fold l' in Hfresh.
    set (h1 := <[l' := Heap.Row (Heap.row_of h l)]> h).
    assert (extends h h1) as Hext1 by (by apply extends_alloc).
    pose proof (copy_rows_spec ls h1 (<[l := l']> memo)) as Hspec.
    specialize (IH h1 (<[l := l']> memo) Hnd).
    destruct (Heap.copy_rows h1 _ ls) as [[h' memo'] out].
    destruct Hspec as (Hext & _).
    destruct IH as (Hnd' & Hnew & Hrow).
    { intros x Hx. rewrite lookup_insert_ne; [apply Hmiss; by right|].
      intros ->. contradiction. }
    assert (l' ∈ dom h1) as Hl1 by (subst h1; set_solver).
    split; [|split].
    + apply NoDup_cons. split; [|exact Hnd'].
      intros Hin. apply Hnew in Hin. set_solver.
    + intros x Hx. apply elem_of_cons in Hx as [->|Hx].
      * apply elem_of_difference. split; [|exact Hfresh].
        by apply (extends_dom _ _ Hext).
      * apply Hnew in Hx. apply (extends_dom _ _ Hext1) in Hfresh || idtac.
        pose proof (extends_dom _ _ Hext1). set_solver.
    + intros x Hx. apply elem_of_cons in Hx as [->|Hx]; [|by apply Hrow].
      exists (Heap.row_of h l). rewrite Hext by exact Hl1.
      subst h1. by rewrite lookup_insert_eq.
Qed.

Lemma deepcopy_spec (h : gmap positive Heap.obj) (st : positive) :
  board_object h st →
  let '(h2, c) := Heap.deepcopy h st in
  extends h h2 ∧ board_object h2 c
  ∧ Heap.owned h2 c ⊆ dom h2 ∖ dom h
  ∧ Heap.snapshot h2 c = Heap.snapshot h st.
Proof.
  intros (rows & Hst & Hnd & Hrows). unfold Heap.deepcopy.
  set (c := fresh (dom h)).
  pose proof (fresh_not_in h) as Hfresh. fold c in Hfresh.
  set (h0 := <[c := Heap.Board []]> h).
  assert (extends h h0) as Hext0 by (by apply extends_alloc).
  assert (Heap.board_of h st = rows) as Hboard
    by (unfold Heap.board_of; by rewrite Hst).
  rewrite Hboard.
  assert (st ∈ dom h) as Hstl by (by apply elem_of_dom).
  assert (∀ r, r ∈ rows → r ∈ dom h) as Hlive.
  { intros r Hr. destruct (Hrows r Hr) as [cells Hc]. by apply elem_of_dom. }
  pose proof (copy_rows_spec rows h0 {[st := c]}) as Hspec.
  pose proof (copy_rows_cells rows h0 {[st := c]}) as Hcells.
  pose proof (copy_rows_fresh rows h0 {[st := c]} Hnd) as Hnew.
  destruct (Heap.copy_rows h0 {[st := c]} rows) as [[h1 memo'] out].
  destruct Hspec as (Hext1 & Hlen & _).
  destruct Hnew as (Hnd' & Hnew & Htyped).
  { intros r Hr. apply lookup_singleton_ne. intros <-.
    destruct (Hrows st Hr) as [cells Hc]. congruence. }
  assert (c ∈ dom h0) as Hc0 by (subst h0; set_solver).
  assert (∀ r, r ∈ out → r ≠ c) as Hnc.
  { intros r Hr ->. apply Hnew in Hr. set_solver. }
  assert (dom h ⊆ dom h0) as Hd0 by (by apply extends_dom).
  assert (dom h0 ⊆ dom h1) as Hd1 by (by apply extends_dom).
  split; [|split; [|split]].
  - intros l Hl. rewrite lookup_insert_ne by (intros <-; contradiction).
    rewrite (Hext1 l) by (by apply Hd0). by apply Hext0.
  - exists out. split; [by rewrite lookup_insert_eq|]. split; [exact Hnd'|].
    intros r Hr. destruct (Htyped r Hr) as [cells Hcells'].
    exists cells. rewrite lookup_insert_ne; [exact Hcells'|].
    intros <-. by apply (Hnc c Hr).
  - unfold Heap.owned, Heap.board_of. rewrite lookup_insert_eq.
    intros l Hl. apply elem_of_union in Hl as [Hl|Hl].
    + apply elem_of_singleton in Hl as ->. set_solver.
    + apply elem_of_list_to_set in Hl. apply Hnew in Hl. set_solver.
  - unfold Heap.snapshot at 1, Heap.board_of. rewrite lookup_insert_eq.
    transitivity (map (Heap.row_of h1) out).
    { apply map_ext_in. intros r Hr. unfold Heap.row_of.
      rewrite lookup_insert_ne; [reflexivity|].
      intros <-. apply (Hnc c); [by apply list_elem_of_In|reflexivity]. }
    rewrite Hcells.
    + unfold Heap.snapshot. rewrite Hboard. apply map_ext_in. intros r Hr.
      apply row_of_extends; [exact Hext0|]. by apply Hlive, list_elem_of_In.
    + intros l l' Hm. apply lookup_singleton_Some in Hm as [<- <-].
      split; [by apply Hd0|]. split; [exact Hc0|].
      unfold Heap.row_of. subst h0. rewrite lookup_insert_eq.
      rewrite lookup_insert_ne by (intros <-; contradiction). by rewrite Hst.
    + intros r Hr. by apply Hd0, Hlive.
Qed.

(** [state[i][j] = v] changes one row object of the board, and the reader
    of the board sees the cell updated. *)
Lemma write_spec (h : gmap positive Heap.obj) (c : positive) (i j : nat)
    (v : cell) :
  board_object h c →
  (∀ l, l ∉ Heap.owned h c → Heap.write h c i j v !! l = h !! l)
  ∧ dom (Heap.write h c i j v) = dom h
  ∧ board_object (Heap.write h c i j v) c
  ∧ Heap.owned (Heap.write h c i j v) c = Heap.owned h c
  ∧ Heap.snapshot (Heap.write h c i j v) c
    = set_cell (Heap.snapshot h c) i j v.
Proof.
  intros (rows & Hc & Hnd & Hrows). unfold Heap.write.
  assert (Heap.board_of h c = rows) as Hboard
    by (unfold Heap.board_of; by rewrite Hc).
  rewrite Hboard.
  destruct (rows !! i) as [r|] eqn:Hi.
  - assert (r ∈ rows) as Hr by (apply list_elem_of_lookup; eauto).
    destruct (Hrows r Hr) as [cells Hcells].
    assert (r ≠ c) as Hrc by (intros ->; congruence).
    set (h2 := <[r := Heap.Row (<[j := v]> (Heap.row_of h r))]> h).
    assert (h2 !! c = Some (Heap.Board rows)) as Hc2
      by (subst h2; by rewrite lookup_insert_ne).
    assert (Heap.board_of h2 c = rows) as Hboard2
      by (unfold Heap.board_of; by rewrite Hc2).
    split; [|split; [|split; [|split]]].
    + intros l Hl. subst h2. rewrite lookup_insert_ne; [reflexivity|].
      intros <-. apply Hl. unfold Heap.owned. rewrite Hboard. set_solver.
    + subst h2. rewrite dom_insert_L.
      assert (r ∈ dom h) by (by apply elem_of_dom). set_solver.
    + exists rows. split; [exact Hc2|]. split; [exact Hnd|].
      intros r' Hr'. destruct (decide (r' = r)) as [->|Hne].
      * eexists. subst h2. by rewrite lookup_insert_eq.
      * destruct (Hrows r' Hr') as [cells' Hcells']. exists cells'.
        subst h2. by rewrite lookup_insert_ne.
    + unfold Heap.owned. by rewrite Hboard, Hboard2.
    + unfold Heap.snapshot, set_cell. rewrite Hboard, Hboard2.
      apply list_eq. intros k.
      rewrite list_lookup_alter.
      change (map (Heap.row_of h2) rows) with (Heap.row_of h2 <$> rows).
      change (map (Heap.row_of h) rows) with (Heap.row_of h <$> rows).
      rewrite !list_lookup_fmap.
      destruct (decide (i = k)) as [<-|Hne].
      * rewrite Hi. simpl. f_equal. unfold Heap.row_of at 1. subst h2.
        by rewrite lookup_insert_eq.
      * destruct (rows !! k) as [r'|] eqn:Hk; simpl; [|reflexivity].
        f_equal. unfold Heap.row_of at 1. subst h2.
        rewrite lookup_insert_ne; [reflexivity|].
        intros <-. apply Hne. by apply (NoDup_lookup rows i k r).
  - split; [auto|]. split; [reflexivity|]. split; [by exists rows|].
    split; [reflexivity|].
    unfold set_cell, Heap.snapshot. rewrite Hboard.
    symmetry. apply list_eq. intros k. rewrite list_lookup_alter.
    destruct (decide (i = k)) as [<-|]; [|reflexivity].
    change (map (Heap.row_of h) rows) with (Heap.row_of h <$> rows).
    by rewrite list_lookup_fmap, Hi.
Qed.

(** ** [succ] on the store *)


Lemma copies_ok_start h0 : copies_ok h0 h0 [] [].
Proof.
  split; [apply extends_refl|]. split; [|split; [|reflexivity]].
  - intros c Hc. by apply elem_of_nil in Hc.
  - intros k k' c c' Hk. discriminate.
Qed.

(** One iteration that appends: a deep copy of the input, then writes to
    the copy. *)
Lemma add_successor (h0 : gmap positive Heap.obj) (st : positive)
    (writes : list (nat * nat * ascii))
    (h : gmap positive Heap.obj) (out : list positive)
    (vals : list (list (list ascii))) :
  board_object h0 st → copies_ok h0 h out vals →
  copies_ok h0
    (fold_left (λ hx '(i, j, v), Heap.write hx (Heap.deepcopy h st).2 i j v)
       writes (Heap.deepcopy h st).1)
    (out ++ [(Heap.deepcopy h st).2])
    (vals ++ [fold_left (λ s '(i, j, v), set_cell s i j v) writes
                (Heap.snapshot h0 st)]).
Proof.
  intros Hin (Hext & Hold & Hdisj & Hvals).
  destruct (extends_board_object h0 h st Hext Hin) as (Hin' & Hsnap & _).
  pose proof (deepcopy_spec h st Hin') as Hcopy.
  destruct (Heap.deepcopy h st) as [h1 c]. simpl.
  destruct Hcopy as (Hext1 & Hbo1 & Hown1 & Hsnap1).
  rewrite <- Hsnap, <- Hsnap1.
  assert (∀ hx s,
            (∀ l, l ∉ Heap.owned h1 c → hx !! l = h1 !! l) →
            dom hx = dom h1 → board_object hx c →
            Heap.owned hx c = Heap.owned h1 c →
            Heap.snapshot hx c = s →
            let h2 := fold_left (λ hx '(i, j, v), Heap.write hx c i j v)
                        writes hx in
            (∀ l, l ∉ Heap.owned h1 c → h2 !! l = h1 !! l)
            ∧ dom h2 = dom h1 ∧ board_object h2 c
            ∧ Heap.owned h2 c = Heap.owned h1 c
            ∧ Heap.snapshot h2 c
              = fold_left (λ s '(i, j, v), set_cell s i j v) writes s)
    as Hwrites.
  { induction writes as [|[[i j] v] writes IH]; intros hx s H1 H2 H3 H4 H5;
      simpl; [auto|].
    destruct (write_spec hx c i j v H3) as (W1 & W2 & W3 & W4 & W5).
    apply IH.
    - intros l Hl. rewrite W1; [by apply H1|]. by rewrite H4.
    - by rewrite W2.
    - exact W3.
    - by rewrite W4.
    - by rewrite W5, H5. }
  destruct (Hwrites h1 (Heap.snapshot h1 c)) as (F1 & F2 & F3 & F4 & F5);
    auto.
  set (h2 := fold_left _ writes h1) in *.
  assert (extends h h2) as Hext2.
  { intros l Hl. rewrite F1; [by apply Hext1|].
    intros Hown. apply Hown1 in Hown. set_solver. }
  pose proof (extends_dom _ _ Hext) as Hd0.
  pose proof (extends_dom _ _ Hext2) as Hd2.
  assert (∀ c', c' ∈ out →
            board_object h2 c' ∧ Heap.snapshot h2 c' = Heap.snapshot h c'
            ∧ Heap.owned h2 c' = Heap.owned h c'
            ∧ Heap.owned h c' ⊆ dom h ∖ dom h0) as Hkeep.
  { intros c' Hc'. destruct (Hold c' Hc') as [Hbo Hown].
    destruct (extends_board_object h h2 c' Hext2 Hbo) as (? & ? & ?). auto. }
  split; [by apply (extends_trans h0 h h2)|]. split; [|split].
  - intros c' Hc'. apply elem_of_app in Hc' as [Hc'|Hc'].
    + destruct (Hkeep c' Hc') as (? & _ & -> & ?). split; [assumption|set_solver].
    + apply list_elem_of_singleton in Hc' as ->. split; [exact F3|].
      rewrite F4, F2 in *. set_solver.
  - intros k k' x x' Hk Hk' Hne.
    assert (∀ y, y ∈ out → Heap.owned h2 y ## Heap.owned h2 c) as Hnew.
    { intros y Hy. destruct (Hkeep y Hy) as (_ & _ & -> & Hy').
      rewrite F4. set_solver. }
    apply lookup_app_Some in Hk as [Hk|[Hk1 Hk2]];
      apply lookup_app_Some in Hk' as [Hk'|[Hk1' Hk2']].
    + assert (x ∈ out) as Hx by (apply list_elem_of_lookup; eauto).
      assert (x' ∈ out) as Hx' by (apply list_elem_of_lookup; eauto).
      destruct (Hkeep x Hx) as (_ & _ & -> & _).
      destruct (Hkeep x' Hx') as (_ & _ & -> & _).
      by apply (Hdisj k k').
    + apply list_lookup_singleton_Some in Hk2' as [_ <-].
      apply Hnew. apply list_elem_of_lookup; eauto.
    + apply list_lookup_singleton_Some in Hk2 as [_ <-].
      symmetry. apply Hnew. apply list_elem_of_lookup; eauto.
    + apply list_lookup_singleton_Some in Hk2 as [? _].
      apply list_lookup_singleton_Some in Hk2' as [? _]. lia.
  - rewrite map_app. simpl. rewrite F5. f_equal.
    rewrite <- Hvals. apply map_ext_in. intros y Hy.
    apply list_elem_of_In in Hy. by destruct (Hkeep y Hy) as (_ & -> & _).
Qed.

Section SuccOnStore.

Variable h0 : gmap positive Heap.obj.
Variable st : positive.
Variable piece : ascii.
Hypothesis Hinput : board_object h0 st.

Lemma read_input (h : gmap positive Heap.obj) :
  extends h0 h → Heap.snapshot h st = Heap.snapshot h0 st.
Proof. intros Hext. by destruct (extends_board_object h0 h st Hext Hinput) as (_ & ? & _). Qed.

Lemma drop_row_copies (i : nat) (cols : list nat) :
  ∀ h out vals,
    copies_ok h0 h out vals →
    let r :=
      fold_left (λ '(h, successor_states) col_idx,
        if Ascii.eqb (Heap.read h st i col_idx) " " then
          let '(h, state_copy) := Heap.deepcopy h st in
          let h := Heap.write h state_copy i col_idx piece in
          (h, successor_states ++ [state_copy])
        else (h, successor_states)) cols (h, out) in
    copies_ok h0 r.1 r.2
      (vals ++ flat_map (λ col_idx,
                 if Ascii.eqb (cell_at (Heap.snapshot h0 st) i col_idx) " "
                 then [set_cell (Heap.snapshot h0 st) i col_idx piece]
                 else []) cols).
Proof.
  induction cols as [|col cols IH]; intros h out vals Hok.
  - simpl. by rewrite app_nil_r.
  - cbn [fold_left flat_map].
    change (Heap.read h st i col) with (cell_at (Heap.snapshot h st) i col).
    rewrite (read_input h) by apply Hok.
    destruct (Ascii.eqb (cell_at (Heap.snapshot h0 st) i col) " ").
    + pose proof (add_successor h0 st [(i, col, piece)] h out vals Hinput Hok)
        as Hstep.
      destruct (Heap.deepcopy h st) as [h1 c]. simpl in Hstep.
      specialize (IH _ _ _ Hstep). simpl in IH.
      by rewrite <- app_assoc in IH.
    + by apply IH.
Qed.

Lemma drop_copies (rows : list nat) :
  ∀ h out vals,
    copies_ok h0 h out vals →
    let r :=
      fold_left (λ acc row_idx,
        fold_left (λ '(h, successor_states) col_idx,
          if Ascii.eqb (Heap.read h st row_idx col_idx) " " then
            let '(h, state_copy) := Heap.deepcopy h st in
            let h := Heap.write h state_copy row_idx col_idx piece in
            (h, successor_states ++ [state_copy])
          else (h, successor_states))
          (range (width (Heap.snapshot (fst acc) st))) acc) rows (h, out) in
    copies_ok h0 r.1 r.2
      (vals ++ flat_map (λ row_idx,
                 flat_map (λ col_idx,
                   if Ascii.eqb (cell_at (Heap.snapshot h0 st) row_idx col_idx) " "
                   then [set_cell (Heap.snapshot h0 st) row_idx col_idx piece]
                   else []) (range (width (Heap.snapshot h0 st)))) rows).
Proof.
  induction rows as [|i rows IH]; intros h out vals Hok.
  - simpl. by rewrite app_nil_r.
  - cbn [fold_left flat_map fst]. rewrite (read_input h) by apply Hok.
    pose proof (drop_row_copies i (range (width (Heap.snapshot h0 st)))
                  h out vals Hok) as Hrow.
    simpl in Hrow.
    destruct (fold_left _ (range (width (Heap.snapshot h0 st))) (h, out))
      as [h1 out1].
    specialize (IH _ _ _ Hrow). simpl in IH.
    by rewrite <- app_assoc in IH.
Qed.

Lemma move_piece_copies (x y : nat) (dirs : list (Z * Z)) :
  ∀ h out vals,
    copies_ok h0 h out vals →
    let r :=
      fold_left (λ '(h, successor_states) '(dx, dy),
        let new_x := (Z.of_nat x + dx)%Z in
        let new_y := (Z.of_nat y + dy)%Z in
        if free_target (Heap.snapshot h st) new_x new_y then
          let '(h, state_copy) := Heap.deepcopy h st in
          let h := Heap.write h state_copy (Z.to_nat new_x) (Z.to_nat new_y)
                     piece in
          let h := Heap.write h state_copy x y " " in
          (h, successor_states ++ [state_copy])
        else (h, successor_states)) dirs (h, out) in
    copies_ok h0 r.1 r.2
      (vals ++ flat_map (λ '(dx, dy),
                 let new_x := (Z.of_nat x + dx)%Z in
                 let new_y := (Z.of_nat y + dy)%Z in
                 if free_target (Heap.snapshot h0 st) new_x new_y
                 then [set_cell
                         (set_cell (Heap.snapshot h0 st) (Z.to_nat new_x)
                            (Z.to_nat new_y) piece) x y " "]
                 else []) dirs).
Proof.
  induction dirs as [|[dx dy] dirs IH]; intros h out vals Hok.
  - simpl. by rewrite app_nil_r.
  - cbn [fold_left flat_map]. cbv zeta. rewrite (read_input h) by apply Hok.
    destruct (free_target (Heap.snapshot h0 st) _ _).
    + pose proof (add_successor h0 st
                    [(Z.to_nat (Z.of_nat x + dx), Z.to_nat (Z.of_nat y + dy),
                      piece); (x, y, " ")] h out vals Hinput Hok) as Hstep.
      destruct (Heap.deepcopy h st) as [h1 c]. simpl in Hstep.
      specialize (IH _ _ _ Hstep). simpl in IH.
      by rewrite <- app_assoc in IH.
    + by apply IH.
Qed.

Lemma move_copies (locs : list (nat * nat)) :
  ∀ h out vals,
    copies_ok h0 h out vals →
    let r :=
      fold_left (λ acc '(x, y),
        fold_left (λ '(h, successor_states) '(dx, dy),
          let new_x := (Z.of_nat x + dx)%Z in
          let new_y := (Z.of_nat y + dy)%Z in
          if free_target (Heap.snapshot h st) new_x new_y then
            let '(h, state_copy) := Heap.deepcopy h st in
            let h := Heap.write h state_copy (Z.to_nat new_x) (Z.to_nat new_y)
                       piece in
            let h := Heap.write h state_copy x y " " in
            (h, successor_states ++ [state_copy])
          else (h, successor_states)) directions acc) locs (h, out) in
    copies_ok h0 r.1 r.2
      (vals ++ flat_map (λ '(x, y),
                 flat_map (λ '(dx, dy),
                   let new_x := (Z.of_nat x + dx)%Z in
                   let new_y := (Z.of_nat y + dy)%Z in
                   if free_target (Heap.snapshot h0 st) new_x new_y
                   then [set_cell
                           (set_cell (Heap.snapshot h0 st) (Z.to_nat new_x)
                              (Z.to_nat new_y) piece) x y " "]
                   else []) directions) locs).
Proof.
  induction locs as [|[x y] locs IH]; intros h out vals Hok.
  - simpl. by rewrite app_nil_r.
  - cbn [fold_left flat_map].
    pose proof (move_piece_copies x y directions h out vals Hok) as Hpiece.
    cbv zeta in Hpiece.
    destruct (fold_left _ directions (h, out)) as [h1 out1].
    specialize (IH _ _ _ Hpiece). cbv zeta in IH.
    by rewrite <- app_assoc in IH.
Qed.

(** The successors on the store read as the successors of the board that
    the input reads as. *)
Lemma succ_copies_ok :
  copies_ok h0 (Heap.succ h0 st piece).1 (Heap.succ h0 st piece).2
    (succ (Heap.snapshot h0 st) piece).
Proof.
  unfold Heap.succ, succ, drop_phase.
  destruct (total_pieces (Heap.snapshot h0 st) <? 8)%nat.
  - assert (length (Heap.board_of h0 st) = length (Heap.snapshot h0 st)) as ->
      by (unfold Heap.snapshot; by rewrite length_map).
    apply (drop_copies _ h0 [] []), copies_ok_start.
  - apply (move_copies _ h0 [] []), copies_ok_start.
Qed.

End SuccOnStore.


Lemma start_heap_board : board_object start_heap 1.
Proof.
  exists [2; 3; 4; 5; 6]%positive. split; [reflexivity|]. split.
  - repeat (apply NoDup_cons; split; [set_solver|]). apply NoDup_nil_2.
  - intros r Hr. exists (replicate 5 " ").
    repeat (apply elem_of_cons in Hr as [->|Hr]; [reflexivity|]).
    by apply elem_of_nil in Hr.
Qed.

(** X15: [succ] only reads its argument.  When [state] is a list of
    distinct row lists, every object that existed before the call is the
    same after it, [state] reads as before, and the returned boards read,
    in order, as the successors computed on values. *)
Theorem succ_leaves_the_state (h : gmap positive Heap.obj) (st : positive)
    (piece : ascii) :
  board_object h st →
  extends h (Heap.succ h st piece).1
  ∧ Heap.snapshot (Heap.succ h st piece).1 st = Heap.snapshot h st
  ∧ map (Heap.snapshot (Heap.succ h st piece).1) (Heap.succ h st piece).2
    = succ (Heap.snapshot h st) piece.
Proof.
  intros Hst.
  destruct (succ_copies_ok h st piece Hst) as (Hext & _ & _ & Hvals).
  split; [exact Hext|]. split; [|exact Hvals].
  by destruct (extends_board_object h _ st Hext Hst) as (_ & ? & _).
Qed.

Lemma succ_leaves_the_state_witness :
  board_object start_heap 1
  ∧ Heap.snapshot (Heap.succ start_heap 1 "b").1 1 = empty_board
  ∧ length (Heap.succ start_heap 1 "b").2 = 25%nat.
Proof.
  split; [exact start_heap_board|].
  destruct (succ_leaves_the_state start_heap 1 "b" start_heap_board)
    as (_ & Hsame & Hvals).
  split.
  - rewrite Hsame. reflexivity.
  - rewrite <- (length_map (Heap.snapshot (Heap.succ start_heap 1 "b").1)),
      Hvals.
    reflexivity.
Defined.

(** X16: the successors are separate objects.  Writing a cell of one
    returned board changes that board as an update of its value does, and
    changes neither the board given to [succ] nor any other returned
    board. *)
Theorem successors_are_separate (h : gmap positive Heap.obj) (st : positive)
    (piece : ascii) (k : nat) (c : positive) (i j : nat) (v : ascii) :
  board_object h st →
  (Heap.succ h st piece).2 !! k = Some c →
  let h' := (Heap.succ h st piece).1 in
  Heap.snapshot (Heap.write h' c i j v) c = set_cell (Heap.snapshot h' c) i j v
  ∧ Heap.snapshot (Heap.write h' c i j v) st = Heap.snapshot h st
  ∧ ∀ k' c', (Heap.succ h st piece).2 !! k' = Some c' → k' ≠ k →
      Heap.snapshot (Heap.write h' c i j v) c' = Heap.snapshot h' c'.
Proof.
  intros Hst Hk h'.
  destruct (succ_copies_ok h st piece Hst) as (Hext & Hobj & Hsep & _).
  fold h' in Hext, Hobj, Hsep.
  destruct (Hobj c) as [Hc Hnew]; [by eapply list_elem_of_lookup_2|].
  destruct (write_spec h' c i j v Hc) as (Hframe & _ & _ & _ & Hsnap).
  split; [exact Hsnap|]. split.
  - destruct (extends_board_object h h' st Hext Hst) as (_ & Hsame & Hown).
    rewrite <- Hsame.
    apply snapshot_agree. intros l Hl. apply Hframe.
    rewrite Hown in Hl. apply board_object_owned in Hst. set_solver.
  - intros k' c' Hk' Hne.
    apply snapshot_agree. intros l Hl. apply Hframe.
    specialize (Hsep k' k c' c Hk' Hk Hne). set_solver.
Qed.

Lemma successors_are_separate_witness :
  board_object start_heap 1
  ∧ (Heap.succ start_heap 1 "b").2 !! 0%nat = Some 7%positive
  ∧ Heap.snapshot
      (Heap.write (Heap.succ start_heap 1 "b").1 7%positive 4 4 "r") 1
    = empty_board.
Proof.
  split; [exact start_heap_board|].
  assert ((Heap.succ start_heap 1 "b").2 !! 0%nat = Some 7%positive) as Hk
    by (vm_compute; reflexivity).
  split; [exact Hk|].
  destruct (successors_are_separate start_heap 1 "b" 0 7%positive 4 4 "r"
              start_heap_board Hk) as (_ & Hsame & _).
  rewrite Hsame. reflexivity.
Defined.

(** ** Blocked pieces *)

Lemma filter_choose {A : Type} (f : A → bool) (l : list A) :
  List.filter f l ∈ choose (length (List.filter f l)) l.
Proof.
  induction l as [|x l IH]; simpl; [by left|].
  destruct (f x); simpl.
  - apply elem_of_app. left. by apply list_elem_of_fmap_2.
  - destruct (length (List.filter f l)) as [|k] eqn:E.
    + apply nil_length_inv in E as ->. by left.
    + apply elem_of_app. by right.
Qed.

(** Four cells of the board always have five neighbours or more. *)
Lemma frontier_of_four :
  forallb (λ cells, 5 <=? length (frontier cells))%nat (choose 4 positions)
  = true.
Proof. vm_compute. reflexivity. Qed.

Lemma cells_by_position (st : state) (f : cell → bool) :
  is_board st = true →
  length (List.filter (λ '(i, j), f (cell_at st i j)) positions)
  = length (List.filter f (concat st)).
Proof.
  intros Hb. rewrite <- (board_cells_concat st Hb).
  induction positions as [|[i j] l IH]; simpl; [reflexivity|].
  destruct (f (cell_at st i j)); simpl; by rewrite IH.
Qed.

Lemma piece_locs_count (st : state) (p : cell) :
  is_board st = true → length (piece_locs st p) = count (concat st) p.
Proof.
  intros Hb. rewrite piece_locs_filter, count_filter.
  apply (cells_by_position st (λ c, Ascii.eqb c p) Hb).
Qed.

Lemma pieces_split (l : list cell) (p : cell) :
  p ≠ " " →
  length (List.filter (λ c, negb (Ascii.eqb c " ")) l)
  = (count l p
     + length (List.filter (λ c, negb (Ascii.eqb c " ")
                                 && negb (Ascii.eqb c p)) l))%nat.
Proof.
  intros Hp. rewrite count_filter.
  induction l as [|c l IH]; simpl; [reflexivity|].
  destruct (Ascii.eqb_spec c " ") as [E1|N1],
    (Ascii.eqb_spec c p) as [E2|N2]; simpl; [congruence|lia..].
Qed.

Lemma other_pieces_count (st : state) (p : cell) :
  is_board st = true → p ≠ " " →
  total_pieces st = (count (concat st) p + length (other_pieces st p))%nat.
Proof.
  intros Hb Hp. unfold total_pieces, other_pieces.
  rewrite (cells_by_position st
             (λ c, negb (Ascii.eqb c " ") && negb (Ascii.eqb c p)) Hb).
  by apply pieces_split.
Qed.

(** When no piece of [p] can move, every cell next to one holds a piece of
    the other side. *)
Lemma blocked_frontier (st : state) (p : cell) :
  is_board st = true →
  move_pairs st p = [] →
  ∀ dst, dst ∈ frontier (piece_locs st p) → dst ∈ other_pieces st p.
Proof.
  intros Hb Hnone [nx ny] Hin.
  apply list_elem_of_In, filter_In in Hin as [Hpos Hin].
  apply andb_prop in Hin as [Hout Hnext].
  apply negb_true_iff, bool_decide_eq_false in Hout.
  apply existsb_exists in Hnext as ([x y] & Hsrc & Hadj).
  apply list_elem_of_In in Hsrc, Hpos.
  pose proof Hpos as Hpos'. apply positions_spec in Hpos' as [Hnx Hny].
  apply piece_locs_spec in Hsrc as (Hx & Hy & Hp).
  apply list_elem_of_In, filter_In. split; [by apply list_elem_of_In|].
  apply andb_true_intro. split; apply negb_true_iff.
  - destruct (Ascii.eqb_spec (cell_at st nx ny) " ") as [He|]; [|reflexivity].
    assert (((x, y), (nx, ny)) ∈ move_pairs st p) as Hmove.
    { apply (move_pairs_spec st p _ _ Hb). unfold legal_relocation. simpl.
      unfold adjacent in Hadj. simpl in Hadj. apply Z.eqb_eq in Hadj.
      auto 10. }
    rewrite Hnone in Hmove. by apply elem_of_nil in Hmove.
  - destruct (Ascii.eqb_spec (cell_at st nx ny) p) as [He|]; [|reflexivity].
    exfalso. apply Hout. by apply piece_locs_spec.
Qed.

(** Four pieces cannot be shut in by four. *)
Lemma four_pieces_can_move (st : state) (p : cell) :
  is_board st = true → p ≠ " " →
  count (concat st) p = 4%nat → (total_pieces st ≤ 8)%nat →
  move_pairs st p ≠ [].
Proof.
  intros Hb Hp Hfour Htotal Hnil.
  pose proof (blocked_frontier st p Hb Hnil) as Hshut.
  assert (length (frontier (piece_locs st p)) ≤ length (other_pieces st p))%nat
    as Hle.
  { apply submseteq_length, NoDup_submseteq; [|exact Hshut].
    apply NoDup_ListNoDup, List.NoDup_filter, NoDup_ListNoDup, NoDup_positions. }
  assert (5 ≤ length (frontier (piece_locs st p)))%nat as Hfive.
  { pose proof frontier_of_four as Hall.
    rewrite forallb_forall in Hall.
    apply Nat.leb_le, Hall, list_elem_of_In.
    rewrite <- Hfour, <- (piece_locs_count st p Hb), piece_locs_filter.
    apply filter_choose. }
  pose proof (other_pieces_count st p Hb Hp). lia.
Qed.

(** X17: with at most eight pieces on the board, four of them the
    player's, the player always has a move: [succ] is not empty, and on a
    board without a winner [make_move] does not return the empty move. *)
Theorem mover_never_stuck (self : TeekoPlayer) (st : state) :
  is_board st = true → my_piece self ∈ pieces →
  count (concat st) (my_piece self) = 4%nat → (total_pieces st ≤ 8)%nat →
  succ st (my_piece self) ≠ []
  ∧ (game_value self st = 0%Z → make_move self st ≠ []).
Proof.
  intros Hb Hme Hfour Htotal. pose proof (piece_not_empty _ Hme) as Hp.
  assert (succ st (my_piece self) ≠ []) as Hsome.
  { destruct (drop_phase st) eqn:Hd.
    - apply succ_drop_nonempty; [exact Hb|].
      unfold drop_phase in Hd. by apply Nat.ltb_lt in Hd.
    - rewrite succ_move by exact Hd. intros Hnil. apply map_eq_nil in Hnil.
      by apply (four_pieces_can_move st (my_piece self)). }
  split; [exact Hsome|]. intros Hg.
  destruct (make_move_chosen self st Hg Hsome) as (chosen & Hin & ->).
  destruct (drop_phase st) eqn:Hd.
  - rewrite succ_drop in Hin by assumption.
    apply list_elem_of_In, in_map_iff in Hin as ([i j] & <- & Hcell).
    apply filter_In in Hcell as [Hpos He].
    apply list_elem_of_In, positions_spec in Hpos as [Hi Hj].
    apply Ascii.eqb_eq in He.
    by rewrite translate_drop.
  - rewrite succ_move in Hin by assumption.
    apply list_elem_of_In, in_map_iff in Hin as ([src dst] & <- & Hpair).
    apply list_elem_of_In, (move_pairs_spec st _ _ _ Hb) in Hpair.
    by rewrite translate_move.
Qed.

Lemma mover_never_stuck_witness : succ corner_board "b" ≠ [].
Proof.
  apply (mover_never_stuck black_player corner_board).
  - reflexivity.
  - apply list_elem_of_In; simpl; tauto.
  - reflexivity.
  - vm_compute. lia.
Defined.

(** ** The sample game *)

(** *** Counts after a turn *)

Lemma place_counts (st : state) (i j : nat) (v : cell) :
  is_board st = true → (i < 5)%nat → (j < 5)%nat →
  cell_at st i j = " " → v ≠ " " →
  is_board (set_cell st i j v) = true
  ∧ total_pieces (set_cell st i j v) = (total_pieces st + 1)%nat
  ∧ ∀ q, q ≠ " " →
      count (concat (set_cell st i j v)) q
      = (count (concat st) q + (if Ascii.eqb v q then 1 else 0))%nat.
Proof.
  intros Hb Hi Hj He Hv.
  pose proof (is_board_set_cell st i j v Hb) as Hb'.
  assert (∀ q, count (concat (set_cell st i j v)) q
               + (if Ascii.eqb " " q then 1 else 0)
               = count (concat st) q + (if Ascii.eqb v q then 1 else 0))%nat
    as Hcount.
  { intros q. rewrite <- He. by apply count_set_cell. }
  split; [exact Hb'|]. split.
  - pose proof (board_cell_count st Hb). pose proof (board_cell_count _ Hb').
    specialize (Hcount " "). rewrite Ascii.eqb_refl in Hcount.
    destruct (Ascii.eqb_spec v " "); [congruence|]. lia.
  - intros q Hq. specialize (Hcount q).
    destruct (Ascii.eqb_spec " " q); [congruence|]. lia.
Qed.

Lemma relocate_counts (st : state) (x y nx ny : nat) (p : cell) :
  is_board st = true →
  (x < 5)%nat → (y < 5)%nat → (nx < 5)%nat → (ny < 5)%nat →
  cell_at st x y = p → cell_at st nx ny = " " → p ≠ " " →
  is_board (set_cell (set_cell st x y " ") nx ny p) = true
  ∧ total_pieces (set_cell (set_cell st x y " ") nx ny p) = total_pieces st
  ∧ ∀ q, count (concat (set_cell (set_cell st x y " ") nx ny p)) q
         = count (concat st) q.
Proof.
  intros Hb Hx Hy Hnx Hny Hsrc Hdst Hp.
  pose proof (is_board_set_cell st x y " " Hb) as Hb1.
  pose proof (is_board_set_cell _ nx ny p Hb1) as Hb2.
  assert (∀ q, count (concat (set_cell (set_cell st x y " ") nx ny p)) q
               = count (concat st) q) as Hcount.
  { intros q.
    pose proof (count_set_cell st x y " " q Hb Hx Hy) as H1.
    pose proof (count_set_cell _ nx ny p q Hb1 Hnx Hny) as H2.
    rewrite cell_at_set_cell_other in H2 by (intros [= -> ->]; congruence).
    rewrite Hsrc in H1. rewrite Hdst in H2. lia. }
  split; [exact Hb2|]. split; [|exact Hcount].
  pose proof (board_cell_count st Hb). pose proof (board_cell_count _ Hb2).
  specialize (Hcount " "). lia.
Qed.

(** *** What a turn does to the board *)

Lemma ai_places_cell (self : TeekoPlayer) :
  is_board (board self) = true → my_piece self ∈ pieces →
  (total_pieces (board self) < 8)%nat →
  game_value self (board self) = 0%Z →
  ∃ i j, (i < 5)%nat ∧ (j < 5)%nat ∧ cell_at (board self) i j = " "
         ∧ ai_places self
           = Some (with_board self
                     (set_cell (board self) i j (my_piece self))).
Proof.
  intros Hb Hme Hlt Hg. pose proof (piece_not_empty _ Hme) as Hp.
  assert (drop_phase (board self) = true) as Hd
    by (unfold drop_phase; by apply Nat.ltb_lt).
  destruct (make_move_chosen self _ Hg (succ_drop_nonempty _ _ Hb Hlt))
    as (chosen & Hin & Hmove).
  rewrite succ_drop in Hin by assumption.
  apply list_elem_of_In, in_map_iff in Hin as ([i j] & <- & Hcell).
  apply filter_In in Hcell as [Hpos He].
  apply list_elem_of_In, positions_spec in Hpos as [Hi Hj].
  apply Ascii.eqb_eq in He.
  rewrite translate_drop in Hmove by assumption.
  exists i, j. unfold ai_places. rewrite Hmove. auto.
Qed.

Lemma ai_relocates_piece (self : TeekoPlayer) :
  is_board (board self) = true → my_piece self ∈ pieces →
  total_pieces (board self) = 8%nat →
  count (concat (board self)) (my_piece self) = 4%nat →
  game_value self (board self) = 0%Z →
  ∃ x y nx ny,
    (x < 5)%nat ∧ (y < 5)%nat ∧ (nx < 5)%nat ∧ (ny < 5)%nat
    ∧ cell_at (board self) x y = my_piece self
    ∧ cell_at (board self) nx ny = " "
    ∧ ai_relocates self
      = Some (with_board self
                (set_cell (set_cell (board self) x y " ") nx ny
                   (my_piece self))).
Proof.
  intros Hb Hme Htotal Hfour Hg. pose proof (piece_not_empty _ Hme) as Hp.
  assert (drop_phase (board self) = false) as Hd
    by (unfold drop_phase; apply Nat.ltb_ge; lia).
  assert (succ (board self) (my_piece self) ≠ []) as Hsome.
  { rewrite succ_move by exact Hd. intros Hnil. apply map_eq_nil in Hnil.
    apply (four_pieces_can_move (board self) (my_piece self)); auto; lia. }
  destruct (make_move_chosen self _ Hg Hsome) as (chosen & Hin & Hmove).
  rewrite succ_move in Hin by assumption.
  apply list_elem_of_In, in_map_iff in Hin as ([src dst] & <- & Hpair).
  apply list_elem_of_In, (move_pairs_spec _ _ _ _ Hb) in Hpair.
  rewrite translate_move in Hmove by assumption.
  destruct Hpair as (Hx & Hy & Hsrc & Hnx & Hny & Hdst & _).
  destruct src as [x y], dst as [nx ny]. simpl in *.
  exists x, y, nx, ny. unfold ai_relocates. rewrite Hmove. simpl. auto 10.
Qed.

Lemma human_places_cell (self : TeekoPlayer) (answers : list (nat * nat))
    (self' : TeekoPlayer) (rest : list (nat * nat)) :
  is_board (board self) = true →
  human_places self answers = Some (self', rest) →
  ∃ i j, (i < 5)%nat ∧ (j < 5)%nat ∧ cell_at (board self) i j = " "
         ∧ self' = with_board self (set_cell (board self) i j (opp self)).
Proof.
  intros Hb. induction answers as [|player_move answers IH]; [discriminate|].
  cbn [human_places].
  destruct (opponent_move self [as_ints player_move]) as [e|accepted] eqn:E;
    [exact IH|].
  intros [= -> ->]. unfold opponent_move in E.
  cbn [length Nat.ltb Nat.leb] in E.
  apply (opponent_place_accepts _ _ _ _ Hb) in E as (V1 & V2 & He & ->).
  exists (named 5 (as_ints player_move).1), (named 5 (as_ints player_move).2).
  split; [by apply named_lt|]. split; [by apply named_lt|]. auto.
Qed.

Lemma human_relocates_piece (self : TeekoPlayer) (n : nat) :
  is_board (board self) = true →
  ∀ (answers : list (nat * nat)) self' rest,
    (length answers ≤ n)%nat →
    human_relocates self answers = Some (self', rest) →
    ∃ x y nx ny,
      (x < 5)%nat ∧ (y < 5)%nat ∧ (nx < 5)%nat ∧ (ny < 5)%nat
      ∧ cell_at (board self) x y = opp self
      ∧ cell_at (board self) nx ny = " "
      ∧ self' = with_board self
                  (set_cell (set_cell (board self) x y " ") nx ny (opp self)).
Proof.
  intros Hb. induction n as [|n IH]; intros answers self' rest Hlen.
  - destruct answers; [discriminate|simpl in Hlen; lia].
  - destruct answers as [|move_from [|move_to answers]]; [discriminate..|].
    cbn [human_relocates].
    destruct (opponent_move self [as_ints move_to; as_ints move_from])
      as [e|accepted] eqn:E.
    + apply IH. simpl in Hlen. lia.
    + intros [= -> ->].
      apply (opponent_move_accepts _ _ _ _ Hb) in E
        as ((V1 & V2 & V3 & V4) & Hs & Hd & _ & _ & ->).
      exists (named 5 (as_ints move_from).1), (named 5 (as_ints move_from).2),
        (named 5 (as_ints move_to).1), (named 5 (as_ints move_to).2).
      repeat split; auto; by apply named_lt.
Qed.

(** *** Winning shapes after a turn *)

(** Writing [v] on a cell completes no shape of another piece. *)
Lemma shape_kept (st : state) (i j : nat) (v q : cell) :
  is_board st = true → (i < 5)%nat → (j < 5)%nat → q ≠ v →
  has_winning_shape (set_cell st i j v) q → has_winning_shape st q.
Proof.
  intros Hb Hi Hj Hq.
  assert (∀ a b, cell_at (set_cell st i j v) a b = q → cell_at st a b = q)
    as Hcell.
  { intros a b H. destruct (decide ((i, j) = (a, b))) as [[= <- <-]|Hne].
    - rewrite cell_at_set_cell_same in H by assumption. congruence.
    - by rewrite cell_at_set_cell_other in H. }
  intros [(r & c & d & Hd & Hline) | (r & c & Hr & Hc & H1 & H2 & H3 & H4)].
  - left. exists r, c, d. split; [exact Hd|].
    intros k Hk. destruct (Hline k Hk) as [Hin H]. split; auto.
  - right. exists r, c. auto 10.
Qed.

Lemma undecided_no_shape (self : TeekoPlayer) (st : state) (q : cell) :
  is_board st = true → my_piece self ∈ pieces → q ∈ pieces →
  game_value self st = 0%Z → ¬ has_winning_shape st q.
Proof.
  intros Hb Hme Hq Hv Hshape.
  apply (shape_gives_verdict self st q Hb); [|exact Hshape|exact Hv].
  revert Hme Hq. generalize (my_piece self). intros m Hme Hq.
  unfold pieces in Hme, Hq. pick_cases Hme; pick_cases Hq; auto.
Qed.

(** After a turn of [v] on a board without a winner, the other side has no
    winning shape. *)
Lemma one_side_after (self : TeekoPlayer) (st st' : state) (v : cell) :
  is_board st = true → my_piece self ∈ pieces → v ∈ pieces →
  game_value self st = 0%Z →
  (∀ q, q ∈ pieces → q ≠ v →
        has_winning_shape st' q → has_winning_shape st q) →
  ¬ (has_winning_shape st' "b" ∧ has_winning_shape st' "r").
Proof.
  intros Hb Hme Hv Hg Hkept [Hblack Hred].
  unfold pieces in Hv. pick_cases Hv.
  - apply (undecided_no_shape self st "r" Hb Hme); [in_steps|exact Hg|].
    apply Hkept; [in_steps|discriminate|exact Hred].
  - apply (undecided_no_shape self st "b" Hb Hme); [in_steps|exact Hg|].
    apply Hkept; [in_steps|discriminate|exact Hblack].
Qed.

(** *** The positions of a game *)

Lemma start_dropping (choice : cell) :
  choice ∈ pieces → dropping choice (start choice).
Proof.
  intros H.
  assert (¬ has_winning_shape empty_board "b") as Hnone.
  { apply (undecided_no_shape black_player); try reflexivity; in_steps. }
  unfold pieces in H.
  pick_cases H; repeat split; simpl; try lia; by intros [? _].
Qed.

(** The piece of the side to move. *)
Lemma piece_to_move (choice : cell) (g : game) :
  choice ∈ pieces → fair choice g →
  default "?" (pieces !! turn g) ∈ pieces
  ∧ (if ai_to_move g then my_piece (ai g) else opp (ai g))
    = default "?" (pieces !! turn g).
Proof.
  intros Hc (Hme & Hopp & _ & _ & _ & _ & _ & Hturn & _).
  unfold ai_to_move. rewrite Hme, Hopp.
  assert (turn g = 0 ∨ turn g = 1)%nat as [-> | ->] by lia;
    unfold pieces in *; simpl; (split; [in_steps|]);
    pick_cases Hc; reflexivity.
Qed.

(** A piece of the side to move, dropped on an empty cell. *)
Lemma dropping_step (choice : cell) (g : game) (i j : nat) :
  choice ∈ pieces → dropping choice g → (piece_count g < 8)%nat →
  game_value (ai g) (board (ai g)) = 0%Z →
  (i < 5)%nat → (j < 5)%nat → cell_at (board (ai g)) i j = " " →
  dropping choice
    (end_turn g
       (with_board (ai g)
          (set_cell (board (ai g)) i j (default "?" (pieces !! turn g))))
       1).
Proof.
  intros Hc [Hfair Hside] Hlt Hg Hi Hj He.
  destruct (piece_to_move choice g Hc Hfair) as [Hpiece _].
  destruct Hfair
    as (Hme & Hopp & Hb & Htotal & Hle & Hsum & Hbal & Hturn & _).
  destruct (place_counts _ i j _ Hb Hi Hj He (piece_not_empty _ Hpiece))
    as (Hb' & Htotal' & Hcount).
  pose proof (Hcount "b" ltac:(discriminate)) as Hblack.
  pose proof (Hcount "r" ltac:(discriminate)) as Hred.
  assert (¬ (has_winning_shape
               (set_cell (board (ai g)) i j (default "?" (pieces !! turn g)))
               "b"
             ∧ has_winning_shape
                 (set_cell (board (ai g)) i j
                    (default "?" (pieces !! turn g))) "r")) as Hone.
  { apply (one_side_after (ai g) (board (ai g)) _
             (default "?" (pieces !! turn g)) Hb); auto.
    - by rewrite Hme.
    - intros q _ Hq. by apply shape_kept. }
  unfold dropping, fair, end_turn. cbn [ai piece_count turn board with_board
    my_piece opp].
  rewrite Hb', Htotal', Hblack, Hred.
  assert (turn g = 0 ∨ turn g = 1)%nat as [E | E] by lia;
    rewrite E in *; simpl; repeat split; auto; lia.
Qed.

(** A piece moved to an empty cell. *)
Lemma moving_step (choice : cell) (g : game) (x y nx ny : nat) (p : cell) :
  choice ∈ pieces → fair choice g → piece_count g = 8%nat → p ∈ pieces →
  game_value (ai g) (board (ai g)) = 0%Z →
  (x < 5)%nat → (y < 5)%nat → (nx < 5)%nat → (ny < 5)%nat →
  cell_at (board (ai g)) x y = p → cell_at (board (ai g)) nx ny = " " →
  moving choice
    (end_turn g
       (with_board (ai g)
          (set_cell (set_cell (board (ai g)) x y " ") nx ny p))
       0).
Proof.
  intros Hc (Hme & Hopp & Hb & Htotal & Hle & Hsum & Hbal & Hturn & _)
    Height Hp Hg Hx Hy Hnx Hny Hsrc Hdst.
  destruct (relocate_counts _ x y nx ny p Hb Hx Hy Hnx Hny Hsrc Hdst
              (piece_not_empty _ Hp)) as (Hb' & Htotal' & Hcount).
  assert (¬ (has_winning_shape
               (set_cell (set_cell (board (ai g)) x y " ") nx ny p) "b"
             ∧ has_winning_shape
                 (set_cell (set_cell (board (ai g)) x y " ") nx ny p) "r"))
    as Hone.
  { apply (one_side_after (ai g) (board (ai g)) _ p Hb); auto.
    - by rewrite Hme.
    - intros q Hq Hne Hshape.
      apply shape_kept in Hshape; auto; [|by apply is_board_set_cell].
      apply shape_kept in Hshape; auto. by apply piece_not_empty. }
  unfold moving, fair, end_turn. cbn [ai piece_count turn board with_board
    my_piece opp].
  rewrite Hb', Htotal', !Hcount.
  pose proof (Nat.mod_upper_bound (turn g + 1) 2).
  repeat split; auto; lia.
Qed.

Lemma fair_four (choice : cell) (g : game) (p : cell) :
  fair choice g → piece_count g = 8%nat → p ∈ pieces →
  count (concat (board (ai g))) p = 4%nat.
Proof.
  intros (_ & _ & _ & _ & _ & Hsum & Hbal & _) Height Hp.
  unfold pieces in Hp. pick_cases Hp; lia.
Qed.

(** *** The loops *)

Lemma drop_loop_fair (choice : cell) (turns : nat) :
  choice ∈ pieces →
  ∀ g answers, dropping choice g →
    match drop_loop turns g answers with
    | Continues g' _ | Waits g' => fair choice g'
    | Leaves g' _ => moving choice g'
    | Raises => False
    end.
Proof.
  intros Hc. induction turns as [|turns IH]; intros g answers Hg;
    cbn [drop_loop];
    destruct (Nat.ltb_spec (piece_count g) 8) as [Hlt|Hge];
    destruct (Z.eqb_spec (game_value (ai g) (board (ai g))) 0) as [Hv|Hv];
    cbn [andb];
    try (split; [apply Hg|]; intros; destruct Hg as [Hg _];
         destruct Hg as (_ & _ & _ & _ & ? & _); lia || congruence).
  - apply Hg.
  - pose proof Hg as [Hfair _].
    destruct (piece_to_move choice g Hc Hfair) as [Hpiece Hside].
    pose proof Hfair as (Hme & Hopp & Hb & Htotal & _).
    destruct (ai_to_move g).
    + destruct (ai_places_cell (ai g)) as (i & j & Hi & Hj & He & ->);
        [exact Hb|by rewrite Hside|lia|exact Hv|].
      apply IH. rewrite Hside. by apply dropping_step.
    + destruct (human_places (ai g) answers) as [[self' rest]|] eqn:Hans;
        [|exact Hfair].
      destruct (human_places_cell _ _ _ _ Hb Hans)
        as (i & j & Hi & Hj & He & ->).
      apply IH. rewrite Hside. by apply dropping_step.
Qed.

Lemma move_loop_fair (choice : cell) (turns : nat) :
  choice ∈ pieces →
  ∀ g answers, moving choice g →
    match move_loop turns g answers with
    | Continues g' _ | Waits g' => moving choice g'
    | Leaves g' _ =>
        fair choice g' ∧ game_value (ai g') (board (ai g')) ≠ 0%Z
    | Raises => False
    end.
Proof.
  intros Hc. induction turns as [|turns IH]; intros g answers [Hfair Hplay];
    cbn [move_loop];
    destruct (Z.eqb_spec (game_value (ai g) (board (ai g))) 0) as [Hv|Hv];
    try (split; assumption).
  specialize (Hplay Hv).
  destruct (piece_to_move choice g Hc Hfair) as [Hpiece Hside].
  pose proof Hfair as (Hme & Hopp & Hb & Htotal & _).
  pose proof (fair_four choice g _ Hfair Hplay Hpiece) as Hfour.
  destruct (ai_to_move g).
  - destruct (ai_relocates_piece (ai g))
      as (x & y & nx & ny & Hx & Hy & Hnx & Hny & Hsrc & Hdst & ->);
      [exact Hb|by rewrite Hside|lia|by rewrite Hside|exact Hv|].
    apply IH. apply moving_step; auto. by rewrite Hside.
  - destruct (human_relocates (ai g) answers) as [[self' rest]|] eqn:Hans;
      [|by split].
    destruct (human_relocates_piece _ _ Hb _ _ _ (Nat.le_refl _) Hans)
      as (x & y & nx & ny & Hx & Hy & Hnx & Hny & Hsrc & Hdst & ->).
    apply IH. apply moving_step; auto. by rewrite Hside.
Qed.

Lemma main_from_fair (choice : cell) (g0 : game) (turns : nat)
    (answers : list (nat * nat)) :
  choice ∈ pieces → dropping choice g0 →
  match main_from g0 turns answers with
  | Continues g _ | Waits g => fair choice g
  | Leaves g _ => fair choice g ∧ game_value (ai g) (board (ai g)) ≠ 0%Z
  | Raises => False
  end.
Proof.
  intros Hc Hg0. unfold main_from.
  pose proof (drop_loop_fair choice turns Hc _ answers Hg0) as Hdrop.
  destruct (drop_loop turns g0 answers) as [g rest|g rest|g|];
    try exact Hdrop.
  pose proof (move_loop_fair choice turns Hc g rest Hdrop) as Hmove.
  destruct (move_loop turns g rest); first [exact Hmove | apply Hmove].
Qed.

(** X18: the sample game never stops on an [IndexError] in the AI's turn:
    whichever piece the AI is given and whatever cells the human answers,
    [make_move] returns a move that [place_piece] and the report of the
    move can read. *)
Theorem main_never_raises (choice : cell) (turns : nat)
    (answers : list (nat * nat)) :
  choice ∈ pieces → main choice turns answers ≠ Raises.
Proof.
  intros Hc E.
  pose proof (main_from_fair choice _ turns answers Hc
                (start_dropping choice Hc)) as H.
  fold (main choice turns answers) in H. by rewrite E in H.
Qed.

Lemma main_never_raises_witness : main "r" 1 [(2, 2)]%nat ≠ Raises.
Proof. apply main_never_raises. apply list_elem_of_In; simpl; tauto. Defined.

(** X19: every position of the sample game is a position of a game
    played by the rules, in the drop loop after any number of turns and,
    once that loop is left, in the move loop after any number of turns:
    the board is 5x5 and holds [piece_count] pieces, eight at most, all of
    them black or red, black with as many pieces as red or one more; the
    two sides never both have a winning shape; the AI keeps its piece and
    the human has the other.  The phase read off the board, as [make_move]
    and [succ] read it, is the phase of [main]: the drop phase exactly
    while [piece_count < 8], and the move phase in every position of the
    move loop without a winner. *)
Theorem main_keeps_fair (choice : cell) (drop_turns move_turns : nat)
    (answers : list (nat * nat)) (g : game) :
  choice ∈ pieces →
  (state_of (drop_loop drop_turns (start choice) answers) = Some g →
   fair choice g
   ∧ drop_phase (board (ai g)) = (piece_count g <? 8)%nat)
  ∧ (∀ g8 rest,
       drop_loop drop_turns (start choice) answers = Leaves g8 rest →
       state_of (move_loop move_turns g8 rest) = Some g →
       fair choice g
       ∧ (game_value (ai g) (board (ai g)) = 0%Z →
          piece_count g = 8%nat ∧ drop_phase (board (ai g)) = false)).
Proof.
  intros Hc.
  assert (∀ g', fair choice g' →
            drop_phase (board (ai g')) = (piece_count g' <? 8)%nat) as Hphase.
  { intros g' (_ & _ & _ & Htotal & _). unfold drop_phase. by rewrite Htotal. }
  pose proof (drop_loop_fair choice drop_turns Hc _ answers
                (start_dropping choice Hc)) as Hdrop.
  split.
  - intros E.
    assert (fair choice g) as Hfair.
    { destruct (drop_loop drop_turns (start choice) answers);
        simplify_eq/=; first [exact Hdrop | exact (proj1 Hdrop)]. }
    split; [exact Hfair|by apply Hphase].
  - intros g8 rest E8 E. rewrite E8 in Hdrop.
    pose proof (move_loop_fair choice move_turns Hc g8 rest Hdrop) as Hmove.
    assert (moving choice g) as [Hfair Hplay].
    { destruct (move_loop move_turns g8 rest); simplify_eq/=;
        first [exact Hmove | split; [apply Hmove|]].
      intros Hv. by destruct Hmove as [_ Hne]. }
    split; [exact Hfair|]. intros Hv. specialize (Hplay Hv).
    split; [exact Hplay|]. rewrite (Hphase g Hfair), Hplay. reflexivity.
Qed.

Lemma main_keeps_fair_witness :
  fair "r"
    (end_turn (start "r")
       (with_board (init "r") (set_cell empty_board 2 2 "b")) 1).
Proof.
  apply (main_keeps_fair "r" 1 0 [(2, 2)]%nat).
  - apply list_elem_of_In; simpl; tauto.
  - vm_compute. reflexivity.
Defined.

(** X20: the last report names the winner.  When the loops of [main] are
    left, from the start or from any position of the drop phase without a
    winner, exactly one side has a winning shape: the AI when the report
    is "AI wins", the human when it is "You win". *)
Theorem last_report_names_the_winner (choice : cell) (g0 : game)
    (turns : nat) (answers : list (nat * nat)) (g : game)
    (rest : list (nat * nat)) :
  choice ∈ pieces → dropping choice g0 →
  main_from g0 turns answers = Leaves g rest →
  (last_report g = AI_wins
   ∧ has_winning_shape (board (ai g)) (my_piece (ai g))
   ∧ ¬ has_winning_shape (board (ai g)) (opp (ai g)))
  ∨ (last_report g = You_win
     ∧ has_winning_shape (board (ai g)) (opp (ai g))
     ∧ ¬ has_winning_shape (board (ai g)) (my_piece (ai g))).
Proof.
  intros Hc Hg0 E.
  pose proof (main_from_fair choice g0 turns answers Hc Hg0) as H.
  rewrite E in H. destruct H as [Hfair Hv].
  destruct Hfair as (Hme & Hopp & Hb & _ & _ & _ & _ & _ & Hone).
  pose proof (game_value_shape (ai g) (board (ai g)) _ Hb eq_refl Hv)
    as Hshape.
  unfold last_report.
  destruct (game_value_range (ai g) (board (ai g)) Hb) as [E1 | [E0 | E1]];
    [|contradiction|]; rewrite E1 in *; simpl in *;
    rewrite Hme, Hopp in *; [left|right];
    (split; [reflexivity|]); (split; [exact Hshape|]);
    unfold pieces in Hc; pick_cases Hc; simpl in *; tauto.
Qed.

Lemma last_report_names_the_winner_witness :
  last_report
    (end_turn last_move_game
       (with_board (ai last_move_game)
          (set_cell (set_cell (board (ai last_move_game)) 1 3 " ") 0 3 "b"))
       0)
  = You_win.
Proof.
  destruct (last_report_names_the_winner "r" last_move_game 1
              [(1, 3); (0, 3)]%nat
              (end_turn last_move_game
                 (with_board (ai last_move_game)
                    (set_cell (set_cell (board (ai last_move_game)) 1 3 " ")
                       0 3 "b")) 0) [])
    as [(Hreport & _) | (Hreport & _)].
  - apply list_elem_of_In; simpl; tauto.
  - repeat split; try reflexivity; simpl; try lia.
    intros [Hblack _]. revert Hblack.
    apply (undecided_no_shape (ai last_move_game)); try reflexivity;
      apply list_elem_of_In; simpl; tauto.
  - vm_compute. reflexivity.
  - discriminate Hreport.
  - exact Hreport.
Defined.
